(** * Quip: a cryptoquip solver (quip.c)

    A shallow embedding of the legend, cypherword and solver routines of
    [quip.c], and the properties of them that the design document states.

    Conventions of the embedding:
    - a C [char] is an integer of [Z]; arithmetic that the C code stores
      back into a [char] goes through [to_char], the wrap-around of a
      signed 8-bit value;
    - a C string is the list of its characters before the terminating NUL,
      so [strlen] is [length];
    - a pointer argument that the code tests against [NULL] is an [option];
    - a legend ([char map[26]]) is the list of its slot values, [0] being
      the unassigned marker; a read that the code guards to fall inside
      the 26 slots is [m !!! k];
    - a routine that may read or write outside the 26 slots returns an
      [option]: [None] stands for that undefined access;
    - an [int] is an integer of [Z]; where the code stores a [time_t]
      value in an [int], the wrap-around of a signed 32-bit value,
      [to_int], is written out;
    - [malloc], [realloc] and [strdup] are taken to succeed, and the
      messages printed with [printf] are left out. *)

From Stdlib Require Import ZArith List Bool Lia String Ascii.
From stdpp Require Import base list.

Local Open Scope Z_scope.

(** ** Characters: <ctype.h> in the C locale *)

Module Ctype.

(** The conversion of an [int] to [char], a signed 8-bit integer. *)
Definition to_char (z : Z) : Z := (z + 128) mod 256 - 128.

Definition is_char (z : Z) : bool := (-128 <=? z) && (z <=? 127).

Definition isupper (c : Z) : bool := (65 <=? c) && (c <=? 90).

Definition islower (c : Z) : bool := (97 <=? c) && (c <=? 122).

Definition isalpha (c : Z) : bool := isupper c || islower c.

Definition ispunct (c : Z) : bool :=
  ((33 <=? c) && (c <=? 47)) || ((58 <=? c) && (c <=? 64))
  || ((91 <=? c) && (c <=? 96)) || ((123 <=? c) && (c <=? 126)).

Definition tolower (c : Z) : Z := if isupper c then c + 32 else c.

(** The characters of a string literal, for examples. *)
Definition chars (s : string) : list Z :=
  List.map (fun a => Z.of_nat (nat_of_ascii a)) (list_ascii_of_string s).

End Ctype.

Import Ctype.

Abbreviation cstring := (list Z).
Abbreviation legend := (list Z).

(** A legend has 26 slots, each a [char]. *)
Definition legend_ok (m : legend) : bool :=
  (length m =? 26)%nat && forallb is_char m.

(** A C string holds no NUL before its end. *)
Definition cstring_ok (s : cstring) : bool := forallb (fun c => negb (c =? 0)) s.

(** ** Cypherwords *)

(** [cypherword_t]: the [length] field is [strlen cyphertext] and
    [numberOfPossibles] is the length of [possiblePlaintext]; the capacity
    [possiblePlaintextSize] is an allocation detail. *)
Record cypherword := {
  cyphertext : cstring;
  possiblePlaintext : list cstring
}.

(** The inner loop of [DoPatternsMatch] (lines 274-288, j from i+1): [true]
    when some later position repeats in one text and not in the other. *)
Fixpoint pattern_clash (cypherchar plainchar : Z) (cs ps : cstring) : bool :=
  match cs, ps with
  | cj :: cs', pj :: ps' =>
      if ((cj =? cypherchar) && negb (pj =? plainchar))
         || ((pj =? plainchar) && negb (cj =? cypherchar))
      then true
      else pattern_clash cypherchar plainchar cs' ps'
  | _, _ => false
  end.

(** The outer loop of [DoPatternsMatch] (lines 268-289, i from 0): the value
    of [matched]. *)
Fixpoint pattern_loop (cs ps : cstring) : bool :=
  match cs, ps with
  | cypherchar :: cs', plainchar :: ps' =>
      if pattern_clash cypherchar plainchar cs' ps' then false
      else pattern_loop cs' ps'
  | _, _ => true
  end.

(** [DoPatternsMatch], lines 235-293. *)
Definition DoPatternsMatch (cyphertext plaintext : option cstring) : bool :=
  match cyphertext, plaintext with
  | None, None => true
  | None, Some _ => false
  | Some _, None => false
  | Some c, Some p =>
      if negb (length c =? length p)%nat then false else pattern_loop c p
  end.

(** ** Legends *)

(** [CreateLegend], lines 729-760: the write to [map[cryptChar - 'a']] is
    defined for a lower-case [cryptChar] only. *)
Definition CreateLegend (cryptChar plainChar : Z) : option legend :=
  let k := cryptChar - 97 in
  if (0 <=? k) && (k <? 26)
  then Some (<[Z.to_nat k := plainChar]> (replicate 26 0))
  else None.

(** [SetLegendToLegend], lines 827-849: [dest->map[i] = src->map[i]] for
    each of the 26 slots. *)
Definition SetLegendToLegend (dest src : legend) : legend :=
  fold_left (fun d i => <[i := src !!! i]> d) (seq 0 26) dest.

(** [DuplicateLegend], lines 789-819: a fresh legend, made by
    [CreateLegend('a', 'a')], receives the slots of [map]. *)
Definition DuplicateLegend (map : option legend) : option legend :=
  match map with
  | None => None
  | Some m => Some (SetLegendToLegend (<[0%nat := 97]> (replicate 26 0)) m)
  end.

(** [CypherToPlainChar], lines 910-941. *)
Definition CypherToPlainChar (map : option legend) (c : Z) : Z :=
  match map with
  | None => 0
  | Some m =>
      let upperCase := isupper c in
      let retval := if upperCase then tolower c else c in
      if islower retval
      then to_char (m !!! Z.to_nat (retval - 97) + (if upperCase then 65 - 97 else 0))
      else retval
  end.

(** The back-search of [PlainToCypherChar] (lines 977-982): the first slot,
    from [i] on, that holds [target]. *)
Fixpoint back_search (slots : list Z) (i : Z) (target : Z) : option Z :=
  match slots with
  | [] => None
  | v :: rest => if v =? target then Some i else back_search rest (i + 1) target
  end.

(** [PlainToCypherChar], lines 949-988. *)
Definition PlainToCypherChar (map : option legend) (c : Z) : Z :=
  match map with
  | None => 0
  | Some m =>
      let upperCase := isupper c in
      let retval := if upperCase then tolower c else c in
      if islower retval
      then match back_search m 0 retval with
           | Some i => to_char ((i + 97) + (if upperCase then 65 - 97 else 0))
           | None => retval
           end
      else retval
  end.

(** [CypherToPlainString], lines 999-1055: the buffer of the converted
    characters. A marker among them ends the text for [strcmp]. *)
Definition CypherToPlainString (map : option legend) (cyphertext : option cstring)
  : option cstring :=
  match map, cyphertext with
  | Some _, Some c => Some (List.map (CypherToPlainChar map) c)
  | _, _ => None
  end.

(** [PlainToCypherString], lines 1066-1122. *)
Definition PlainToCypherString (map : option legend) (plaintext : option cstring)
  : option cstring :=
  match map, plaintext with
  | Some _, Some p => Some (List.map (PlainToCypherChar map) p)
  | _, _ => None
  end.

(** ** Testing a legend against a cypherword *)

(** The loop of [CanCypherAndLegendMakePlain] (lines 353-371); the result is
    the final value of [mismatch]. A mismatching mapped character sets the flag and the loop
    goes on; an unmapped one under [mustBeComplete] sets it and breaks. *)
Fixpoint canmap_loop (m : legend) (mustBeComplete : bool) (cs ps : cstring)
    (mismatch : bool) : bool :=
  match cs, ps with
  | c :: cs', p :: ps' =>
      let ppc := CypherToPlainChar (Some m) (tolower c) in
      if (ppc =? 0) && mustBeComplete then true
      else
        let mismatch' :=
          if negb (ppc =? 0)
          then (if negb (tolower ppc =? tolower p) then true else mismatch)
          else mismatch in
        canmap_loop m mustBeComplete cs' ps' mismatch'
  | _, _ => mismatch
  end.

(** [CanCypherAndLegendMakePlain], lines 309-375. *)
Definition CanCypherAndLegendMakePlain (cyphertext : option cstring)
    (map : option legend) (plaintext : option cstring) (mustBeComplete : bool) : bool :=
  match cyphertext, map, plaintext with
  | Some c, Some m, Some p =>
      if negb (length c =? length p)%nat then false
      else negb (canmap_loop m mustBeComplete c p false)
  | _, _, _ => false
  end.

(** The search loop of [GetPossibleOfCypherwordForLegend] (lines 416-430):
    the first possible plaintext the legend agrees with. *)
Fixpoint first_possible (c : cstring) (map : option legend) (mustBeComplete : bool)
    (possibles : list cstring) : option cstring :=
  match possibles with
  | [] => None
  | p :: rest =>
      if CanCypherAndLegendMakePlain (Some c) map (Some p) mustBeComplete
      then Some p
      else first_possible c map mustBeComplete rest
  end.

(** [GetPossibleOfCypherwordForLegend], lines 389-434. *)
Definition GetPossibleOfCypherwordForLegend (word : option cypherword)
    (map : option legend) (mustBeComplete : bool) : option cstring :=
  match word, map with
  | Some w, Some _ => first_possible (cyphertext w) map mustBeComplete (possiblePlaintext w)
  | _, _ => None
  end.

(** [IsCypherwordDecryptedByLegend], lines 447-483. On a NULL argument the
    routine returns its [error] flag, which is YES. *)
Definition IsCypherwordDecryptedByLegend (word : option cypherword)
    (map : option legend) : bool :=
  match word, map with
  | Some _, Some _ =>
      match GetPossibleOfCypherwordForLegend word map true with
      | None => false
      | Some _ => true
      end
  | _, _ => true
  end.

(** ** Extending a legend *)

(** [map->map[k]] for an [int] index [k]. *)
Definition slot (m : legend) (k : Z) : option Z :=
  if (0 <=? k) && (k <? 26) then m !! Z.to_nat k else None.

(** The loop of [IncorporateCypherToPlainMapInLegend] (lines 2264-2305): the
    pair of [!error] and the legend as the loop leaves it. The scan for a
    slot that already holds [pc] runs over the 26 slots. *)
Fixpoint incorporate_loop (cs ps : cstring) (m : legend) : option (bool * legend) :=
  match cs, ps with
  | c :: cs', p :: ps' =>
      let cc := tolower c in
      let pc := tolower p in
      if (ispunct cc && negb (ispunct pc)) || (negb (ispunct cc) && ispunct pc)
      then Some (false, m)
      else if ispunct cc && ispunct pc
      then incorporate_loop cs' ps' m
      else
        match slot m (cc - 97) with
        | None => None
        | Some v =>
            let error :=
              if negb (v =? 0) then negb (v =? pc)
              else existsb (fun x => x =? pc) m in
            if error then Some (false, m)
            else incorporate_loop cs' ps' (<[Z.to_nat (cc - 97) := pc]> m)
        end
  | _, _ => Some (true, m)
  end.

(** [IncorporateCypherToPlainMapInLegend], lines 2211-2309. The result pairs
    the returned BOOL with the legend the caller's pointer designates after
    the call. *)
Definition IncorporateCypherToPlainMapInLegend (cyphertext plaintext : option cstring)
    (map : option legend) : option (bool * option legend) :=
  match cyphertext, plaintext, map with
  | Some c, Some p, Some m =>
      if negb (length c =? length p)%nat then Some (false, map)
      else
        match incorporate_loop c p m with
        | Some (ok, m') => Some (ok, Some m')
        | None => None
        end
  | _, _, _ => Some (false, map)
  end.

(** ** The solving session *)

Definition INCREMENT_POSSIBLES_SIZE : Z := 10.

(** The globals the solvers write: the answers found so far
    ([plainTextCnt] is the length of [plainText]) and the recorded capacity
    of their array. [ticks] counts the calls of [time(NULL)] made so far, and
    [candidateTests] is a trace: the number of candidates the word block
    attack has tested against a legend. *)
Record solver_state := {
  plainText : list cstring;
  plainTextMaxCnt : Z;
  ticks : nat;
  candidateTests : nat
}.

(** [strcmp] on character buffers; the end of the list is the NUL. *)
Fixpoint strcmp (a b : list Z) : Z :=
  match a, b with
  | x :: a', y :: b' =>
      if negb (x =? y) then x mod 256 - y mod 256
      else if x =? 0 then 0
      else strcmp a' b'
  | x :: _, [] => x mod 256
  | [], y :: _ => - (y mod 256)
  | [], [] => 0
  end.

(** The scan of the answers for [decoded] (lines 1970-1974 and 2083-2087):
    the final [newPlainText]. *)
Fixpoint is_new_plainText (decoded : cstring) (answers : list cstring) : bool :=
  match answers with
  | [] => true
  | a :: rest =>
      if strcmp decoded a =? 0 then false else is_new_plainText decoded rest
  end.

(** [plainText[plainTextCnt++] = decoded], after growing the array when it
    is full (lines 1977-2016 and 2090-2126). *)
Definition save_plainText (decoded : cstring) (st : solver_state) : solver_state :=
  {| plainText := plainText st ++ [decoded];
     plainTextMaxCnt :=
       if Z.of_nat (length (plainText st)) =? plainTextMaxCnt st
       then plainTextMaxCnt st + INCREMENT_POSSIBLES_SIZE
       else plainTextMaxCnt st;
     ticks := ticks st;
     candidateTests := candidateTests st |}.

(** The conversion of a [time_t] value to [int], a signed 32-bit integer
    ([int startTime = time(NULL)], line 2042, and the assignment to
    [remainingSec], line 2149). The arithmetic on [time_t] itself is that of
    [Z]. *)
Definition to_int (z : Z) : Z := (z + 2147483648) mod 4294967296 - 2147483648.

Definition tick (st : solver_state) : solver_state :=
  {| plainText := plainText st; plainTextMaxCnt := plainTextMaxCnt st;
     ticks := S (ticks st); candidateTests := candidateTests st |}.

Definition count_test (st : solver_state) : solver_state :=
  {| plainText := plainText st; plainTextMaxCnt := plainTextMaxCnt st;
     ticks := ticks st; candidateTests := S (candidateTests st) |}.

Section Solver.

(** The globals the solvers only read: the cypherwords ([wordCount] is
    their number) and the cyphertext, which [main] has checked to be
    non-NULL before a solver runs. [wall_clock n] is the value of the
    n-th call of [time(NULL)]. *)
Variable words : list cypherword.
Variable initialCyphertext : cstring.
Variable wall_clock : nat -> Z.

Definition wordCount : Z := Z.of_nat (length words).

Definition word_at (i : Z) : option cypherword :=
  if (0 <=? i) && (i <? wordCount) then words !! Z.to_nat i else None.

Definition time (st : solver_state) : Z * solver_state :=
  (wall_clock (ticks st), tick st).

(** *** Frequency attack: testing one legend *)

(** The loop over the cypherwords (lines 1942-1950): the final [hits] and
    [missed]. *)
Fixpoint count_hits (map : option legend) (ws : list cypherword)
    (hits : Z) (missed : bool) : Z * bool :=
  match ws with
  | [] => (hits, missed)
  | w :: rest =>
      if IsCypherwordDecryptedByLegend (Some w) map
      then count_hits map rest (hits + 1) missed
      else count_hits map rest hits true
  end.

(** [TestFreqAttackLegend], lines 1922-2021. *)
Definition TestFreqAttackLegend (map : option legend) (st : solver_state)
  : solver_state :=
  match map with
  | None => st
  | Some _ =>
      let '(hits, missed) := count_hits map words 0 false in
      if (0 <? hits) || negb missed then
        match CypherToPlainString map (Some initialCyphertext) with
        | None => st
        | Some decoded =>
            if is_new_plainText decoded (plainText st)
            then save_plainText decoded st
            else st
        end
      else st
  end.

(** *** Word block attack *)

(** The loop over the possibles of one cypherword (lines 2060-2197).
    [deeper] is the recursive call on the next cypherword. The result is
    the final [error], the legend behind the caller's [map] pointer, and
    the globals. *)
Fixpoint word_block_loop
    (deeper : option legend -> Z -> solver_state ->
              option (bool * option legend * solver_state))
    (cypherwordIndex : Z) (cw : cstring) (startTime maxSec : Z)
    (possibles : list cstring) (map : option legend) (st : solver_state)
    : option (bool * option legend * solver_state) :=
  match possibles with
  | [] => Some (false, map, st)
  | cand :: rest =>
      let st1 := count_test st in
      (* the body yields: error, whether it left by [break], map, globals *)
      let body : option (bool * bool * option legend * solver_state) :=
        if CanCypherAndLegendMakePlain (Some cw) map (Some cand) false then
          if cypherwordIndex =? wordCount - 1 then
            match IncorporateCypherToPlainMapInLegend (Some cw) (Some cand) map with
            | None => None
            | Some (true, map') =>
                match CypherToPlainString map' (Some initialCyphertext) with
                | None => Some (true, false, map', st1)
                | Some decoded =>
                    Some (false, false, map',
                          if is_new_plainText decoded (plainText st1)
                          then save_plainText decoded st1 else st1)
                end
            | Some (false, map') => Some (false, false, map', st1)
            end
          else
            let '(now, st2) := time st1 in
            let remainingSec := to_int (maxSec - (now - startTime)) in
            if remainingSec <=? 0 then Some (true, true, map, st2)
            else
              match DuplicateLegend map with
              | None => Some (true, true, map, st2)
              | Some nextGenMap =>
                  match IncorporateCypherToPlainMapInLegend
                          (Some cw) (Some cand) (Some nextGenMap) with
                  | None => None
                  | Some (true, nextGenMap') =>
                      match deeper nextGenMap' remainingSec st2 with
                      | None => None
                      | Some (_, _, st3) => Some (false, false, map, st3)
                      end
                  | Some (false, _) => Some (false, false, map, st2)
                  end
              end
        else Some (false, false, map, st1) in
      match body with
      | None => None
      | Some (error, true, map', st') => Some (error, map', st')
      | Some (error, false, map', st') =>
          let '(now, st'') := time st' in
          let error' := if (now - startTime) >=? maxSec then true else error in
          if error' then Some (true, map', st'')
          else word_block_loop deeper cypherwordIndex cw startTime maxSec rest map' st''
      end
  end.

(** [DoWordBlockAttack], lines 2040-2201. The recursion goes one cypherword
    deeper at each call; [fuel] bounds its depth. The result is the returned BOOL, the legend behind the
    caller's pointer after the call, and the globals. *)
Fixpoint DoWordBlockAttack_depth (fuel : nat) (cypherwordIndex : Z)
    (map : option legend) (maxSec : Z) (st : solver_state)
    : option (bool * option legend * solver_state) :=
  match fuel with
  | O => None
  | S fuel' =>
      let '(now, st0) := time st in
      let startTime := to_int now in
      if maxSec <=? 0 then Some (false, map, st0)
      else
        match word_at cypherwordIndex with
        | None => None
        | Some w =>
            match word_block_loop (DoWordBlockAttack_depth fuel' (cypherwordIndex + 1))
                    cypherwordIndex (cyphertext w) startTime maxSec
                    (possiblePlaintext w) map st0 with
            | None => None
            | Some (error, map', st') => Some (negb error, map', st')
            end
        end
  end.

(** No call goes deeper than the number of cypherwords. *)
Definition DoWordBlockAttack (cypherwordIndex : Z) (map : option legend)
    (maxSec : Z) (st : solver_state)
    : option (bool * option legend * solver_state) :=
  DoWordBlockAttack_depth (S (length words)) cypherwordIndex map maxSec st.

End Solver.

(** ** Notions the properties are stated with *)

(** No value of the class [P] sits in two slots of the legend. *)
Definition no_shared_plain (P : Z -> bool) (m : legend) : Prop :=
  forall i j x, m !! i = Some x -> m !! j = Some x -> P x = true -> i = j.

(** No letter sits in two slots of the legend, the slot values compared as
    chars: an upper-case letter and its lower-case form are two values
    here. This is the comparison that the scans of
    [IncorporateCypherToPlainMapInLegend] and [PlainToCypherChar] make. *)
Definition legend_injective (m : legend) : Prop := no_shared_plain isalpha m.

(** No plain letter occupies two cypher slots, the legend being
    case-insensitive: no two slots hold the same letter, up to case. *)
Definition legend_injective_nocase (m : legend) : Prop :=
  forall i j x y, m !! i = Some x -> m !! j = Some y ->
                  isalpha x = true -> tolower x = tolower y -> i = j.

(** No slot of the legend holds an upper-case letter. *)
Definition lower_case_legend (m : legend) : Prop :=
  Forall (fun v => isupper v = false) m.

(** A sequence of calls of [IncorporateCypherToPlainMapInLegend] on one
    legend, each given as its cyphertext and plaintext: [Some] of the
    resulting legend when every call returns success. *)
Fixpoint incorporate_all (calls : list (cstring * cstring)) (m : legend)
  : option legend :=
  match calls with
  | [] => Some m
  | (c, p) :: rest =>
      match IncorporateCypherToPlainMapInLegend (Some c) (Some p) (Some m) with
      | Some (true, Some m') => incorporate_all rest m'
      | _ => None
      end
  end.


(** The lower-case alphabet, [a] to [z]. *)
Definition alphabet : list Z := List.map (fun i => 97 + Z.of_nat i) (seq 0 26).

(** The 26 slots hold the 26 lower-case letters, each of them once. *)
Definition legend_bijective (m : legend) : Prop :=
  length m = 26%nat /\ NoDup m /\ Forall (fun v => islower v = true) m.

(** The legend [a=b, b=c, ..., y=z, z=a]. *)
Definition shift_legend : legend := List.map (fun i => 97 + (Z.of_nat i + 1) mod 26) (seq 0 26).


(** What the legend makes of a cypher character: a letter goes through its
    slot, which may be unassigned ([None]); any other character passes
    through unchanged. *)
Definition legend_image (m : legend) (c : Z) : option Z :=
  if isalpha c
  then (let v := m !!! Z.to_nat (tolower c - 97) in
        if v =? 0 then None else Some v)
  else Some c.

(** Where the cypher character [c] has an image, a letter through its
    assigned slot and any other character as itself, that image is the
    plaintext character [p], up to case. *)
Definition image_agrees (m : legend) (c p : Z) : Prop :=
  forall q, legend_image m c = Some q -> tolower q = tolower p.

(** The plain character the legend maps the cypher character to. The legend
    maps the letters whose slot is assigned, each to the value of its slot,
    and no other character. *)
Definition legend_maps (m : legend) (c : Z) : option Z :=
  if isalpha c
  then (let v := m !!! Z.to_nat (tolower c - 97) in
        if v =? 0 then None else Some v)
  else None.

(** No position whose cypher character the legend maps disagrees, up to
    case, with the plaintext character there. *)
Definition no_mapped_disagrees (m : legend) (cyphertext plaintext : cstring) : Prop :=
  forall i c p q, cyphertext !! i = Some c -> plaintext !! i = Some p ->
                  legend_maps m c = Some q -> tolower q = tolower p.

(** Every cypher character that is not a letter is the plaintext character
    at its position. *)
Definition non_letters_kept (cyphertext plaintext : cstring) : Prop :=
  forall i c p, cyphertext !! i = Some c -> plaintext !! i = Some p ->
                isalpha c = false -> p = c.


(** The legend fully decodes the cypherword into one of its candidates. *)
Definition decrypts (m : legend) (w : cypherword) : Prop :=
  exists p, p ∈ possiblePlaintext w
            /\ CanCypherAndLegendMakePlain (Some (cyphertext w)) (Some m) (Some p) true = true.

(** The text [decoded] is among the answers, by [strcmp]. *)
Definition already_found (decoded : cstring) (answers : list cstring) : Prop :=
  exists e, e ∈ answers /\ strcmp decoded e = 0.

(** ** Inputs used in the examples *)

(** The user's hint [c=t], as [main] builds it. *)
Definition hint_c_t : legend := <[2%nat := 116]> (replicate 26 0).

(** The globals before any answer is found. *)
Definition no_answers : solver_state :=
  {| plainText := []; plainTextMaxCnt := 0; ticks := 0; candidateTests := 0 |}.

(** The cypherword [ab] with the dictionary words [it] and [an]. *)
Definition word_ab : cypherword :=
  {| cyphertext := chars "ab"; possiblePlaintext := [chars "it"; chars "an"] |}.

(** The user's hint [a=T]: [main] stores the plain character as typed. *)
Definition hint_a_T : legend := <[0%nat := 84]> (replicate 26 0).

(** The cypherword [bc] with the dictionary word [to]. *)
Definition word_bc : cypherword :=
  {| cyphertext := chars "bc"; possiblePlaintext := [chars "to"] |}.

(** The cypherword [ab] with the dictionary words [is] and [an]. *)
Definition word_is_an : cypherword :=
  {| cyphertext := chars "ab"; possiblePlaintext := [chars "is"; chars "an"] |}.

(** The globals after the answer [an an] has been found. *)
Definition found_an_an : solver_state :=
  {| plainText := [chars "an an"]; plainTextMaxCnt := 10; ticks := 0;
     candidateTests := 0 |}.


(** ** Building the cypherwords' candidate lists *)

(** [CreateCypherword], lines 492-558: a cypherword with no candidate. *)
Definition CreateCypherword (str : option cstring) : option cypherword :=
  match str with
  | None => None
  | Some s => Some {| cyphertext := s; possiblePlaintext := [] |}
  end.

(** [CheckCypherwordForPossiblePlaintext], lines 621-709: the returned BOOL
    and the cypherword behind the pointer after the call. *)
Definition CheckCypherwordForPossiblePlaintext (word : option cypherword)
    (str : option cstring) : bool * option cypherword :=
  match word, str with
  | Some w, Some s =>
      if negb (DoPatternsMatch (Some (cyphertext w)) (Some s)) then (true, word)
      else (true, Some {| cyphertext := cyphertext w;
                          possiblePlaintext := possiblePlaintext w ++ [s] |})
  | _, _ => (false, word)
  end.

(** The loop of [ReadAndProcessPlaintextFile] that offers one word of the
    file to every cypherword (lines 1189-1197): the final [error] and the
    cypherwords. *)
Fixpoint offer_word (str : cstring) (ws : list cypherword) : bool * list cypherword :=
  match ws with
  | [] => (false, [])
  | w :: rest =>
      let '(ok, w') := CheckCypherwordForPossiblePlaintext (Some w) (Some str) in
      let '(error, rest') := offer_word str rest in
      (negb ok || error, match w' with Some w1 => w1 :: rest' | None => rest' end)
  end.

(** The words of the file offered one after the other, as the reading loop
    does while no error has occurred (lines 1173-1198). *)
Fixpoint offer_words (dictionary : list cstring) (ws : list cypherword)
  : bool * list cypherword :=
  match dictionary with
  | [] => (false, ws)
  | str :: rest =>
      let '(error, ws') := offer_word str ws in
      if error then (true, ws') else offer_words rest ws'
  end.

(** The candidates a dictionary holds for a cyphertext, in dictionary order. *)
Definition candidates_of (c : cstring) (dictionary : list cstring) : list cstring :=
  List.filter (fun s => DoPatternsMatch (Some c) (Some s)) dictionary.

(** Two texts repeat their characters at the same pairs of positions. *)
Definition same_shape (x y : cstring) : Prop :=
  forall i j xi xj yi yj,
    x !! i = Some xi -> x !! j = Some xj ->
    y !! i = Some yi -> y !! j = Some yj ->
    (xi = xj <-> yi = yj).


(** [DoesLegendEqualLegend], lines 858-886. A NULL argument sets [error]
    only, and the routine returns [isEqual], still YES. *)
Definition DoesLegendEqualLegend (a b : option legend) : bool :=
  match a, b with
  | Some x, Some y => forallb (fun i => x !!! i =? y !!! i) (seq 0 26)
  | _, _ => true
  end.


(** The legend decodes the cypher character [c] to the plaintext character
    [p], up to case: [c] has an image, and it is [p]. *)
Definition decodes_at (m : legend) (c p : Z) : Prop :=
  exists q, legend_image m c = Some q /\ tolower q = tolower p.

(** What a successful incorporation leaves at one position: the two
    characters are both punctuation, or neither is and the slot of the
    cypher character holds the plaintext character in lower case. *)
Definition written_at (m : legend) (c p : Z) : Prop :=
  (ispunct (tolower c) = true /\ ispunct (tolower p) = true)
  \/ (ispunct (tolower c) = false /\ ispunct (tolower p) = false
      /\ slot m (tolower c - 97) = Some (tolower p)).

(** A string of characters, none of them the NUL. *)
Definition text_ok (s : cstring) : bool :=
  forallb (fun c => is_char c && negb (c =? 0)) s.


(** No two answers carry the same text: a later answer never compares
    equal, by [strcmp], to an earlier one. *)
Definition distinct_answers (l : list cstring) : Prop :=
  forall i j a b, (i < j)%nat -> l !! i = Some a -> l !! j = Some b -> strcmp b a <> 0.


(** The legend [m'] has the slots of [m] and more: the same number of
    slots, and every assigned slot of [m] with the same value. *)
Definition extends (m m' : legend) : Prop :=
  length m' = length m
  /\ forall k v, m !! k = Some v -> v <> 0 -> m' !! k = Some v.

(** Every cyphertext is a C string and every candidate a string of
    characters without a NUL. *)
Definition words_ok (words : list cypherword) : bool :=
  forallb (fun w => cstring_ok (cyphertext w) && forallb text_ok (possiblePlaintext w))
          words.

(** The text [e] is an answer for the cypherwords from [index] on that
    respects the legend [m]: the decoding of the whole cyphertext by a legend
    that extends [m] and completely decodes each of those cypherwords to
    one of its candidates. *)
Definition is_answer (words : list cypherword) (initialCyphertext : cstring)
    (index : Z) (m : legend) (e : cstring) : Prop :=
  exists m',
    legend_ok m' = true
    /\ extends m m'
    /\ (forall k w, index <= k -> word_at words k = Some w -> decrypts m' w)
    /\ CypherToPlainString (Some m') (Some initialCyphertext) = Some e.


(** ** Making a puzzle: the encrypting legend *)

(** [t = map[ib]; map[ib] = map[ia]; map[ia] = t], as [EncryptPlaintext]
    does it at lines 1270-1272 and 1284-1286. *)
Definition swap_slots (m : legend) (ia ib : nat) : legend :=
  let t := m !!! ib in
  <[ia := t]> (<[ib := m !!! ia]> m).

(** The 1:1 legend of lines 1241-1258: [CreateLegend('a', 'a')] and then
    [map[c - 'a'] = c] for [c] from ['b'] to ['z']. *)
Definition one_to_one_legend : option legend :=
  match CreateLegend 97 97 with
  | None => None
  | Some m => Some (fold_left (fun d i => <[i := 97 + Z.of_nat i]> d) (seq 1 25) m)
  end.

Section Encrypt.

(** [rand_r] returns an [int] between 0 and [RAND_MAX]; [rnd n] is the
    value of its n-th call. *)
Variable rnd : nat -> nat.

(** The scrambling loop of lines 1266-1273, [count] swaps from the [n]-th
    random number on: the legend and the number of random numbers used. *)
Fixpoint scramble (count : nat) (n : nat) (m : legend) : legend * nat :=
  match count with
  | O => (m, n)
  | S count' =>
      let ia := (rnd n mod 26)%nat in
      let ib := ((ia + rnd (S n) mod 26) mod 26)%nat in
      scramble count' (S (S n)) (swap_slots m ia ib)
  end.

(** The integrity loop of lines 1276-1288, for the [count] slots from [i]
    on: a slot that holds its own letter is swapped with another one. *)
Fixpoint unfix_slots (count : nat) (i : nat) (n : nat) (m : legend) : legend * nat :=
  match count with
  | O => (m, n)
  | S count' =>
      if m !!! i =? 97 + Z.of_nat i then
        let ib := ((i + rnd n mod 26) mod 26)%nat in
        let ib := if (i =? ib)%nat then ((i + 1) mod 26)%nat else ib in
        unfix_slots count' (S i) (S n) (swap_slots m i ib)
      else unfix_slots count' (S i) n m
  end.

(** [EncryptPlaintext], lines 1219-1343, up to the encrypted string: the
    string it prints and the legend it has generated. The choice of the
    hint that is printed next (lines 1328-1333) is left out. *)
Definition EncryptPlaintext (text : option cstring) (n : nat)
  : option (cstring * legend) :=
  match text with
  | None => None
  | Some _ =>
      match one_to_one_legend with
      | None => None
      | Some m0 =>
          let '(m1, n1) := scramble 500 n m0 in
          let '(encryptingLegend, _) := unfix_slots 26 0 n1 m1 in
          match PlainToCypherString (Some encryptingLegend) text with
          | None => None
          | Some encrypted => Some (encrypted, encryptingLegend)
          end
      end
  end.

End Encrypt.

(** No slot of the legend before slot [i] holds its own letter. *)
Definition no_own_letter_before (i : nat) (m : legend) : Prop :=
  forall k, (k < i)%nat -> m !! k <> Some (97 + Z.of_nat k).


(** ** Counting character frequencies *)

(** [characterFrequencyData_t]: the 26 rows of [crossMatch], one for each
    cypher letter, and the two vectors of counts ([plaintext] and
    [cyphertext] in the source). *)
Record characterFrequencyData := {
  crossMatch : list (list Z);
  plaintextCount : list Z;
  cyphertextCount : list Z
}.

(** The cleared bins of lines 1591-1601. *)
Definition cleared_counts : characterFrequencyData :=
  {| crossMatch := replicate 26 (replicate 26 0);
     plaintextCount := replicate 26 0;
     cyphertextCount := replicate 26 0 |}.

(** [bins[k]++] on an array of 26 bins, for an [int] index [k]. *)
Definition bump (bins : list Z) (k : Z) : option (list Z) :=
  match slot bins k with
  | None => None
  | Some v => Some (<[Z.to_nat k := v + 1]> bins)
  end.

(** [crossMatch[i][j]++]. *)
Definition bump_cross (rows : list (list Z)) (i j : Z) : option (list (list Z)) :=
  if (0 <=? i) && (i <? 26) then
    match rows !! Z.to_nat i with
    | None => None
    | Some row =>
        match bump row j with
        | None => None
        | Some row' => Some (<[Z.to_nat i := row']> rows)
        end
    end
  else None.

(** The test of lines 1624-1634: the final [countWord] for one possible
    plaintext of a cypherword. *)
Fixpoint legend_allows (map : option legend) (cs ps : cstring) : bool :=
  match map with
  | None => true
  | Some _ =>
      match cs, ps with
      | c :: cs', p :: ps' =>
          let ptc := CypherToPlainChar map c in
          if negb (ptc =? 0) && negb (tolower ptc =? tolower p) then false
          else legend_allows map cs' ps'
      | _, _ => true
      end
  end.

(** The tally of lines 1638-1644 for one possible plaintext. *)
Fixpoint tally (cs ps : cstring) (data : characterFrequencyData)
  : option characterFrequencyData :=
  match cs, ps with
  | c :: cs', p :: ps' =>
      if isalpha c then
        match bump (plaintextCount data) (tolower p - 97),
              bump (cyphertextCount data) (tolower c - 97),
              bump_cross (crossMatch data) (tolower c - 97) (tolower p - 97) with
        | Some pt, Some ct, Some cm =>
            tally cs' ps' {| crossMatch := cm; plaintextCount := pt; cyphertextCount := ct |}
        | _, _, _ => None
        end
      else tally cs' ps' data
  | _, _ => Some data
  end.

(** The loop over the possible plaintexts of one cypherword
    (lines 1617-1646). *)
Fixpoint tally_possibles (map : option legend) (c : cstring) (possibles : list cstring)
    (data : characterFrequencyData) : option characterFrequencyData :=
  match possibles with
  | [] => Some data
  | p :: rest =>
      if legend_allows map c p then
        match tally c p data with
        | None => None
        | Some data' => tally_possibles map c rest data'
        end
      else tally_possibles map c rest data
  end.

(** The loop over the cypherwords (lines 1615-1647). *)
Fixpoint tally_words (map : option legend) (ws : list cypherword)
    (data : characterFrequencyData) : option characterFrequencyData :=
  match ws with
  | [] => Some data
  | w :: rest =>
      match tally_possibles map (cyphertext w) (possiblePlaintext w) data with
      | None => None
      | Some data' => tally_words map rest data'
      end
  end.

(** [GenerateCharacterCountsWithLegend], lines 1562-1658. The outer [option]
    is [None] for an access outside the bins; the inner one is the returned
    pointer, NULL when there is no cypherword. *)
Definition GenerateCharacterCountsWithLegend (words : list cypherword)
    (map : option legend) : option (option characterFrequencyData) :=
  match words with
  | [] => Some None
  | _ =>
      match tally_words map words cleared_counts with
      | None => None
      | Some data => Some (Some data)
      end
  end.

(** The candidate [ps] has the length of the cyphertext [cs] and holds a
    letter wherever the cyphertext does. *)
Fixpoint letters_for_letters (cs ps : cstring) : bool :=
  match cs, ps with
  | c :: cs', p :: ps' => (negb (isalpha c) || isalpha p) && letters_for_letters cs' ps'
  | [], [] => true
  | _, _ => false
  end.

(** The sum of the counts of an array of bins. *)
Definition total (bins : list Z) : Z := fold_right Z.add 0 bins.

(** The counts are consistent: 26 rows of 26 bins, each row of
    [crossMatch] adding up to the count of its cypher letter, and as many
    plaintext characters counted as cyphertext characters. *)
Definition counts_consistent (data : characterFrequencyData) : Prop :=
  length (crossMatch data) = 26%nat
  /\ length (cyphertextCount data) = 26%nat
  /\ length (plaintextCount data) = 26%nat
  /\ (forall i row, crossMatch data !! i = Some row ->
        length row = 26%nat /\ cyphertextCount data !! i = Some (total row))
  /\ total (plaintextCount data) = total (cyphertextCount data).


(** ** Splitting the cyphertext into cypherwords *)

(** [isspace] in the C locale. *)
Definition isspace (c : Z) : bool := (c =? 32) || ((9 <=? c) && (c <=? 13)).

(** [while ((isspace(text[i]) || ispunct(text[i])) && (i < len)) i++]: the
    text from the position the loop stops at. *)
Fixpoint skip_separators (text : cstring) : cstring :=
  match text with
  | c :: rest => if isspace c || ispunct c then skip_separators rest else text
  | [] => []
  end.

(** [while (P(text[i]) && (i < len)) i++]: the characters passed and the
    text from the position the loop stops at. *)
Fixpoint take_while (P : Z -> bool) (text : cstring) : cstring * cstring :=
  match text with
  | c :: rest =>
      if P c then let '(word, rest') := take_while P rest in (c :: word, rest')
      else ([], text)
  | [] => ([], [])
  end.

(** The counting loop of [CreateCypherwordsFromCyphertext] (lines 1437-1454)
    on the text from position [i] on: the final [wordCount]. An iteration
    that does not advance [i] repeats for ever; [fuel] bounds the number of
    iterations and [None] stands for a loop that does not end. *)
Fixpoint count_words (fuel : nat) (text : cstring) (wordCount : Z) : option Z :=
  match text with
  | [] => Some wordCount
  | _ :: _ =>
      match fuel with
      | O => None
      | S fuel' =>
          let '(token, rest) :=
            take_while (fun c => isalpha c || ispunct c) (skip_separators text) in
          count_words fuel' rest
            (match token with [] => wordCount | _ :: _ => wordCount + 1 end)
      end
  end.

(** The loop that makes the cypherwords (lines 1497-1528): [!error] and the
    array [words], of which [w] entries are filled. The array has
    [wordCount] entries; [None] also stands for a write past its end. *)
Fixpoint create_words (fuel : nat) (text : cstring) (wordCount w : Z)
    (words : list cypherword) : option (bool * list cypherword) :=
  match text with
  | [] => Some (true, words)
  | _ :: _ =>
      match fuel with
      | O => None
      | S fuel' =>
          let '(word, rest) :=
            take_while (fun c => isalpha c || (c =? 39)) (skip_separators text) in
          match word with
          | [] => create_words fuel' rest wordCount w words
          | _ :: _ =>
              if w <? wordCount then
                match CreateCypherword (Some word) with
                | None => Some (false, words)
                | Some cw => create_words fuel' rest wordCount (w + 1) (words ++ [cw])
                end
              else None
          end
      end
  end.

(** [CreateCypherwordsFromCyphertext], lines 1351-1537: the returned BOOL
    and the global [words] after the call, [old] being the cypherwords
    before it. *)
Definition CreateCypherwordsFromCyphertext (text : option cstring)
    (old : list cypherword) : option (bool * list cypherword) :=
  match text with
  | None => Some (false, old)
  | Some t =>
      if negb (forallb (fun c => isspace c || isalpha c || ispunct c) t)
      then Some (false, old)
      else
        match count_words (length t) t 0 with
        | None => None
        | Some wordCount =>
            if wordCount =? 0 then Some (false, [])
            else create_words (length t) t wordCount 0 []
        end
  end.

(** A cypherword as the splitting makes it: no candidate yet, and a
    cyphertext of letters and apostrophes that starts with a letter. *)
Definition fresh_cypherword (w : cypherword) : Prop :=
  possiblePlaintext w = []
  /\ (exists c rest, cyphertext w = c :: rest /\ isalpha c = true)
  /\ forallb (fun c => isalpha c || (c =? 39)) (cyphertext w) = true.


(** A text of letters, white space and apostrophes. *)
Definition plain_quip (text : cstring) : bool :=
  forallb (fun c => isspace c || isalpha c || (c =? 39)) text.


(** ** The frequency attack: ranking the plaintext characters *)

(** The inner loop of the sort of [DoFrequencyAttack] (lines 1785-1796, j
    from i+1): the entry at position [i], a plaintext character with its
    number of hits, is exchanged with every later entry that has more hits.
    The result is the entry left at position [i] and the later entries. *)
Fixpoint exchange_pass (x : Z * Z) (later : list (Z * Z)) : (Z * Z) * list (Z * Z) :=
  match later with
  | [] => (x, [])
  | y :: rest =>
      if snd x <? snd y
      then let '(x', rest') := exchange_pass y rest in (x', x :: rest')
      else let '(x', rest') := exchange_pass x rest in (x', y :: rest')
  end.

(** The outer loop (line 1784), [n] positions from the head of [row] on. *)
Fixpoint exchange_sort (n : nat) (row : list (Z * Z)) : list (Z * Z) :=
  match n with
  | O => row
  | S n' =>
      match row with
      | [] => []
      | x :: later =>
          let '(x', later') := exchange_pass x later in
          x' :: exchange_sort n' later'
      end
  end.

(** The copy of a line of the histogram (lines 1769-1776): the entries
    [(i + 'a', crossMatch[cc][i])] and the number of them with a hit. *)
Fixpoint copy_line (i : Z) (line : list Z) : list (Z * Z) * Z :=
  match line with
  | [] => ([], 0)
  | hits :: rest =>
      let '(entries, count) := copy_line (i + 1) rest in
      ((i + 97, hits) :: entries, if 0 <? hits then count + 1 else count)
  end.

(** What [DoFrequencyAttack] leaves in [possibleChar[cc]] and
    [possibleCharHitCnt[cc]], as a list of pairs, and in
    [possibleCharCount[cc]], for one line of the histogram
    (lines 1764-1799). *)
Definition rank_line (line : list Z) : list (Z * Z) * Z :=
  let '(entries, count) := copy_line 0 line in
  (if 0 <? count then exchange_sort 26 entries else entries, count).

(** The entries are in the order of their hits, most hits first. *)
Definition most_hits_first (l : list (Z * Z)) : Prop :=
  forall i j a b, (i < j)%nat -> l !! i = Some a -> l !! j = Some b -> snd b <= snd a.

(** A line of the histogram with five hits for [t] and two for [e]. *)
Definition hits_e_t : list Z := <[4%nat := 2]> (<[19%nat := 5]> (replicate 26 0)).

(** * Properties *)

(** ** Characters *)

(** Case analysis on the comparisons behind the <ctype.h> predicates. *)
Ltac ctype :=
  unfold tolower, isalpha, ispunct, islower, isupper, is_char in *;
  repeat match goal with
         | |- context [?a <=? ?b] => destruct (Z.leb_spec a b)
         | H : context [?a <=? ?b] |- _ => destruct (Z.leb_spec a b)
         end;
  simpl in *; try lia; try congruence.

Lemma tolower_not_upper c : isupper (tolower c) = false.
Proof. ctype. Qed.

Lemma tolower_idem c : tolower (tolower c) = tolower c.
Proof. unfold tolower at 1. now rewrite tolower_not_upper. Qed.

Lemma islower_tolower c : islower (tolower c) = isalpha c.
Proof. ctype. Qed.

Lemma to_char_id z : is_char z = true -> to_char z = z.
Proof.
  intros H. unfold to_char. rewrite Z.mod_small; ctype.
Qed.

(** ** The pattern matcher *)

Lemma pattern_clash_sym a b cs ps :
  pattern_clash a b cs ps = pattern_clash b a ps cs.
Proof.
  revert ps. induction cs as [|c cs IH]; intros [|p ps]; simpl; try reflexivity.
  rewrite IH. now rewrite orb_comm.
Qed.

Lemma pattern_loop_sym cs ps : pattern_loop cs ps = pattern_loop ps cs.
Proof.
  revert ps. induction cs as [|c cs IH]; intros [|p ps]; simpl; try reflexivity.
  now rewrite pattern_clash_sym, IH.
Qed.

(** C7. The pattern matcher gives the same answer when its two arguments
    are exchanged: [DoPatternsMatch x y] equals [DoPatternsMatch y x], for
    strings of equal length and, beyond that, for any two arguments. *)
Theorem DoPatternsMatch_symmetric (x y : option cstring) :
  DoPatternsMatch x y = DoPatternsMatch y x.
Proof.
  destruct x as [c|], y as [p|]; simpl; try reflexivity.
  rewrite (Nat.eqb_sym (length p)).
  destruct (length c =? length p)%nat; simpl; [apply pattern_loop_sym | reflexivity].
Qed.

(** C6, as stated, fails: two NULL arguments are reported as a match. *)
Lemma DoPatternsMatch_null_null :
  ~ (forall x y : option cstring,
       x = None \/ y = None
       \/ (exists a b, x = Some a /\ y = Some b /\ length a <> length b) ->
       DoPatternsMatch x y = false).
Proof.
  intros H. specialize (H None None (or_introl eq_refl)). discriminate H.
Qed.

(** C6, amended. If exactly one argument of the pattern matcher is NULL, or
    both are strings and their lengths differ, the result is no-match. *)
Theorem DoPatternsMatch_rejects (x y : option cstring) :
  (x = None /\ y <> None) \/ (x <> None /\ y = None)
  \/ (exists a b, x = Some a /\ y = Some b /\ length a <> length b) ->
  DoPatternsMatch x y = false.
Proof.
  intros [[-> Hy] | [[Hx ->] | (a & b & -> & -> & Hlen)]].
  - destruct y; [reflexivity | contradiction].
  - destruct x; [reflexivity | contradiction].
  - simpl. apply Nat.eqb_neq in Hlen. now rewrite Hlen.
Qed.

Lemma DoPatternsMatch_rejects_witness :
  DoPatternsMatch (Some (chars "xyx")) (Some (chars "dads")) = false.
Proof.
  apply DoPatternsMatch_rejects. right. right.
  exists (chars "xyx"), (chars "dads"). repeat split. vm_compute. lia.
Defined.

(** ** Reading a legend *)

Lemma CreateLegend_hint_c_t : CreateLegend 99 116 = Some hint_c_t.
Proof. reflexivity. Qed.

Lemma CypherToPlainChar_nonalpha (m : legend) c :
  isalpha c = false -> CypherToPlainChar (Some m) c = c.
Proof.
  intros H. unfold CypherToPlainChar.
  replace (isupper c) with false by ctype.
  now replace (islower c) with false by ctype.
Qed.

Lemma CypherToPlainChar_lower (m : legend) c :
  islower c = true ->
  CypherToPlainChar (Some m) c = to_char (m !!! Z.to_nat (c - 97) + 0).
Proof.
  intros H. unfold CypherToPlainChar.
  replace (isupper c) with false by ctype. now rewrite H.
Qed.

Lemma CypherToPlainChar_upper (m : legend) c :
  isupper c = true ->
  CypherToPlainChar (Some m) c = to_char (m !!! Z.to_nat (c + 32 - 97) + (65 - 97)).
Proof.
  intros H. unfold CypherToPlainChar, tolower. rewrite H.
  now replace (islower (c + 32)) with true by ctype.
Qed.

(** A lower-case letter whose slot is unassigned reads as the marker. *)
Lemma CypherToPlainChar_lower_unassigned (m : legend) c :
  islower c = true -> m !!! Z.to_nat (c - 97) = 0 ->
  CypherToPlainChar (Some m) c = 0.
Proof. intros H E. rewrite CypherToPlainChar_lower, E by assumption. reflexivity. Qed.

(** A letter whose slot holds a lower-case letter reads as that letter, in
    the case of the letter read. *)
Lemma CypherToPlainChar_assigned (m : legend) c v :
  isalpha c = true -> m !!! Z.to_nat (tolower c - 97) = v -> islower v = true ->
  CypherToPlainChar (Some m) c = if isupper c then v - 32 else v.
Proof.
  intros Ha Hv Hl. destruct (isupper c) eqn:Hup.
  - rewrite CypherToPlainChar_upper by exact Hup.
    unfold tolower in Hv. rewrite Hup in Hv. rewrite Hv.
    rewrite to_char_id by ctype. lia.
  - assert (islower c = true) as Hlow by (unfold isalpha in Ha; now rewrite Hup in Ha).
    rewrite CypherToPlainChar_lower by exact Hlow.
    unfold tolower in Hv. rewrite Hup in Hv. rewrite Hv, Z.add_0_r.
    apply to_char_id. ctype.
Qed.

(** A duplicate of a legend holds the same 26 slot values. *)
Lemma DuplicateLegend_copy (m : legend) :
  length m = 26%nat -> DuplicateLegend (Some m) = Some m.
Proof.
  intros H. do 27 (destruct m as [|? m]; try discriminate H). reflexivity.
Qed.

(** C5 fails on the code for an upper-case letter whose slot is unassigned:
    the case offset ['A' - 'a'] is added to the marker, so the routine
    returns -32 where the marker 0 is expected. Here the legend is the hint
    [c=t] and the character is ['A']. *)
Theorem CypherToPlainChar_upper_unassigned :
  hint_c_t !!! Z.to_nat (tolower 65 - 97) = 0
  /\ CypherToPlainChar (Some hint_c_t) 65 = -32.
Proof. split; reflexivity. Qed.

(** ** Extending a legend: the failure on unequal lengths *)

(** C10. When the two strings differ in length, the routine returns
    failure and the legend is exactly as before the call. *)
Theorem Incorporate_unequal_lengths (m : legend) (c p : cstring) :
  length c <> length p ->
  IncorporateCypherToPlainMapInLegend (Some c) (Some p) (Some m) = Some (false, Some m).
Proof.
  intros H. unfold IncorporateCypherToPlainMapInLegend.
  apply Nat.eqb_neq in H. now rewrite H.
Qed.

Lemma Incorporate_unequal_lengths_witness :
  length (chars "ab") <> length (chars "the")
  /\ IncorporateCypherToPlainMapInLegend
       (Some (chars "ab")) (Some (chars "the")) (Some hint_c_t)
     = Some (false, Some hint_c_t).
Proof.
  split; [vm_compute; lia |].
  apply (Incorporate_unequal_lengths hint_c_t (chars "ab") (chars "the")).
  vm_compute; lia.
Defined.

(** ** The word block attack *)

(** C9. With a time allotment of zero or less the attack returns failure
    at once: the legend is untouched, no candidate has been tested and the
    answers are as they were; only the clock has been read, once. *)
Theorem DoWordBlockAttack_no_time (words : list cypherword)
    (initialCyphertext : cstring) (wall_clock : nat -> Z)
    (cypherwordIndex : Z) (map : option legend) (maxSec : Z) (st : solver_state) :
  maxSec <= 0 ->
  exists st',
    DoWordBlockAttack words initialCyphertext wall_clock cypherwordIndex map maxSec st
      = Some (false, map, st')
    /\ candidateTests st' = candidateTests st
    /\ plainText st' = plainText st
    /\ plainTextMaxCnt st' = plainTextMaxCnt st.
Proof.
  intros H. exists (tick st). repeat split.
  unfold DoWordBlockAttack. simpl.
  apply Z.leb_le in H. now rewrite H.
Qed.

Lemma DoWordBlockAttack_no_time_witness :
  0 <= 0 /\
  exists st',
    DoWordBlockAttack [word_ab] (chars "ab") (fun _ => 0) 0 (Some hint_c_t) 0 no_answers
      = Some (false, Some hint_c_t, st')
    /\ candidateTests st' = candidateTests no_answers
    /\ plainText st' = plainText no_answers
    /\ plainTextMaxCnt st' = plainTextMaxCnt no_answers.
Proof.
  split; [lia |].
  apply (DoWordBlockAttack_no_time [word_ab] (chars "ab") (fun _ => 0) 0
           (Some hint_c_t) 0 no_answers).
  lia.
Defined.

(** The depth bound of [DoWordBlockAttack] is never the reason for a
    missing result: beyond the number of cypherwords still to visit, more
    fuel changes nothing. *)
Lemma word_block_loop_deeper_ext (words : list cypherword)
    (initialCyphertext : cstring) (wall_clock : nat -> Z) deeper1 deeper2
    (cypherwordIndex : Z) (cw : cstring) (startTime maxSec : Z)
    (possibles : list cstring) (map : option legend) (st : solver_state) :
  (cypherwordIndex <> wordCount words - 1 ->
   forall m t s, deeper1 m t s = deeper2 m t s) ->
  word_block_loop words initialCyphertext wall_clock deeper1 cypherwordIndex cw
    startTime maxSec possibles map st
  = word_block_loop words initialCyphertext wall_clock deeper2 cypherwordIndex cw
      startTime maxSec possibles map st.
Proof.
  intros Hext. revert map st.
  induction possibles as [|cand rest IH]; intros map st; cbn [word_block_loop];
    [reflexivity |].
  destruct (Z.eqb_spec cypherwordIndex (wordCount words - 1)) as [E | E].
  - destruct (CanCypherAndLegendMakePlain _ _ _ _).
    + destruct (IncorporateCypherToPlainMapInLegend _ _ _) as [[[|] map']|];
        [| | reflexivity].
      * destruct (CypherToPlainString _ _); unfold time;
          repeat (destruct (_ >=? _)); simpl; auto.
      * unfold time. destruct (_ >=? _); simpl; auto.
    + unfold time. destruct (_ >=? _); simpl; auto.
  - destruct (CanCypherAndLegendMakePlain _ _ _ _).
    + unfold time. destruct (_ <=? 0); [reflexivity |].
      destruct (DuplicateLegend map); [| reflexivity].
      destruct (IncorporateCypherToPlainMapInLegend _ _ _) as [[[|] map']|];
        [| | reflexivity].
      * rewrite Hext by exact E.
        destruct (deeper2 _ _ _) as [[[? ?] ?]|]; [| reflexivity].
        destruct (_ >=? _); simpl; auto.
      * destruct (_ >=? _); simpl; auto.
    + unfold time. destruct (_ >=? _); simpl; auto.
Qed.

Lemma DoWordBlockAttack_depth_enough (words : list cypherword)
    (initialCyphertext : cstring) (wall_clock : nat -> Z) (fuel : nat)
    (cypherwordIndex : Z) (map : option legend) (maxSec : Z) (st : solver_state) :
  (1 <= fuel)%nat -> wordCount words - cypherwordIndex <= Z.of_nat fuel ->
  DoWordBlockAttack_depth words initialCyphertext wall_clock (S fuel)
    cypherwordIndex map maxSec st
  = DoWordBlockAttack_depth words initialCyphertext wall_clock fuel
      cypherwordIndex map maxSec st.
Proof.
  revert cypherwordIndex map maxSec st.
  induction fuel as [|fuel IH]; intros idx map maxSec st Hf Hidx; [lia |].
  cbn [DoWordBlockAttack_depth]. unfold time.
  destruct (maxSec <=? 0); [reflexivity |].
  destruct (word_at words idx) as [w|] eqn:Hw; [| reflexivity].
  rewrite (word_block_loop_deeper_ext words initialCyphertext wall_clock
             (DoWordBlockAttack_depth words initialCyphertext wall_clock (S fuel) (idx + 1))
             (DoWordBlockAttack_depth words initialCyphertext wall_clock fuel (idx + 1)));
    [reflexivity |].
  intros Hlast m t s. unfold word_at in Hw.
  destruct ((0 <=? idx) && (idx <? wordCount words)) eqn:Hin; [| discriminate].
  apply andb_prop in Hin as [_ Hlt]. apply Z.ltb_lt in Hlt.
  apply IH; lia.
Qed.

(** Before the last cypherword every extension goes into a duplicate, and
    the caller's legend comes back as it was. *)
Lemma word_block_loop_inner_frame (words : list cypherword)
    (initialCyphertext : cstring) (wall_clock : nat -> Z) deeper
    (cypherwordIndex : Z) (cw : cstring) (startTime maxSec : Z)
    (possibles : list cstring) (map map' : option legend) (st st' : solver_state) error :
  cypherwordIndex <> wordCount words - 1 ->
  word_block_loop words initialCyphertext wall_clock deeper cypherwordIndex cw
    startTime maxSec possibles map st = Some (error, map', st') ->
  map' = map.
Proof.
  intros Hidx. apply Z.eqb_neq in Hidx.
  revert st. induction possibles as [|cand rest IH]; intros st; cbn [word_block_loop].
  - now intros [= _ <- _].
  - rewrite Hidx. unfold time.
    destruct (CanCypherAndLegendMakePlain _ _ _ _).
    + destruct (_ <=? 0); [now intros [= _ <- _] |].
      destruct (DuplicateLegend map) as [nextGenMap|]; [| now intros [= _ <- _]].
      destruct (IncorporateCypherToPlainMapInLegend _ _ _) as [[[|] nextGenMap']|];
        [| | discriminate].
      * destruct (deeper _ _ _) as [[[? ?] st3]|]; [| discriminate].
        destruct (_ >=? _); [now intros [= _ <- _] | apply IH].
      * destruct (_ >=? _); [now intros [= _ <- _] | apply IH].
    + destruct (_ >=? _); [now intros [= _ <- _] | apply IH].
Qed.

Lemma DoWordBlockAttack_inner_frame (words : list cypherword)
    (initialCyphertext : cstring) (wall_clock : nat -> Z)
    (cypherwordIndex : Z) (map map' : option legend) (maxSec : Z)
    (st st' : solver_state) ok :
  cypherwordIndex <> wordCount words - 1 ->
  DoWordBlockAttack words initialCyphertext wall_clock cypherwordIndex map maxSec st
    = Some (ok, map', st') ->
  map' = map.
Proof.
  intros Hidx. unfold DoWordBlockAttack. cbn [DoWordBlockAttack_depth]. unfold time.
  destruct (maxSec <=? 0); [now intros [= _ <- _] |].
  destruct (word_at words cypherwordIndex) as [w|]; [| discriminate].
  destruct (word_block_loop _ _ _ _ _ _ _ _ _ _ _) as [[[error map1] st1]|] eqn:E;
    [| discriminate].
  intros [= _ <- _]. eapply word_block_loop_inner_frame; eassumption.
Qed.

(** C2 fails on the code at the last cypherword, where the candidate is
    incorporated into the caller's legend itself and not into a duplicate.
    With the hint [c=t], the single cypherword [ab] and the candidates [it]
    and [an]: [it] passes the test with holes, its incorporation assigns
    [a=i] and then fails on [b=t], and the call returns with slot [a] of
    the caller's legend changed; [an] is then refused against the changed
    legend, so no answer is found. *)
Theorem DoWordBlockAttack_last_word_writes_legend :
  exists map' st',
    DoWordBlockAttack [word_ab] (chars "ab") (fun _ => 0) 0 (Some hint_c_t) 20 no_answers
      = Some (true, Some map', st')
    /\ hint_c_t !! 0%nat = Some 0
    /\ map' !! 0%nat = Some 105
    /\ plainText st' = [].
Proof. eexists _, _. vm_compute. repeat split. Qed.

(** ** Extending a legend keeps it injective *)

Lemma existsb_eqb_lookup (m : list Z) pc j :
  existsb (fun x => x =? pc) m = false -> m !! j = Some pc -> False.
Proof.
  intros H Hj.
  assert (existsb (fun x => x =? pc) m = true) as E; [| congruence].
  apply existsb_exists. exists pc. split; [| apply Z.eqb_refl].
  apply list_elem_of_In. eapply list_elem_of_lookup_2, Hj.
Qed.

Section Injectivity.

(** Any class of slot values: the letters, or all assigned values. *)
Variable P : Z -> bool.

(** Writing [pc] into a slot that is unassigned, when no slot holds [pc]. *)
Lemma no_shared_plain_insert (m : legend) k pc :
  m !! k = Some 0 -> existsb (fun x => x =? pc) m = false ->
  no_shared_plain P m -> no_shared_plain P (<[k := pc]> m).
Proof.
  intros Hk Hfree Hm i j x Hi Hj Px.
  destruct (decide (i = k)) as [-> | Hik], (decide (j = k)) as [-> | Hjk];
    [reflexivity | | |].
  - rewrite list_lookup_insert_eq in Hi by (eapply lookup_lt_Some, Hk).
    rewrite list_lookup_insert_ne in Hj by congruence.
    inversion Hi; subst x. destruct (existsb_eqb_lookup m pc j Hfree Hj).
  - rewrite list_lookup_insert_eq in Hj by (eapply lookup_lt_Some, Hk).
    rewrite list_lookup_insert_ne in Hi by congruence.
    inversion Hj; subst x. destruct (existsb_eqb_lookup m pc i Hfree Hi).
  - rewrite list_lookup_insert_ne in Hi, Hj by congruence. eauto.
Qed.

(** The loop keeps the invariant whether it ends in success or not. *)
Lemma incorporate_loop_no_shared_plain (cs ps : cstring) (m m' : legend) ok :
  incorporate_loop cs ps m = Some (ok, m') ->
  no_shared_plain P m -> no_shared_plain P m'.
Proof.
  revert ps m. induction cs as [|c cs IH]; intros [|p ps] m; simpl;
    try (intros [= _ <-]; trivial; fail).
  destruct (_ || _); [intros [= _ <-]; trivial |].
  destruct (_ && _); [apply IH |].
  unfold slot. destruct (_ && _); [| discriminate].
  destruct (m !! Z.to_nat (tolower c - 97)) as [v|] eqn:Hv; [| discriminate].
  destruct (Z.eqb_spec v 0) as [-> | Hv0]; simpl.
  - destruct (existsb _ m) eqn:Hfree; [intros [= _ <-]; trivial |].
    intros Hloop Hm. eapply IH; [exact Hloop |].
    now apply no_shared_plain_insert.
  - destruct (Z.eqb_spec v (tolower p)) as [-> | Hvp]; simpl;
      [| intros [= _ <-]; trivial].
    rewrite list_insert_id by exact Hv. apply IH.
Qed.

Lemma Incorporate_no_shared_plain (c p : cstring) (m m' : legend) ok :
  IncorporateCypherToPlainMapInLegend (Some c) (Some p) (Some m) = Some (ok, Some m') ->
  no_shared_plain P m -> no_shared_plain P m'.
Proof.
  unfold IncorporateCypherToPlainMapInLegend.
  destruct (negb _); [intros [= _ <-]; trivial |].
  destruct (incorporate_loop c p m) as [[ok' m'']|] eqn:E; [| discriminate].
  intros [= _ <-]. eapply incorporate_loop_no_shared_plain, E.
Qed.

Lemma incorporate_all_no_shared_plain calls (m m' : legend) :
  incorporate_all calls m = Some m' ->
  no_shared_plain P m -> no_shared_plain P m'.
Proof.
  revert m. induction calls as [|[c p] calls IH]; intros m; cbn [incorporate_all].
  - intros [= <-]; trivial.
  - destruct (IncorporateCypherToPlainMapInLegend (Some c) (Some p) (Some m))
      as [[[|] [m1|]]|] eqn:E; try discriminate.
    intros Hrest Hm. eapply IH; [exact Hrest |].
    eapply Incorporate_no_shared_plain; [exact E | exact Hm].
Qed.

End Injectivity.

(** A legend whose letters, read slot by slot, show no repetition is
    injective; this settles the matter for a given legend by computation. *)
Lemma no_shared_plain_NoDup (P : Z -> bool) (m : legend) :
  NoDup (filter (fun x => P x = true) m) -> no_shared_plain P m.
Proof.
  induction m as [|a m IH]; intros Hnd i j x Hi Hj Px.
  - discriminate Hi.
  - assert (no_shared_plain P m) as Hm.
    { apply IH. rewrite filter_cons in Hnd.
      destruct (decide (P a = true)); [now apply NoDup_cons in Hnd | exact Hnd]. }
    assert (forall k, m !! k = Some a -> P a = true -> False) as Hfresh.
    { intros k Hk Pa. rewrite filter_cons_True in Hnd by exact Pa.
      apply NoDup_cons in Hnd as [Hnot _]. apply Hnot.
      apply list_elem_of_filter. split; [exact Pa |].
      eapply list_elem_of_lookup_2, Hk. }
    destruct i as [|i], j as [|j]; simpl in Hi, Hj.
    + reflexivity.
    + inversion Hi; subst x. destruct (Hfresh j Hj Px).
    + inversion Hj; subst x. destruct (Hfresh i Hi Px).
    + f_equal. eapply Hm; eassumption.
Qed.

(** With the slot values compared as chars, the incorporations keep the
    legend free of repeated letters: after any sequence of calls of
    [IncorporateCypherToPlainMapInLegend] that all return success, still no
    letter sits in two slots. *)
Lemma Incorporate_keeps_legend_injective
    (calls : list (cstring * cstring)) (m m' : legend) :
  legend_injective m ->
  incorporate_all calls m = Some m' ->
  legend_injective m'.
Proof.
  intros Hm Hcalls.
  exact (incorporate_all_no_shared_plain isalpha calls m m' Hcalls Hm).
Qed.

Lemma Incorporate_keeps_legend_injective_witness :
  legend_injective hint_c_t
  /\ incorporate_all [(chars "ab", chars "an"); (chars "bad", chars "nay")] hint_c_t
     = Some (<[0%nat := 97]> (<[1%nat := 110]> (<[3%nat := 121]> hint_c_t)))
  /\ legend_injective (<[0%nat := 97]> (<[1%nat := 110]> (<[3%nat := 121]> hint_c_t))).
Proof.
  assert (legend_injective hint_c_t) as H0.
  { apply no_shared_plain_NoDup. vm_compute. apply NoDup_singleton. }
  split; [exact H0 |]. split; [reflexivity |].
  apply (Incorporate_keeps_legend_injective
           [(chars "ab", chars "an"); (chars "bad", chars "nay")] hint_c_t).
  - exact H0.
  - reflexivity.
Defined.

(** In a legend without upper-case letters the comparison of chars is the
    comparison up to case. *)
Lemma legend_injective_lower_case (m : legend) :
  lower_case_legend m -> (legend_injective m <-> legend_injective_nocase m).
Proof.
  intros Hlow.
  assert (forall k v, m !! k = Some v -> tolower v = v) as Hid.
  { intros k v Hk. unfold lower_case_legend in Hlow. rewrite Forall_lookup in Hlow.
    unfold tolower. now rewrite (Hlow k v Hk). }
  split.
  - intros Hm i j x y Hi Hj Hx Hxy.
    rewrite (Hid i x Hi), (Hid j y Hj) in Hxy. subst y.
    exact (Hm i j x Hi Hj Hx).
  - intros Hm i j x Hi Hj Hx. exact (Hm i j x x Hi Hj Hx eq_refl).
Qed.

(** The loop writes lower-case characters only. *)
Lemma incorporate_loop_lower_case (cs ps : cstring) (m m' : legend) ok :
  incorporate_loop cs ps m = Some (ok, m') ->
  lower_case_legend m -> lower_case_legend m'.
Proof.
  revert ps m. induction cs as [|c cs IH]; intros [|p ps] m; cbn [incorporate_loop];
    try (intros [= _ <-]; trivial; fail).
  destruct (_ || _); [intros [= _ <-]; trivial |].
  destruct (_ && _); [apply IH |].
  destruct (slot m (tolower c - 97)) as [v|]; [| discriminate].
  destruct (if negb (v =? 0) then _ else _); [intros [= _ <-]; trivial |].
  intros Hloop Hm. eapply IH; [exact Hloop |].
  apply Forall_insert; [exact Hm | apply tolower_not_upper].
Qed.

(** What the code does keep: when no slot holds an upper-case letter, as
    in every legend that the code fills by itself, the successful
    incorporations keep the legend injective up to case. *)
Lemma Incorporate_keeps_lower_case_legend_injective
    (calls : list (cstring * cstring)) (m m' : legend) :
  lower_case_legend m -> legend_injective_nocase m ->
  incorporate_all calls m = Some m' ->
  lower_case_legend m' /\ legend_injective_nocase m'.
Proof.
  intros Hlow Hm Hcalls.
  assert (lower_case_legend m') as Hlow'.
  { revert m Hlow Hm Hcalls.
    induction calls as [|[c p] calls IH]; intros m Hlow Hm; cbn [incorporate_all].
    - now intros [= <-].
    - destruct (IncorporateCypherToPlainMapInLegend (Some c) (Some p) (Some m))
        as [[[|] [m1|]]|] eqn:E; try discriminate.
      intros Hrest.
      assert (lower_case_legend m1) as Hlow1.
      { unfold IncorporateCypherToPlainMapInLegend in E.
        destruct (negb _); [discriminate |].
        destruct (incorporate_loop c p m) as [[ok1 m2]|] eqn:El; [| discriminate].
        inversion E; subst. eapply incorporate_loop_lower_case; eauto. }
      apply (IH m1 Hlow1); [| exact Hrest].
      apply legend_injective_lower_case; [exact Hlow1 |].
      eapply (Incorporate_no_shared_plain isalpha); [exact E |].
      now apply legend_injective_lower_case. }
  split; [exact Hlow' |].
  apply legend_injective_lower_case; [exact Hlow' |].
  apply (incorporate_all_no_shared_plain isalpha calls m m' Hcalls).
  now apply legend_injective_lower_case.
Qed.

(** C1 fails on the code. The scan for a slot that already holds the plain
    letter compares chars, and the plain letter of a hint is stored as
    typed. The legend of the hint [a=T] has no plain letter in two slots;
    the incorporation of [bc] as [to] into it succeeds, and leaves the plain
    letter t in the slot of a and in the slot of b: the legend decodes [ab]
    to [tt]. The word block attack makes that call on the cyphertext [bc]
    and stores the answer. *)
Theorem Incorporate_upper_case_hint_shares_letter :
  CreateLegend 97 84 = Some hint_a_T
  /\ legend_injective_nocase hint_a_T
  /\ exists m',
       incorporate_all [(chars "bc", chars "to")] hint_a_T = Some m'
       /\ m' !! 0%nat = Some 84 /\ m' !! 1%nat = Some 116
       /\ ~ legend_injective_nocase m'
       /\ CanCypherAndLegendMakePlain (Some (chars "ab")) (Some m') (Some (chars "tt")) true
          = true
       /\ exists st',
            DoWordBlockAttack [word_bc] (chars "bc") (fun _ => 0) 0 (Some hint_a_T) 20
              no_answers = Some (true, Some m', st')
            /\ plainText st' = [chars "to"].
Proof.
  split; [reflexivity |]. split.
  - intros i j x y Hi Hj Hx Hxy. unfold hint_a_T in Hi, Hj.
    assert (forall k v, <[0%nat := 84]> (replicate 26 0) !! k = Some v ->
                        isalpha v = true -> k = 0%nat) as Hone.
    { intros k v Hk Hv. destruct k as [|k]; [reflexivity |].
      rewrite list_lookup_insert_ne in Hk by discriminate.
      apply lookup_replicate in Hk as [-> _]. discriminate Hv. }
    assert (isalpha y = true) as Hy.
    { destruct j as [|j]; [cbn in Hj; now inversion Hj |].
      exfalso. rewrite list_lookup_insert_ne in Hj by discriminate.
      apply lookup_replicate in Hj as [-> _].
      clear Hi Hone. change (tolower 0) with 0 in Hxy. ctype. }
    rewrite (Hone i x Hi Hx), (Hone j y Hj Hy). reflexivity.
  - eexists. split; [vm_compute; reflexivity |].
    split; [reflexivity |]. split; [reflexivity |]. split.
    + intros H. specialize (H 0%nat 1%nat 84 116 eq_refl eq_refl eq_refl eq_refl).
      discriminate H.
    + split; [reflexivity |]. eexists. split; vm_compute; reflexivity.
Qed.

(** ** Encrypting and decrypting with a full legend *)

Lemma islower_alphabet c : islower c = true -> In c alphabet.
Proof.
  intros H. unfold alphabet. apply in_map_iff.
  exists (Z.to_nat (c - 97)). split; [ctype |].
  apply in_seq. ctype.
Qed.

(** Counting: 26 distinct lower-case letters are all of them. *)
Lemma legend_bijective_onto (m : legend) c :
  legend_bijective m -> islower c = true -> c ∈ m.
Proof.
  intros (Hlen & Hnd & Hlow) Hc. apply list_elem_of_In.
  assert (incl alphabet m) as Hall; [| apply Hall; now apply islower_alphabet].
  apply NoDup_length_incl; [now apply NoDup_ListNoDup | now rewrite Hlen |].
  intros x Hx. apply islower_alphabet.
  rewrite Forall_forall in Hlow. apply Hlow. now apply list_elem_of_In.
Qed.

Lemma back_search_finds (l : list Z) i c :
  c ∈ l ->
  exists n, back_search l i c = Some (i + Z.of_nat n) /\ l !! n = Some c.
Proof.
  revert i. induction l as [|v l IH]; intros i Hc; [inversion Hc |].
  simpl. destruct (Z.eqb_spec v c) as [-> | Hne].
  - exists 0%nat. split; [f_equal; lia | reflexivity].
  - apply elem_of_cons in Hc as [-> | Hc]; [contradiction |].
    destruct (IH (i + 1) Hc) as (n & Hs & Hn).
    exists (S n). split; [rewrite Hs; f_equal; lia | exact Hn].
Qed.

Lemma legend_round_trip_char (m : legend) c :
  legend_bijective m -> isalpha c = true ->
  CypherToPlainChar (Some m) (PlainToCypherChar (Some m) c) = c.
Proof.
  intros Hm Hc. pose proof Hm as (Hlen & _ & _).
  unfold PlainToCypherChar.
  destruct (isupper c) eqn:Hup.
  - assert (islower (tolower c) = true) as Hlow by (rewrite islower_tolower; exact Hc).
    rewrite Hlow.
    destruct (back_search_finds m 0 (tolower c) (legend_bijective_onto m _ Hm Hlow))
      as (n & -> & Hn).
    assert (n < 26)%nat as Hn26 by (rewrite <- Hlen; eapply lookup_lt_Some, Hn).
    replace (to_char (0 + Z.of_nat n + 97 + (65 - 97))) with (Z.of_nat n + 65)
      by (rewrite to_char_id; ctype).
    rewrite CypherToPlainChar_upper by ctype.
    replace (Z.to_nat (Z.of_nat n + 65 + 32 - 97)) with n by lia.
    rewrite (list_lookup_total_correct m n _ Hn).
    unfold tolower. rewrite Hup.
    replace (c + 32 + (65 - 97)) with c by lia.
    apply to_char_id. ctype.
  - assert (islower c = true) as Hlow by (unfold isalpha in Hc; now rewrite Hup in Hc).
    rewrite Hlow.
    destruct (back_search_finds m 0 c (legend_bijective_onto m _ Hm Hlow))
      as (n & -> & Hn).
    assert (n < 26)%nat as Hn26 by (rewrite <- Hlen; eapply lookup_lt_Some, Hn).
    replace (to_char (0 + Z.of_nat n + 97 + 0)) with (Z.of_nat n + 97)
      by (rewrite to_char_id; ctype).
    rewrite CypherToPlainChar_lower by ctype.
    replace (Z.to_nat (Z.of_nat n + 97 - 97)) with n by lia.
    rewrite (list_lookup_total_correct m n _ Hn).
    rewrite Z.add_0_r. apply to_char_id. ctype.
Qed.

(** C8. For a legend whose 26 slots are a full bijection of the lower-case
    alphabet and an alphabetic string [P], decrypting the encryption of
    [P] gives [P] back. *)
Theorem legend_round_trip (m : legend) (P : cstring) :
  legend_bijective m ->
  forallb isalpha P = true ->
  CypherToPlainString (Some m) (PlainToCypherString (Some m) (Some P)) = Some P.
Proof.
  intros Hm HP. simpl. f_equal.
  rewrite List.map_map.
  induction P as [|c P IH]; [reflexivity |].
  simpl in HP. apply andb_prop in HP as [Hc HP].
  simpl. f_equal; [| exact (IH HP)].
  exact (legend_round_trip_char m c Hm Hc).
Qed.

Lemma shift_legend_bijective : legend_bijective shift_legend.
Proof.
  split; [reflexivity |]. split.
  - refine (bool_decide_unpack _ _). vm_compute. exact I.
  - refine (bool_decide_unpack _ _). vm_compute. exact I.
Qed.

Lemma legend_round_trip_witness :
  legend_bijective shift_legend
  /\ forallb isalpha (chars "CryptoQuip") = true
  /\ CypherToPlainString (Some shift_legend)
       (PlainToCypherString (Some shift_legend) (Some (chars "CryptoQuip")))
     = Some (chars "CryptoQuip").
Proof.
  split; [exact shift_legend_bijective |]. split; [reflexivity |].
  apply (legend_round_trip shift_legend (chars "CryptoQuip")).
  - exact shift_legend_bijective.
  - reflexivity.
Defined.

(** ** Testing a cyphertext and a legend against a plaintext *)

Lemma legend_ok_slot (m : legend) (k : nat) :
  legend_ok m = true -> (k < 26)%nat -> is_char (m !!! k) = true.
Proof.
  unfold legend_ok. intros H Hk. apply andb_prop in H as [Hlen Hch].
  apply Nat.eqb_eq in Hlen.
  destruct (lookup_lt_is_Some_2 m k) as [v Hv]; [lia |].
  rewrite (list_lookup_total_correct m k v Hv).
  rewrite forallb_forall in Hch. apply Hch.
  apply list_elem_of_In. eapply list_elem_of_lookup_2, Hv.
Qed.

(** The character that [CanCypherAndLegendMakePlain] compares is the image
    of the cypher character, or the marker where there is none. *)
Lemma CypherToPlainChar_image (m : legend) c :
  legend_ok m = true -> c <> 0 ->
  CypherToPlainChar (Some m) (tolower c) = default 0 (legend_image m c)
  /\ legend_image m c <> Some 0.
Proof.
  intros Hm Hc. unfold legend_image.
  destruct (isalpha c) eqn:Ha.
  - rewrite CypherToPlainChar_lower by (now rewrite islower_tolower).
    rewrite Z.add_0_r, to_char_id by (apply legend_ok_slot; [exact Hm | ctype]).
    simpl. destruct (Z.eqb_spec (m !!! Z.to_nat (tolower c - 97)) 0) as [E | E].
    + now rewrite E.
    + split; [reflexivity | congruence].
  - replace (tolower c) with c by ctype.
    rewrite CypherToPlainChar_nonalpha by exact Ha.
    split; [reflexivity | congruence].
Qed.

(** With holes allowed, the loop ends without a mismatch exactly when it
    started without one and every position agrees. *)
Lemma canmap_loop_holes (m : legend) (cs ps : cstring) (mismatch : bool) :
  legend_ok m = true -> cstring_ok cs = true -> length cs = length ps ->
  canmap_loop m false cs ps mismatch = false
  <-> mismatch = false /\ Forall2 (image_agrees m) cs ps.
Proof.
  intros Hm. revert ps mismatch.
  induction cs as [|c cs IH]; intros [|p ps] mismatch Hcs Hlen; try discriminate.
  - simpl. split; [intros ->; split; [reflexivity | constructor] | tauto].
  - simpl in Hcs. apply andb_prop in Hcs as [Hc Hcs].
    apply negb_true_iff, Z.eqb_neq in Hc.
    destruct (CypherToPlainChar_image m c Hm Hc) as [Hppc Hq].
    cbn [canmap_loop]. rewrite Hppc, andb_false_r.
    rewrite IH by (simpl in Hlen; auto with lia).
    rewrite Forall2_cons. unfold image_agrees at 2.
    destruct (legend_image m c) as [q|]; simpl.
    + replace (q =? 0) with false by (symmetry; apply Z.eqb_neq; congruence).
      simpl. destruct (Z.eqb_spec (tolower q) (tolower p)) as [E | E]; simpl.
      * split; [intros [? ?] | intros [? [? ?]]]; repeat split; auto.
        intros q' [= <-]. exact E.
      * split; [intros [? ?]; discriminate | intros [_ [H _]]].
        destruct E. now apply H.
    + split; [intros [? ?] | intros [? [? ?]]]; repeat split; auto.
      intros q' [=].
Qed.

(** Under [mustBeComplete] a letter with an unassigned slot ends the loop
    with a mismatch, whatever came before it. *)
Lemma canmap_loop_complete_unassigned (m : legend) (cs ps : cstring)
    (mismatch : bool) (i : nat) c :
  length cs = length ps ->
  cs !! i = Some c -> isalpha c = true -> legend_image m c = None ->
  canmap_loop m true cs ps mismatch = true.
Proof.
  revert ps mismatch i.
  induction cs as [|c0 cs IH]; intros [|p ps] mismatch i Hlen Hi Ha Himg;
    try discriminate.
  cbn [canmap_loop].
  destruct (CypherToPlainChar (Some m) (tolower c0) =? 0) eqn:E0; [reflexivity |].
  rewrite andb_false_l.
  destruct i as [|i]; simpl in Hi.
  - inversion Hi; subst c0. exfalso.
    rewrite CypherToPlainChar_lower in E0 by (now rewrite islower_tolower).
    unfold legend_image in Himg. rewrite Ha in Himg. simpl in Himg.
    destruct (m !!! Z.to_nat (tolower c - 97) =? 0) eqn:E; [| discriminate].
    apply Z.eqb_eq in E. rewrite E in E0. discriminate E0.
  - eapply IH; eauto.
Qed.

(** The image agrees exactly when a mapped letter agrees and a character
    that is not a letter is kept. *)
Lemma image_agrees_maps (m : legend) c p :
  image_agrees m c p
  <-> (forall q, legend_maps m c = Some q -> tolower q = tolower p)
      /\ (isalpha c = false -> p = c).
Proof.
  unfold image_agrees, legend_image, legend_maps. destruct (isalpha c) eqn:Ha.
  - split; [intros H; split; [exact H | discriminate] | intros [H _]; exact H].
  - split.
    + intros H. split; [intros q [=] |]. intros _. specialize (H c eq_refl).
      clear m. ctype.
    + intros [_ H] q [= <-]. now rewrite (H eq_refl).
Qed.

(** C4, as stated, fails: with the hint [c=t], holes allowed, the cyphertext
    [c'c] is refused for the plaintext [t-t], although at no position whose
    cypher character the legend maps the plaintext disagrees (the legend
    does not map the apostrophe). *)
Lemma CanCypherAndLegendMakePlain_punctuation_differs :
  legend_ok hint_c_t = true
  /\ cstring_ok (chars "c'c") = true
  /\ length (chars "c'c") = length (chars "t-t")
  /\ ~ (CanCypherAndLegendMakePlain (Some (chars "c'c")) (Some hint_c_t)
          (Some (chars "t-t")) false = true
        <-> no_mapped_disagrees hint_c_t (chars "c'c") (chars "t-t")).
Proof.
  split; [reflexivity |]. split; [reflexivity |]. split; [reflexivity |].
  intros [_ H].
  assert (no_mapped_disagrees hint_c_t (chars "c'c") (chars "t-t")) as Hno.
  { intros [|[|[|i]]] c p q Hc Hp Hq; cbn in Hc, Hp; try discriminate;
      inversion Hc; inversion Hp; subst; vm_compute in Hq; try discriminate;
      inversion Hq; reflexivity. }
  specialize (H Hno). vm_compute in H. discriminate H.
Qed.

(** C4, amended. For a legend and two strings of equal length: with
    [mustBeComplete] the answer is NO whenever some position holds a letter
    that the legend leaves unmapped; without it the answer is YES exactly
    when no position whose cypher character the legend maps disagrees, up
    to case, with the plaintext character there, and every cypher
    character that is not a letter is the plaintext character at its
    position. *)
Theorem CanCypherAndLegendMakePlain_completeness
    (m : legend) (cyphertext plaintext : cstring) :
  legend_ok m = true ->
  cstring_ok cyphertext = true ->
  length cyphertext = length plaintext ->
  ((exists i c, cyphertext !! i = Some c /\ isalpha c = true
                /\ legend_maps m c = None) ->
   CanCypherAndLegendMakePlain (Some cyphertext) (Some m) (Some plaintext) true = false)
  /\ (CanCypherAndLegendMakePlain (Some cyphertext) (Some m) (Some plaintext) false = true
      <-> no_mapped_disagrees m cyphertext plaintext
          /\ non_letters_kept cyphertext plaintext).
Proof.
  intros Hm Hcs Hlen. unfold CanCypherAndLegendMakePlain.
  rewrite Hlen, Nat.eqb_refl. simpl. split.
  - intros (i & c & Hi & Ha & Hmaps).
    assert (legend_image m c = None) as Himg
      by (unfold legend_image; unfold legend_maps in Hmaps; now rewrite Ha in *).
    now rewrite (canmap_loop_complete_unassigned m _ _ false i c Hlen Hi Ha Himg).
  - rewrite negb_true_iff, (canmap_loop_holes m _ _ false Hm Hcs Hlen).
    rewrite Forall2_same_length_lookup. split.
    + intros [_ [_ H]]. split.
      * intros i c p q Hc Hp. now apply (image_agrees_maps m c p), (H i).
      * intros i c p Hc Hp. now apply (image_agrees_maps m c p), (H i).
    + intros [Hmapped Hkept]. split; [reflexivity |]. split; [exact Hlen |].
      intros i c p Hc Hp. apply image_agrees_maps. split.
      * intros q. exact (Hmapped i c p q Hc Hp).
      * exact (Hkept i c p Hc Hp).
Qed.

Lemma CanCypherAndLegendMakePlain_completeness_witness :
  legend_ok hint_c_t = true
  /\ cstring_ok (chars "C'ab") = true
  /\ length (chars "C'ab") = length (chars "t'in")
  /\ CanCypherAndLegendMakePlain (Some (chars "C'ab")) (Some hint_c_t)
       (Some (chars "t'in")) true = false
  /\ CanCypherAndLegendMakePlain (Some (chars "C'ab")) (Some hint_c_t)
       (Some (chars "t'in")) false = true
  /\ no_mapped_disagrees hint_c_t (chars "C'ab") (chars "t'in")
  /\ non_letters_kept (chars "C'ab") (chars "t'in").
Proof.
  destruct (CanCypherAndLegendMakePlain_completeness hint_c_t (chars "C'ab") (chars "t'in"))
    as [Hcomplete Hholes]; try reflexivity.
  split; [reflexivity |]. split; [reflexivity |]. split; [reflexivity |]. split.
  - apply Hcomplete. exists 2%nat, 97. repeat split.
  - split; [reflexivity |]. apply Hholes. reflexivity.
Defined.

(** ** The frequency attack: testing a completed legend *)

Lemma first_possible_Some (c : cstring) (m : legend) (possibles : list cstring) :
  (exists p, first_possible c (Some m) true possibles = Some p)
  <-> exists p, p ∈ possibles
                /\ CanCypherAndLegendMakePlain (Some c) (Some m) (Some p) true = true.
Proof.
  induction possibles as [|p0 ps IH]; cbn [first_possible].
  - split; [intros [p [=]] | intros (p & Hp & _); inversion Hp].
  - destruct (CanCypherAndLegendMakePlain (Some c) (Some m) (Some p0) true) eqn:E.
    + split; [intros _; exists p0; split; [left | exact E] | intros _; now exists p0].
    + rewrite IH. split; intros (p & Hp & Hcan).
      * exists p. split; [now right | exact Hcan].
      * apply elem_of_cons in Hp as [-> | Hp]; [congruence |]. now exists p.
Qed.

Lemma IsCypherwordDecryptedByLegend_decrypts (m : legend) (w : cypherword) :
  IsCypherwordDecryptedByLegend (Some w) (Some m) = true <-> decrypts m w.
Proof.
  unfold decrypts. rewrite <- first_possible_Some.
  unfold IsCypherwordDecryptedByLegend, GetPossibleOfCypherwordForLegend.
  destruct (first_possible _ _ _ _) as [p|].
  - split; [intros _; now exists p | reflexivity].
  - split; [discriminate | intros [p [=]]].
Qed.

(** The loop over the cypherwords: [hits] grows by the number of words
    decoded, and [missed] records whether one was not. *)
Lemma count_hits_spec (m : legend) (ws : list cypherword) (hits : Z) (missed : bool) :
  0 <= hits ->
  exists hits' missed',
    count_hits (Some m) ws hits missed = (hits', missed')
    /\ 0 <= hits'
    /\ (0 < hits' <-> 0 < hits \/ exists w, w ∈ ws /\ decrypts m w)
    /\ (missed' = false <-> missed = false /\ forall w, w ∈ ws -> decrypts m w).
Proof.
  revert hits missed. induction ws as [|w ws IH]; intros hits missed Hh;
    cbn [count_hits].
  - exists hits, missed.
    split; [reflexivity |]. split; [exact Hh |]. split.
    + split; [now left | intros [? | (w & Hw & _)]; [assumption | inversion Hw]].
    + split; [intros ->; split; [reflexivity | intros w Hw; inversion Hw] | tauto].
  - pose proof (IsCypherwordDecryptedByLegend_decrypts m w) as Hw.
    destruct (IsCypherwordDecryptedByLegend (Some w) (Some m)).
    + assert (decrypts m w) as Hd by now apply Hw.
      destruct (IH (hits + 1) missed) as (h' & m' & -> & Hpos & Hhit & Hmiss); [lia |].
      exists h', m'.
      split; [reflexivity |]. split; [exact Hpos |]. split.
      * rewrite Hhit. split; intros _; [| left; lia].
        right. exists w. split; [left | exact Hd].
      * rewrite Hmiss. split; intros [Hm Hall]; (split; [exact Hm |]).
        -- intros w' Hw'. apply elem_of_cons in Hw' as [-> | Hw']; auto.
        -- intros w' Hw'. apply Hall. now right.
    + assert (~ decrypts m w) as Hd by (intros H; apply Hw in H; discriminate H).
      destruct (IH hits true) as (h' & m' & -> & Hpos & Hhit & Hmiss); [lia |].
      exists h', m'.
      split; [reflexivity |]. split; [exact Hpos |]. split.
      * rewrite Hhit. split; (intros [? | (w' & Hw' & Hd')]; [now left | right]).
        -- exists w'. split; [now right | exact Hd'].
        -- apply elem_of_cons in Hw' as [-> | Hw']; [contradiction | now exists w'].
      * rewrite Hmiss. split; [intros [[=] _] | intros [_ Hall]].
        destruct Hd. apply Hall. left.
Qed.

Lemma strcmp_same (a : cstring) : strcmp a a = 0.
Proof.
  induction a as [|x a IH]; [reflexivity |].
  cbn [strcmp]. rewrite Z.eqb_refl. simpl. now destruct (x =? 0).
Qed.

Lemma is_new_plainText_spec (decoded : cstring) (answers : list cstring) :
  is_new_plainText decoded answers = false <-> already_found decoded answers.
Proof.
  unfold already_found. induction answers as [|a answers IH]; cbn [is_new_plainText].
  - split; [discriminate | intros (e & He & _); inversion He].
  - destruct (Z.eqb_spec (strcmp decoded a) 0) as [E | E].
    + split; [intros _; exists a; split; [left | exact E] | reflexivity].
    + rewrite IH. split; intros (e & He & Hcmp).
      * exists e. split; [now right | exact Hcmp].
      * apply elem_of_cons in He as [-> | He]; [contradiction |]. now exists e.
Qed.

(** C3. Testing a legend in the frequency attack: the decoding of the whole
    cyphertext is appended to the answers if and only if some cypherword is
    fully decoded to one of its candidates or none is missed, and the decoding
    is not among the answers yet; in every other case, and so when it is
    already there, the answers are unchanged. *)
Theorem TestFreqAttackLegend_adds_new_decoding (words : list cypherword)
    (initialCyphertext : cstring) (m : legend) (st : solver_state) :
  exists decoded,
    CypherToPlainString (Some m) (Some initialCyphertext) = Some decoded
    /\ let accepted := (exists w, w ∈ words /\ decrypts m w)
                       \/ (forall w, w ∈ words -> decrypts m w) in
       let answers' := plainText (TestFreqAttackLegend words initialCyphertext (Some m) st) in
       (accepted /\ ~ already_found decoded (plainText st)
        /\ answers' = plainText st ++ [decoded])
       \/ (~ (accepted /\ ~ already_found decoded (plainText st))
           /\ answers' = plainText st).
Proof.
  eexists. split; [reflexivity |]. cbv zeta.
  unfold TestFreqAttackLegend.
  destruct (count_hits_spec m words 0 false (Z.le_refl 0))
    as (hits & missed & -> & Hpos & Hhit & Hmiss).
  cbn [CypherToPlainString].
  set (decoded := List.map (CypherToPlainChar (Some m)) initialCyphertext).
  pose proof (is_new_plainText_spec decoded (plainText st)) as Hnew.
  destruct ((0 <? hits) || negb missed) eqn:Hacc.
  - assert ((exists w, w ∈ words /\ decrypts m w)
            \/ (forall w, w ∈ words -> decrypts m w)) as Haccepted.
    { apply orb_prop in Hacc as [H | H].
      - left. apply Z.ltb_lt, Hhit in H as [H | H]; [lia | exact H].
      - right. apply negb_true_iff, Hmiss in H as [_ H]. exact H. }
    destruct (is_new_plainText decoded (plainText st)).
    + left. split; [exact Haccepted |]. split; [| reflexivity].
      intros H. apply Hnew in H. discriminate H.
    + right. split; [| reflexivity]. intros [_ H]. apply H, Hnew. reflexivity.
  - right. split; [| reflexivity]. intros [Haccepted _].
    apply orb_false_elim in Hacc as [Hh Hm].
    apply Z.ltb_ge in Hh. apply negb_false_iff in Hm.
    destruct Haccepted as [H | H].
    + assert (0 < hits) by (apply Hhit; now right). lia.
    + assert (missed = false) as E by (apply Hmiss; now split). congruence.
Qed.

(** * Further properties of the code *)

(** ** The pattern matcher decides the repetition structure *)

Lemma pattern_clash_false a b (cs ps : cstring) :
  pattern_clash a b cs ps = false <->
  forall j cj pj, cs !! j = Some cj -> ps !! j = Some pj -> (cj = a <-> pj = b).
Proof.
  revert ps. induction cs as [|c cs IH]; intros [|p ps]; cbn [pattern_clash].
  - split; [intros _ j cj pj [=] | reflexivity].
  - split; [intros _ j cj pj [=] | reflexivity].
  - split; [intros _ j cj pj _ [=] | reflexivity].
  - destruct (Z.eqb_spec c a) as [Ec | Ec], (Z.eqb_spec p b) as [Ep | Ep]; simpl.
    + rewrite IH. split.
      * intros H [|j] cj pj; simpl; [intros [= <-] [= <-]; tauto | apply H].
      * intros H j. apply (H (S j)).
    + split; [discriminate |]. intros H.
      destruct Ep. apply (H 0%nat c p eq_refl eq_refl). exact Ec.
    + split; [discriminate |]. intros H.
      destruct Ec. apply (H 0%nat c p eq_refl eq_refl). exact Ep.
    + rewrite IH. split.
      * intros H [|j] cj pj; simpl; [intros [= <-] [= <-]; tauto | apply H].
      * intros H j. apply (H (S j)).
Qed.

Lemma pattern_loop_true (cs ps : cstring) :
  pattern_loop cs ps = true <->
  forall i j ci cj pi pj, (i < j)%nat ->
    cs !! i = Some ci -> cs !! j = Some cj ->
    ps !! i = Some pi -> ps !! j = Some pj ->
    (ci = cj <-> pi = pj).
Proof.
  revert ps. induction cs as [|c cs IH]; intros [|p ps]; cbn [pattern_loop].
  - split; [intros _ i j ci cj pi pj _ [=] | reflexivity].
  - split; [intros _ i j ci cj pi pj _ [=] | reflexivity].
  - split; [intros _ i j ci cj pi pj _ _ _ [=] | reflexivity].
  - destruct (pattern_clash c p cs ps) eqn:E.
    + split; [discriminate |]. intros H.
      assert (pattern_clash c p cs ps = false) as E'; [| congruence].
      apply pattern_clash_false. intros j cj pj Hc Hp.
      specialize (H 0%nat (S j) c cj p pj ltac:(lia) eq_refl Hc eq_refl Hp).
      split; intros Heq; symmetry; apply H; now symmetry.
    + rewrite IH. rewrite pattern_clash_false in E. split.
      * intros H [|i] [|j] ci cj pi pj Hij; simpl; try lia.
        -- intros [= <-] Hc [= <-] Hp. specialize (E j cj pj Hc Hp).
           split; intros Heq; symmetry; apply E; now symmetry.
        -- apply H. lia.
      * intros H i j ci cj pi pj Hij. apply (H (S i) (S j)). lia.
Qed.

Lemma pattern_loop_same_shape (x y : cstring) :
  pattern_loop x y = true <-> same_shape x y.
Proof.
  rewrite pattern_loop_true. split.
  - intros H i j xi xj yi yj Hxi Hxj Hyi Hyj.
    destruct (Nat.lt_total i j) as [Hij | [-> | Hji]].
    + now apply (H i j).
    + split; congruence.
    + pose proof (H j i xj xi yj yi Hji Hxj Hxi Hyj Hyi) as Hsym.
      split; intros Heq; symmetry; apply Hsym; now symmetry.
  - intros H i j ci cj pi pj _. apply H.
Qed.

(** X1. The pattern matcher accepts two strings exactly when they have the
    same length and repeat their characters at the same pairs of positions. *)
Theorem DoPatternsMatch_same_shape (x y : cstring) :
  DoPatternsMatch (Some x) (Some y) = true
  <-> length x = length y /\ same_shape x y.
Proof.
  cbn [DoPatternsMatch]. destruct (Nat.eqb_spec (length x) (length y)) as [E | E]; simpl.
  - rewrite pattern_loop_same_shape. tauto.
  - split; [discriminate | tauto].
Qed.

(** ** The candidate filter *)

Lemma offer_word_spec (str : cstring) (ws : list cypherword) :
  offer_word str ws =
  (false,
   List.map (fun w =>
     {| cyphertext := cyphertext w;
        possiblePlaintext := possiblePlaintext w ++ candidates_of (cyphertext w) [str] |})
     ws).
Proof.
  induction ws as [|w ws IH]; [reflexivity |].
  cbn [offer_word CheckCypherwordForPossiblePlaintext List.map].
  rewrite IH. unfold candidates_of. cbn [List.filter].
  destruct (DoPatternsMatch (Some (cyphertext w)) (Some str)); simpl.
  - reflexivity.
  - rewrite app_nil_r. now destruct w.
Qed.

(** X2. Offering the words of a dictionary to the cypherwords never fails,
    leaves every cyphertext as it is, and appends to each cypherword's
    candidates exactly the dictionary words that match its pattern, in the
    order of the dictionary and with their repetitions. *)
Theorem offer_words_filters (dictionary : list cstring) (ws : list cypherword) :
  offer_words dictionary ws =
  (false,
   List.map (fun w =>
     {| cyphertext := cyphertext w;
        possiblePlaintext :=
          possiblePlaintext w ++ candidates_of (cyphertext w) dictionary |})
     ws).
Proof.
  revert ws. induction dictionary as [|str rest IH]; intros ws; cbn [offer_words].
  - f_equal. induction ws as [|w ws IHw]; [reflexivity |].
    cbn [List.map]. rewrite <- IHw. unfold candidates_of. simpl.
    rewrite app_nil_r. now destruct w.
  - rewrite offer_word_spec, IH. f_equal. rewrite List.map_map.
    apply List.map_ext. intros w. cbn [cyphertext possiblePlaintext].
    unfold candidates_of. cbn [List.filter].
    destruct (DoPatternsMatch (Some (cyphertext w)) (Some str)); simpl.
    + now rewrite <- app_assoc.
    + now rewrite app_nil_r.
Qed.

(** X3. A word is kept by [CheckCypherwordForPossiblePlaintext] only with
    the cyphertext's length and repetition structure: a cypherword whose
    candidates all have them keeps that property. *)
Theorem CheckCypherword_keeps_shape (w w' : cypherword) (str : cstring) ok :
  (forall p, p ∈ possiblePlaintext w ->
             length (cyphertext w) = length p /\ same_shape (cyphertext w) p) ->
  CheckCypherwordForPossiblePlaintext (Some w) (Some str) = (ok, Some w') ->
  cyphertext w' = cyphertext w
  /\ forall p, p ∈ possiblePlaintext w' ->
               length (cyphertext w') = length p /\ same_shape (cyphertext w') p.
Proof.
  intros Hw. cbn [CheckCypherwordForPossiblePlaintext].
  destruct (DoPatternsMatch (Some (cyphertext w)) (Some str)) eqn:E; simpl;
    intros [= _ <-]; (split; [reflexivity |]); [| exact Hw].
  cbn [cyphertext possiblePlaintext]. intros p Hp.
  apply elem_of_app in Hp as [Hp | Hp]; [now apply Hw |].
  apply list_elem_of_singleton in Hp as ->.
  cbn [DoPatternsMatch] in E.
  destruct (Nat.eqb_spec (length (cyphertext w)) (length str)) as [Hlen | _];
    [| discriminate E].
  split; [exact Hlen | now apply pattern_loop_same_shape].
Qed.

Lemma CheckCypherword_keeps_shape_witness :
  (forall p, p ∈ possiblePlaintext word_ab ->
             length (cyphertext word_ab) = length p /\ same_shape (cyphertext word_ab) p)
  /\ CheckCypherwordForPossiblePlaintext (Some word_ab) (Some (chars "of"))
      = (true, Some {| cyphertext := chars "ab";
                       possiblePlaintext := [chars "it"; chars "an"; chars "of"] |})
  /\ forall p, p ∈ [chars "it"; chars "an"; chars "of"] ->
                length (chars "ab") = length p /\ same_shape (chars "ab") p.
Proof.
  assert (forall p, p ∈ possiblePlaintext word_ab ->
            length (cyphertext word_ab) = length p /\ same_shape (cyphertext word_ab) p)
    as H0.
  { intros p Hp. split.
    - apply elem_of_cons in Hp as [-> | Hp]; [reflexivity |].
      apply list_elem_of_singleton in Hp as ->. reflexivity.
    - apply pattern_loop_same_shape.
      apply elem_of_cons in Hp as [-> | Hp]; [reflexivity |].
      apply list_elem_of_singleton in Hp as ->. reflexivity. }
  split; [exact H0 |]. split; [reflexivity |].
  apply (CheckCypherword_keeps_shape word_ab _ (chars "of") true H0 eq_refl).
Defined.

(** ** Creating, copying and comparing legends *)

Lemma CypherToPlainChar_slot (m : legend) c (k : nat) v :
  islower c = true -> k = Z.to_nat (c - 97) -> m !! k = Some v -> is_char v = true ->
  CypherToPlainChar (Some m) c = v.
Proof.
  intros Hc -> Hk Hv. rewrite CypherToPlainChar_lower by exact Hc.
  rewrite (list_lookup_total_correct m _ v Hk), Z.add_0_r. now apply to_char_id.
Qed.

(** X4. A legend created from a lower-case cypher character and a plain
    character has 26 slots, reads that cypher character as the plain one
    and every other lower-case letter as unassigned. *)
Theorem CreateLegend_read (cryptChar plainChar : Z) :
  islower cryptChar = true -> is_char plainChar = true ->
  exists m,
    CreateLegend cryptChar plainChar = Some m
    /\ legend_ok m = true
    /\ CypherToPlainChar (Some m) cryptChar = plainChar
    /\ forall c, islower c = true -> c <> cryptChar -> CypherToPlainChar (Some m) c = 0.
Proof.
  intros Hc Hp. unfold CreateLegend.
  replace ((0 <=? cryptChar - 97) && (cryptChar - 97 <? 26)) with true
    by (symmetry; apply andb_true_intro; split; [apply Z.leb_le | apply Z.ltb_lt]; ctype).
  eexists. split; [reflexivity |].
  assert (Z.to_nat (cryptChar - 97) < 26)%nat as Hk by ctype.
  split; [| split].
  - unfold legend_ok. rewrite length_insert, length_replicate.
    apply andb_true_intro. split; [reflexivity |].
    apply forallb_forall. intros x Hx. apply list_elem_of_In in Hx.
    apply list_elem_of_lookup_1 in Hx as [i Hi].
    apply list_lookup_insert_Some in Hi as [(_ & <- & _) | (_ & Hi)]; [exact Hp |].
    apply lookup_replicate in Hi as [-> _]. reflexivity.
  - eapply CypherToPlainChar_slot; [exact Hc | reflexivity | | exact Hp].
    apply list_lookup_insert_eq. now rewrite length_replicate.
  - intros c Hlow Hne.
    eapply CypherToPlainChar_slot; [exact Hlow | reflexivity | | reflexivity].
    rewrite list_lookup_insert_ne by ctype.
    apply lookup_replicate_2. ctype.
Qed.

Lemma CreateLegend_read_witness :
  islower 98 = true /\ is_char 116 = true /\
  exists m,
    CreateLegend 98 116 = Some m
    /\ legend_ok m = true
    /\ CypherToPlainChar (Some m) 98 = 116
    /\ forall c, islower c = true -> c <> 98 -> CypherToPlainChar (Some m) c = 0.
Proof.
  split; [reflexivity |]. split; [reflexivity |].
  apply (CreateLegend_read 98 116); reflexivity.
Defined.

(** X5. Copying a legend over another overwrites all 26 slots, so the
    duplicate of a legend holds the same 26 slot values (nothing of the
    ['a' = 'a'] legend it starts from is left) and compares equal to it. *)
Theorem DuplicateLegend_same_slots (dest src : legend) :
  length dest = 26%nat -> length src = 26%nat ->
  SetLegendToLegend dest src = src
  /\ DuplicateLegend (Some src) = Some src
  /\ DoesLegendEqualLegend (Some src) (DuplicateLegend (Some src)) = true.
Proof.
  intros Hd Hs.
  assert (SetLegendToLegend dest src = src) as Hset.
  { do 27 (destruct dest as [|? dest]; try discriminate Hd).
    do 27 (destruct src as [|? src]; try discriminate Hs). reflexivity. }
  split; [exact Hset |].
  rewrite (DuplicateLegend_copy src Hs). split; [reflexivity |].
  cbn [DoesLegendEqualLegend]. apply forallb_forall. intros i _. apply Z.eqb_refl.
Qed.

Lemma DuplicateLegend_same_slots_witness :
  length shift_legend = 26%nat /\ length hint_c_t = 26%nat
  /\ SetLegendToLegend shift_legend hint_c_t = hint_c_t
  /\ DuplicateLegend (Some hint_c_t) = Some hint_c_t
  /\ DoesLegendEqualLegend (Some hint_c_t) (DuplicateLegend (Some hint_c_t)) = true.
Proof.
  split; [reflexivity |]. split; [reflexivity |].
  apply (DuplicateLegend_same_slots shift_legend hint_c_t); reflexivity.
Defined.

(** X6. On two 26-slot legends [DoesLegendEqualLegend] answers YES exactly
    when all the slot values are the same. *)
Theorem DoesLegendEqualLegend_iff (a b : legend) :
  length a = 26%nat -> length b = 26%nat ->
  (DoesLegendEqualLegend (Some a) (Some b) = true <-> a = b).
Proof.
  intros Ha Hb. cbn [DoesLegendEqualLegend]. rewrite forallb_forall. split.
  - intros H. apply (list_eq_same_length a b 26%nat); [exact Hb | exact Ha |].
    intros i x y Hi Hx Hy.
    specialize (H i ltac:(apply in_seq; lia)). apply Z.eqb_eq in H.
    now rewrite (list_lookup_total_correct a i x Hx),
                (list_lookup_total_correct b i y Hy) in H.
  - intros -> i _. apply Z.eqb_refl.
Qed.

Lemma DoesLegendEqualLegend_iff_witness :
  length hint_c_t = 26%nat /\ length shift_legend = 26%nat
  /\ (DoesLegendEqualLegend (Some hint_c_t) (Some shift_legend) = true
      <-> hint_c_t = shift_legend).
Proof.
  split; [reflexivity |]. split; [reflexivity |].
  apply (DoesLegendEqualLegend_iff hint_c_t shift_legend); reflexivity.
Defined.

(** ** Encrypting what was decrypted, and letters no slot holds *)

Lemma back_search_first (l : list Z) i c r :
  back_search l i c = Some r ->
  exists n, r = i + Z.of_nat n /\ l !! n = Some c.
Proof.
  revert i. induction l as [|v l IH]; intros i; simpl; [discriminate |].
  destruct (Z.eqb_spec v c) as [-> | Hne].
  - intros [= <-]. exists 0%nat. split; [lia | reflexivity].
  - intros H. destruct (IH _ H) as (n & -> & Hn).
    exists (S n). split; [lia | exact Hn].
Qed.

Lemma back_search_none (l : list Z) i c :
  c ∉ l -> back_search l i c = None.
Proof.
  revert i. induction l as [|v l IH]; intros i Hc; simpl; [reflexivity |].
  apply not_elem_of_cons in Hc as [Hne Hc].
  destruct (Z.eqb_spec v c) as [-> | _]; [contradiction | now apply IH].
Qed.

(** X7. In a legend where no plain letter occupies two slots, a letter
    whose slot holds a lower-case letter is found again by the back-search:
    encrypting its decryption gives the letter back, in its case. *)
Theorem PlainToCypherChar_of_CypherToPlainChar (m : legend) c v :
  legend_ok m = true -> legend_injective m ->
  isalpha c = true -> m !!! Z.to_nat (tolower c - 97) = v -> islower v = true ->
  PlainToCypherChar (Some m) (CypherToPlainChar (Some m) c) = c.
Proof.
  intros Hm Hinj Ha Hv Hlow.
  assert (length m = 26%nat) as Hlen.
  { unfold legend_ok in Hm. apply andb_prop in Hm as [Hm _]. now apply Nat.eqb_eq. }
  assert (m !! Z.to_nat (tolower c - 97) = Some v) as Hk.
  { destruct (lookup_lt_is_Some_2 m (Z.to_nat (tolower c - 97))) as [x Hx]; [ctype |].
    now rewrite <- Hv, (list_lookup_total_correct m _ x Hx). }
  assert (back_search m 0 v = Some (tolower c - 97)) as Hback.
  { destruct (back_search_finds m 0 v) as (n & Hs & Hn);
      [eapply list_elem_of_lookup_2, Hk |].
    rewrite Hs. f_equal.
    assert (n = Z.to_nat (tolower c - 97)) as ->
      by (eapply Hinj; [exact Hn | exact Hk | unfold isalpha; now rewrite Hlow, orb_true_r]).
    ctype. }
  rewrite (CypherToPlainChar_assigned m c v Ha Hv Hlow).
  unfold PlainToCypherChar. destruct (isupper c) eqn:Hup.
  - replace (isupper (v - 32)) with true by ctype.
    replace (tolower (v - 32)) with v by ctype.
    rewrite Hlow, Hback. unfold tolower. rewrite Hup.
    replace (c + 32 - 97 + 97 + (65 - 97)) with c by lia.
    apply to_char_id. ctype.
  - replace (isupper v) with false by ctype.
    rewrite Hlow, Hback. unfold tolower. rewrite Hup.
    replace (c - 97 + 97 + 0) with c by lia.
    apply to_char_id. ctype.
Qed.

Lemma hint_c_t_injective : legend_injective hint_c_t.
Proof. apply no_shared_plain_NoDup. vm_compute. apply NoDup_singleton. Qed.

Lemma PlainToCypherChar_of_CypherToPlainChar_witness :
  legend_ok hint_c_t = true /\ legend_injective hint_c_t
  /\ isalpha 67 = true /\ hint_c_t !!! Z.to_nat (tolower 67 - 97) = 116
  /\ islower 116 = true
  /\ PlainToCypherChar (Some hint_c_t) (CypherToPlainChar (Some hint_c_t) 67) = 67.
Proof.
  split; [reflexivity |]. split; [exact hint_c_t_injective |].
  split; [reflexivity |]. split; [reflexivity |]. split; [reflexivity |].
  apply (PlainToCypherChar_of_CypherToPlainChar hint_c_t 67 116);
    try reflexivity; exact hint_c_t_injective.
Defined.

(** X8. A letter that no slot of the legend holds is returned by
    [PlainToCypherChar] in lower case: an upper-case letter loses its case. *)
Theorem PlainToCypherChar_unmapped (m : legend) c :
  isalpha c = true -> tolower c ∉ m ->
  PlainToCypherChar (Some m) c = tolower c.
Proof.
  intros Ha Hc. unfold PlainToCypherChar.
  destruct (isupper c) eqn:Hup.
  - rewrite islower_tolower, Ha, back_search_none by exact Hc. reflexivity.
  - replace (tolower c) with c in * by (unfold tolower; now rewrite Hup).
    unfold isalpha in Ha. rewrite Hup in Ha. simpl in Ha.
    now rewrite Ha, back_search_none by exact Hc.
Qed.

Lemma PlainToCypherChar_unmapped_witness :
  isalpha 81 = true /\ (tolower 81 ∉ hint_c_t)
  /\ PlainToCypherChar (Some hint_c_t) 81 = 113.
Proof.
  assert (tolower 81 ∉ hint_c_t) as H.
  { refine (bool_decide_unpack _ _). vm_compute. exact I. }
  split; [reflexivity |]. split; [exact H |].
  apply (PlainToCypherChar_unmapped hint_c_t 81); [reflexivity | exact H].
Defined.

(** X9. With a legend that is a full bijection of the lower-case alphabet,
    decrypting the encryption of any string gives the string back: letters
    return in their case and every other character passes through both
    ways. *)
Theorem legend_round_trip_any_text (m : legend) (text : cstring) :
  legend_bijective m ->
  CypherToPlainString (Some m) (PlainToCypherString (Some m) (Some text)) = Some text.
Proof.
  intros Hm. simpl. f_equal. rewrite List.map_map.
  induction text as [|c text IH]; [reflexivity |].
  cbn [List.map]. f_equal; [| exact IH].
  destruct (isalpha c) eqn:Ha.
  - now apply legend_round_trip_char.
  - assert (PlainToCypherChar (Some m) c = c) as ->.
    { unfold PlainToCypherChar.
      replace (isupper c) with false by ctype.
      now replace (islower c) with false by ctype. }
    now apply CypherToPlainChar_nonalpha.
Qed.

Lemma legend_round_trip_any_text_witness :
  legend_bijective shift_legend
  /\ CypherToPlainString (Some shift_legend)
       (PlainToCypherString (Some shift_legend) (Some (chars "It's a Quip!")))
     = Some (chars "It's a Quip!").
Proof.
  split; [exact shift_legend_bijective |].
  apply (legend_round_trip_any_text shift_legend (chars "It's a Quip!")).
  exact shift_legend_bijective.
Defined.

(** ** Complete decoding *)

(** Under [mustBeComplete] the loop ends without a mismatch exactly when it
    started without one and the legend decodes every position. *)
Lemma canmap_loop_complete (m : legend) (cs ps : cstring) (mismatch : bool) :
  legend_ok m = true -> cstring_ok cs = true -> length cs = length ps ->
  canmap_loop m true cs ps mismatch = false
  <-> mismatch = false /\ Forall2 (decodes_at m) cs ps.
Proof.
  intros Hm. revert ps mismatch.
  induction cs as [|c cs IH]; intros [|p ps] mismatch Hcs Hlen; try discriminate.
  - simpl. split; [intros ->; split; [reflexivity | constructor] | tauto].
  - simpl in Hcs. apply andb_prop in Hcs as [Hc Hcs].
    apply negb_true_iff, Z.eqb_neq in Hc.
    destruct (CypherToPlainChar_image m c Hm Hc) as [Hppc Hq].
    cbn [canmap_loop]. rewrite Hppc, andb_true_r.
    rewrite Forall2_cons. unfold decodes_at at 1.
    destruct (legend_image m c) as [q|]; simpl.
    + replace (q =? 0) with false by (symmetry; apply Z.eqb_neq; congruence).
      simpl. rewrite IH by (simpl in Hlen; auto with lia).
      destruct (Z.eqb_spec (tolower q) (tolower p)) as [E | E]; simpl.
      * split; [intros [? ?] | intros [? [? ?]]]; repeat split; auto.
        exists q. split; [reflexivity | exact E].
      * split; [intros [? ?]; discriminate | intros [_ [(q' & [= <-] & H) _]]].
        contradiction.
    + split; [discriminate | intros [_ [(q' & [=] & _) _]]].
Qed.

(** X10. With [mustBeComplete] set, a legend and two strings of equal
    length are accepted exactly when at every position the cypher character
    has an image under the legend (a letter's slot is assigned, any other
    character stands for itself) and that image is the plaintext character,
    up to case. *)
Theorem CanCypherAndLegendMakePlain_complete_iff
    (m : legend) (cyphertext plaintext : cstring) :
  legend_ok m = true ->
  cstring_ok cyphertext = true ->
  length cyphertext = length plaintext ->
  (CanCypherAndLegendMakePlain (Some cyphertext) (Some m) (Some plaintext) true = true
   <-> forall i c p, cyphertext !! i = Some c -> plaintext !! i = Some p ->
                     decodes_at m c p).
Proof.
  intros Hm Hcs Hlen. unfold CanCypherAndLegendMakePlain.
  rewrite Hlen, Nat.eqb_refl. simpl.
  rewrite negb_true_iff, (canmap_loop_complete m _ _ false Hm Hcs Hlen).
  rewrite Forall2_same_length_lookup. intuition.
Qed.

Lemma CanCypherAndLegendMakePlain_complete_iff_witness :
  legend_ok shift_legend = true
  /\ cstring_ok (chars "Hal") = true
  /\ length (chars "Hal") = length (chars "ibm")
  /\ (CanCypherAndLegendMakePlain (Some (chars "Hal")) (Some shift_legend)
        (Some (chars "ibm")) true = true
      <-> forall i c p, chars "Hal" !! i = Some c -> chars "ibm" !! i = Some p ->
                        decodes_at shift_legend c p).
Proof.
  split; [reflexivity |]. split; [reflexivity |]. split; [reflexivity |].
  apply (CanCypherAndLegendMakePlain_complete_iff shift_legend (chars "Hal") (chars "ibm"));
    reflexivity.
Defined.

Lemma canmap_loop_complete_holes (m : legend) (cs ps : cstring) (mismatch : bool) :
  canmap_loop m true cs ps mismatch = false ->
  canmap_loop m false cs ps mismatch = false.
Proof.
  revert ps mismatch. induction cs as [|c cs IH]; intros [|p ps] mismatch;
    cbn [canmap_loop]; try tauto.
  rewrite andb_true_r, andb_false_r.
  destruct (CypherToPlainChar (Some m) (tolower c) =? 0); [discriminate |].
  apply IH.
Qed.

(** X11. Whatever a legend decodes completely it also accepts with holes
    allowed: a YES under [mustBeComplete] is a YES without it, for all
    arguments, NULL ones included. *)
Theorem CanCypherAndLegendMakePlain_complete_holes
    (cyphertext : option cstring) (map : option legend) (plaintext : option cstring) :
  CanCypherAndLegendMakePlain cyphertext map plaintext true = true ->
  CanCypherAndLegendMakePlain cyphertext map plaintext false = true.
Proof.
  destruct cyphertext as [c|], map as [m|], plaintext as [p|]; try discriminate.
  cbn [CanCypherAndLegendMakePlain].
  destruct (negb (length c =? length p)%nat); [discriminate |].
  rewrite !negb_true_iff. apply canmap_loop_complete_holes.
Qed.

Lemma CanCypherAndLegendMakePlain_complete_holes_witness :
  CanCypherAndLegendMakePlain (Some (chars "Hal")) (Some shift_legend)
    (Some (chars "ibm")) true = true
  /\ CanCypherAndLegendMakePlain (Some (chars "Hal")) (Some shift_legend)
       (Some (chars "ibm")) false = true.
Proof.
  split; [reflexivity |].
  apply (CanCypherAndLegendMakePlain_complete_holes
           (Some (chars "Hal")) (Some shift_legend) (Some (chars "ibm"))).
  reflexivity.
Defined.

(** ** What an incorporation does to the legend *)

Lemma slot_Some (m : legend) k v :
  slot m k = Some v -> 0 <= k < 26 /\ m !! Z.to_nat k = Some v.
Proof.
  unfold slot. destruct ((0 <=? k) && (k <? 26)) eqn:E; [| discriminate].
  apply andb_prop in E as [H1 H2]. apply Z.leb_le in H1. apply Z.ltb_lt in H2.
  intros H. split; [lia | exact H].
Qed.

Lemma slot_lookup (m : legend) k v :
  0 <= k < 26 -> m !! Z.to_nat k = Some v -> slot m k = Some v.
Proof.
  intros Hk H. unfold slot.
  replace ((0 <=? k) && (k <? 26)) with true; [exact H |].
  symmetry. apply andb_true_intro. split; [apply Z.leb_le | apply Z.ltb_lt]; lia.
Qed.

(** The loop keeps the number of slots and the value of every assigned
    slot, whether it ends in success or not. *)
Lemma incorporate_loop_extends (cs ps : cstring) (m m' : legend) ok :
  incorporate_loop cs ps m = Some (ok, m') ->
  length m' = length m
  /\ forall k v, m !! k = Some v -> v <> 0 -> m' !! k = Some v.
Proof.
  revert ps m. induction cs as [|c cs IH]; intros [|p ps] m; cbn [incorporate_loop];
    try (intros [= _ <-]; auto; fail).
  destruct (_ || _); [intros [= _ <-]; auto |].
  destruct (_ && _); [apply IH |].
  destruct (slot m (tolower c - 97)) as [v0|] eqn:Hs; [| discriminate].
  apply slot_Some in Hs as [_ Hs].
  destruct (Z.eqb_spec v0 0) as [-> | Hv0]; simpl.
  - destruct (existsb _ m); [intros [= _ <-]; auto |].
    intros H. apply IH in H as [Hlen Hext]. rewrite length_insert in Hlen.
    split; [exact Hlen |]. intros k v Hk Hv. apply Hext; [| exact Hv].
    rewrite list_lookup_insert_ne; [exact Hk | congruence].
  - destruct (Z.eqb_spec v0 (tolower p)) as [-> | _]; simpl;
      [| intros [= _ <-]; auto].
    rewrite list_insert_id by exact Hs. apply IH.
Qed.

(** X12. Whether it succeeds or fails, [IncorporateCypherToPlainMapInLegend]
    only fills unassigned slots: the legend keeps its number of slots and
    every assigned slot keeps its value. *)
Theorem Incorporate_only_extends (c p : cstring) (m m' : legend) ok :
  IncorporateCypherToPlainMapInLegend (Some c) (Some p) (Some m) = Some (ok, Some m') ->
  length m' = length m
  /\ forall k v, m !! k = Some v -> v <> 0 -> m' !! k = Some v.
Proof.
  unfold IncorporateCypherToPlainMapInLegend.
  destruct (negb _); [intros [= _ <-]; auto |].
  destruct (incorporate_loop c p m) as [[ok' m'']|] eqn:E; [| discriminate].
  intros [= _ <-]. eapply incorporate_loop_extends, E.
Qed.

Lemma Incorporate_only_extends_witness :
  IncorporateCypherToPlainMapInLegend (Some (chars "ab")) (Some (chars "it")) (Some hint_c_t)
    = Some (false, Some (<[0%nat := 105]> hint_c_t))
  /\ length (<[0%nat := 105]> hint_c_t) = length hint_c_t
  /\ forall k v, hint_c_t !! k = Some v -> v <> 0 ->
                 <[0%nat := 105]> hint_c_t !! k = Some v.
Proof.
  split; [reflexivity |].
  apply (Incorporate_only_extends (chars "ab") (chars "it") hint_c_t _ false).
  reflexivity.
Defined.

(** The <ctype.h> predicates as linear arithmetic, for [lia]. *)
Ltac ctype_props :=
  unfold tolower in *;
  repeat match goal with
         | |- context [if isupper ?c then _ else _] => destruct (isupper c) eqn:?
         | H : context [if isupper ?c then _ else _] |- _ => destruct (isupper c) eqn:?
         end;
  unfold isalpha, ispunct, islower, isupper, is_char in *;
  rewrite ?andb_true_iff, ?orb_true_iff, ?andb_false_iff, ?orb_false_iff,
          ?Z.leb_le, ?Z.leb_gt in *;
  lia.

Lemma tolower_letter_slot c :
  (isalpha c || ispunct c) = true -> ispunct (tolower c) = false ->
  0 <= tolower c - 97 < 26.
Proof. intros H1 H2. ctype_props. Qed.

Lemma tolower_nonzero p : p <> 0 -> tolower p <> 0.
Proof. intros H. ctype_props. Qed.

Lemma incorporate_loop_defined (cs ps : cstring) (m : legend) :
  length m = 26%nat -> forallb (fun c => isalpha c || ispunct c) cs = true ->
  exists ok m', incorporate_loop cs ps m = Some (ok, m').
Proof.
  revert ps m. induction cs as [|c cs IH]; intros [|p ps] m Hm Hcs;
    cbn [incorporate_loop]; eauto.
  cbn [forallb] in Hcs. apply andb_prop in Hcs as [Hc Hcs].
  destruct (ispunct (tolower c) && negb (ispunct (tolower p))
            || negb (ispunct (tolower c)) && ispunct (tolower p)) eqn:E1; [eauto |].
  destruct (ispunct (tolower c) && ispunct (tolower p)) eqn:E2; [now apply IH |].
  assert (ispunct (tolower c) = false) as Hnp.
  { destruct (ispunct (tolower c)), (ispunct (tolower p)); simpl in *; congruence. }
  pose proof (tolower_letter_slot c Hc Hnp) as Hk.
  destruct (lookup_lt_is_Some_2 m (Z.to_nat (tolower c - 97))) as [v Hv]; [lia |].
  rewrite (slot_lookup m _ v Hk Hv).
  destruct (if negb (v =? 0) then _ else _); [eauto |].
  apply IH; [now rewrite length_insert | exact Hcs].
Qed.

(** X13. On a 26-slot legend and a cyphertext made of letters and
    punctuation, [IncorporateCypherToPlainMapInLegend] never reads or
    writes outside the 26 slots, whatever the plaintext is. *)
Theorem Incorporate_stays_in_legend (c p : cstring) (m : legend) :
  length m = 26%nat ->
  forallb (fun x => isalpha x || ispunct x) c = true ->
  exists ok m',
    IncorporateCypherToPlainMapInLegend (Some c) (Some p) (Some m) = Some (ok, Some m').
Proof.
  intros Hm Hc. unfold IncorporateCypherToPlainMapInLegend.
  destruct (negb _); [eauto |].
  destruct (incorporate_loop_defined c p m Hm Hc) as (ok & m' & ->). eauto.
Qed.

Lemma Incorporate_stays_in_legend_witness :
  length hint_c_t = 26%nat
  /\ forallb (fun x => isalpha x || ispunct x) (chars "Don't") = true
  /\ exists ok m',
       IncorporateCypherToPlainMapInLegend (Some (chars "Don't")) (Some (chars "12 45"))
         (Some hint_c_t) = Some (ok, Some m').
Proof.
  split; [reflexivity |]. split; [reflexivity |].
  apply (Incorporate_stays_in_legend (chars "Don't") (chars "12 45") hint_c_t);
    reflexivity.
Defined.

(** After a successful loop every position is written in the final legend. *)
Lemma incorporate_loop_written (cs ps : cstring) (m m' : legend) :
  length cs = length ps -> cstring_ok ps = true ->
  incorporate_loop cs ps m = Some (true, m') ->
  Forall2 (written_at m') cs ps.
Proof.
  revert ps m. induction cs as [|c cs IH]; intros [|p ps] m Hlen Hps;
    try discriminate; cbn [incorporate_loop]; [constructor |].
  cbn [cstring_ok forallb] in Hps. apply andb_prop in Hps as [Hp Hps].
  apply negb_true_iff, Z.eqb_neq in Hp.
  assert (tolower p <> 0) as Hpc by now apply tolower_nonzero.
  simpl in Hlen.
  destruct (ispunct (tolower c) && negb (ispunct (tolower p))
            || negb (ispunct (tolower c)) && ispunct (tolower p)) eqn:E1; [discriminate |].
  destruct (ispunct (tolower c) && ispunct (tolower p)) eqn:E2.
  - intros H. constructor; [| eapply IH; eauto with lia].
    left. now apply andb_prop in E2.
  - assert (ispunct (tolower c) = false /\ ispunct (tolower p) = false) as [Hc' Hp'].
    { destruct (ispunct (tolower c)), (ispunct (tolower p)); simpl in *; auto; discriminate. }
    destruct (slot m (tolower c - 97)) as [v0|] eqn:Hs; [| discriminate].
    apply slot_Some in Hs as [Hk Hs].
    assert (forall m1, m1 !! Z.to_nat (tolower c - 97) = Some (tolower p) ->
                       incorporate_loop cs ps m1 = Some (true, m') ->
                       Forall2 (written_at m') (c :: cs) (p :: ps)) as Hstep.
    { intros m1 Hm1 H. constructor; [| eapply IH; eauto with lia].
      right. split; [exact Hc' |]. split; [exact Hp' |].
      apply slot_lookup; [exact Hk |].
      eapply incorporate_loop_extends; eauto. }
    destruct (Z.eqb_spec v0 0) as [-> | Hv0]; simpl.
    + destruct (existsb _ m); [discriminate |].
      apply Hstep. apply list_lookup_insert_eq. eapply lookup_lt_Some, Hs.
    + destruct (Z.eqb_spec v0 (tolower p)) as [-> | _]; simpl; [| discriminate].
      rewrite list_insert_id by exact Hs. apply Hstep, Hs.
Qed.

(** A legend in which every position is written incorporates the pair
    again without a change. *)
Lemma incorporate_loop_again (cs ps : cstring) (m : legend) :
  cstring_ok ps = true ->
  Forall2 (written_at m) cs ps ->
  incorporate_loop cs ps m = Some (true, m).
Proof.
  intros Hps H. induction H as [|c p cs ps Hw _ IH]; [reflexivity |].
  cbn [cstring_ok forallb] in Hps. apply andb_prop in Hps as [Hp Hps].
  apply negb_true_iff, Z.eqb_neq in Hp.
  assert (tolower p <> 0) as Hpc by now apply tolower_nonzero.
  cbn [incorporate_loop].
  destruct Hw as [[-> ->] | (-> & -> & Hs)]; simpl; [now apply IH |].
  rewrite Hs. apply slot_Some in Hs as [_ Hs].
  replace (tolower p =? 0) with false by (symmetry; now apply Z.eqb_neq).
  simpl. rewrite Z.eqb_refl. simpl.
  rewrite list_insert_id by exact Hs. now apply IH.
Qed.

(** X14. A successful incorporation is stable: incorporating the same pair
    of strings again succeeds and leaves the legend as the first call made
    it. *)
Theorem Incorporate_twice (c p : cstring) (m m' : legend) :
  cstring_ok p = true ->
  IncorporateCypherToPlainMapInLegend (Some c) (Some p) (Some m) = Some (true, Some m') ->
  IncorporateCypherToPlainMapInLegend (Some c) (Some p) (Some m') = Some (true, Some m').
Proof.
  intros Hp. unfold IncorporateCypherToPlainMapInLegend.
  destruct (Nat.eqb_spec (length c) (length p)) as [Hlen | _]; [simpl | discriminate].
  destruct (incorporate_loop c p m) as [[ok m1]|] eqn:E; [| discriminate].
  intros [= -> ->].
  now rewrite (incorporate_loop_again c p m' Hp (incorporate_loop_written c p m m' Hlen Hp E)).
Qed.

Lemma Incorporate_twice_witness :
  cstring_ok (chars "an") = true
  /\ IncorporateCypherToPlainMapInLegend (Some (chars "ab")) (Some (chars "an"))
       (Some hint_c_t)
     = Some (true, Some (<[0%nat := 97]> (<[1%nat := 110]> hint_c_t)))
  /\ IncorporateCypherToPlainMapInLegend (Some (chars "ab")) (Some (chars "an"))
       (Some (<[0%nat := 97]> (<[1%nat := 110]> hint_c_t)))
     = Some (true, Some (<[0%nat := 97]> (<[1%nat := 110]> hint_c_t))).
Proof.
  split; [reflexivity |]. split; [reflexivity |].
  apply (Incorporate_twice (chars "ab") (chars "an") hint_c_t); reflexivity.
Defined.

(** ** A successful incorporation makes the legend decode the word *)

Lemma text_ok_cstring (s : cstring) : text_ok s = true -> cstring_ok s = true.
Proof.
  unfold text_ok, cstring_ok. rewrite !forallb_forall.
  intros H x Hx. specialize (H x Hx). now apply andb_prop in H.
Qed.

Lemma text_ok_chars (s : cstring) : text_ok s = true -> forallb is_char s = true.
Proof.
  unfold text_ok. rewrite !forallb_forall.
  intros H x Hx. specialize (H x Hx). now apply andb_prop in H.
Qed.

Lemma is_char_tolower p : is_char p = true -> is_char (tolower p) = true.
Proof. intros H. ctype. Qed.

Lemma legend_ok_insert (m : legend) k v :
  legend_ok m = true -> is_char v = true -> legend_ok (<[k := v]> m) = true.
Proof.
  unfold legend_ok. intros H Hv. apply andb_prop in H as [Hlen Hch].
  apply andb_true_intro. split; [now rewrite length_insert |].
  rewrite forallb_forall in *. intros x Hx.
  apply list_elem_of_In, list_elem_of_lookup_1 in Hx as [i Hi].
  apply list_lookup_insert_Some in Hi as [(_ & <- & _) | (_ & Hi)]; [exact Hv |].
  apply Hch, list_elem_of_In. eapply list_elem_of_lookup_2, Hi.
Qed.

Lemma incorporate_loop_legend_ok (cs ps : cstring) (m m' : legend) ok :
  legend_ok m = true -> forallb is_char ps = true ->
  incorporate_loop cs ps m = Some (ok, m') -> legend_ok m' = true.
Proof.
  revert ps m. induction cs as [|c cs IH]; intros [|p ps] m Hm Hps;
    cbn [incorporate_loop]; try (intros [= _ <-]; exact Hm).
  cbn [forallb] in Hps. apply andb_prop in Hps as [Hp Hps].
  destruct (_ && negb _ || _); [intros [= _ <-]; exact Hm |].
  destruct (_ && _); [now apply IH |].
  destruct (slot m (tolower c - 97)) as [v0|]; [| discriminate].
  destruct (if negb (v0 =? 0) then _ else _); [intros [= _ <-]; exact Hm |].
  apply IH; [| exact Hps]. apply legend_ok_insert; [exact Hm |].
  now apply is_char_tolower.
Qed.

Lemma written_at_decodes (m : legend) c p :
  p <> 0 -> written_at m c p ->
  (isalpha c = false -> tolower c = tolower p) ->
  decodes_at m c p.
Proof.
  intros Hp [[Hc _] | (Hc & _ & Hs)] Hagree; unfold decodes_at, legend_image.
  - assert (isalpha c = false) as Ha by ctype_props.
    rewrite Ha. exists c. split; [reflexivity | now apply Hagree].
  - apply slot_Some in Hs as [Hk Hs].
    assert (isalpha c = true) as Ha by ctype_props. rewrite Ha.
    rewrite (list_lookup_total_correct m _ _ Hs).
    replace (tolower p =? 0) with false
      by (symmetry; apply Z.eqb_neq; now apply tolower_nonzero).
    exists (tolower p). split; [reflexivity | apply tolower_idem].
Qed.

Lemma incorporate_loop_decodes (c p : cstring) (m m' : legend) :
  legend_ok m = true -> cstring_ok c = true -> text_ok p = true ->
  length c = length p ->
  canmap_loop m false c p false = false ->
  incorporate_loop c p m = Some (true, m') ->
  legend_ok m' = true /\ canmap_loop m' true c p false = false.
Proof.
  intros Hm Hc Hp Hlen Hholes E. pose proof (text_ok_cstring p Hp) as Hp0.
  assert (legend_ok m' = true) as Hm'
    by (eapply incorporate_loop_legend_ok; eauto using text_ok_chars).
  split; [exact Hm' |].
  apply (canmap_loop_complete m' c p false Hm' Hc Hlen). split; [reflexivity |].
  apply (canmap_loop_holes m c p false Hm Hc Hlen) in Hholes as [_ Hholes].
  pose proof (incorporate_loop_written c p m m' Hlen Hp0 E) as Hw.
  rewrite Forall2_same_length_lookup in *.
  destruct Hw as [_ Hw], Hholes as [_ Hholes]. split; [exact Hlen |].
  intros i x y Hx Hy. apply written_at_decodes; [| now apply (Hw i) |].
  - unfold cstring_ok in Hp0. rewrite forallb_forall in Hp0.
    specialize (Hp0 y ltac:(apply list_elem_of_In; eapply list_elem_of_lookup_2, Hy)).
    now apply negb_true_iff, Z.eqb_neq in Hp0.
  - intros Ha. apply (Hholes i x y Hx Hy). unfold legend_image. now rewrite Ha.
Qed.

(** X15. The step the word block attack relies on: when a candidate passes
    the test with holes and its incorporation succeeds, the resulting legend
    decodes the cyphertext completely to that candidate. *)
Theorem Incorporate_then_complete (c p : cstring) (m m' : legend) :
  legend_ok m = true -> cstring_ok c = true -> text_ok p = true ->
  CanCypherAndLegendMakePlain (Some c) (Some m) (Some p) false = true ->
  IncorporateCypherToPlainMapInLegend (Some c) (Some p) (Some m) = Some (true, Some m') ->
  legend_ok m' = true
  /\ CanCypherAndLegendMakePlain (Some c) (Some m') (Some p) true = true.
Proof.
  intros Hm Hc Hp.
  unfold CanCypherAndLegendMakePlain, IncorporateCypherToPlainMapInLegend.
  destruct (Nat.eqb_spec (length c) (length p)) as [Hlen | _]; [simpl | discriminate].
  rewrite !negb_true_iff. intros Hholes.
  destruct (incorporate_loop c p m) as [[ok m1]|] eqn:E; [| discriminate].
  intros [= -> ->].
  exact (incorporate_loop_decodes c p m m' Hm Hc Hp Hlen Hholes E).
Qed.

Lemma Incorporate_then_complete_witness :
  legend_ok hint_c_t = true /\ cstring_ok (chars "Cab") = true
  /\ text_ok (chars "tin") = true
  /\ CanCypherAndLegendMakePlain (Some (chars "Cab")) (Some hint_c_t)
       (Some (chars "tin")) false = true
  /\ IncorporateCypherToPlainMapInLegend (Some (chars "Cab")) (Some (chars "tin"))
       (Some hint_c_t)
     = Some (true, Some (<[0%nat := 105]> (<[1%nat := 110]> hint_c_t)))
  /\ legend_ok (<[0%nat := 105]> (<[1%nat := 110]> hint_c_t)) = true
  /\ CanCypherAndLegendMakePlain (Some (chars "Cab"))
       (Some (<[0%nat := 105]> (<[1%nat := 110]> hint_c_t)))
       (Some (chars "tin")) true = true.
Proof.
  do 5 (split; [reflexivity |]).
  apply (Incorporate_then_complete (chars "Cab") (chars "tin") hint_c_t); reflexivity.
Defined.

(** ** The answers collected by the solvers *)

Section Answers.

(** A relation between the answers before and after, which holds when
    nothing happens, composes, and holds when a new answer is saved. *)
Variable R : list cstring -> list cstring -> Prop.
Hypothesis R_refl : forall l, R l l.
Hypothesis R_trans : forall a b c, R a b -> R b c -> R a c.
Hypothesis R_save :
  forall decoded l, is_new_plainText decoded l = true -> R l (l ++ [decoded]).

Variable words : list cypherword.
Variable initialCyphertext : cstring.
Variable wall_clock : nat -> Z.

Lemma save_if_new_answers decoded st :
  R (plainText st)
    (plainText (if is_new_plainText decoded (plainText st)
                then save_plainText decoded st else st)).
Proof.
  destruct (is_new_plainText decoded (plainText st)) eqn:E; [now apply R_save | apply R_refl].
Qed.

Lemma TestFreqAttackLegend_answers map st :
  R (plainText st) (plainText (TestFreqAttackLegend words initialCyphertext map st)).
Proof.
  unfold TestFreqAttackLegend. destruct map as [m|]; [| apply R_refl].
  destruct (count_hits (Some m) words 0 false) as [hits missed].
  destruct (_ || _); [| apply R_refl].
  cbn [CypherToPlainString]. apply save_if_new_answers.
Qed.

Lemma word_block_loop_answers deeper cypherwordIndex cw startTime maxSec
    possibles map st error map' st' :
  (forall m t s e1 m1 s1, deeper m t s = Some (e1, m1, s1) ->
                          R (plainText s) (plainText s1)) ->
  word_block_loop words initialCyphertext wall_clock deeper cypherwordIndex cw
    startTime maxSec possibles map st = Some (error, map', st') ->
  R (plainText st) (plainText st').
Proof.
  intros Hdeeper. revert map st.
  induction possibles as [|cand rest IH]; intros map st; cbn [word_block_loop].
  - intros [= _ _ <-]. apply R_refl.
  - unfold time.
    assert (forall e m1 s1,
      R (plainText st) (plainText s1) ->
      (if (if wall_clock (ticks s1) - startTime >=? maxSec then true else e)
       then Some (true, m1, tick s1)
       else word_block_loop words initialCyphertext wall_clock deeper cypherwordIndex
              cw startTime maxSec rest m1 (tick s1)) = Some (error, map', st') ->
      R (plainText st) (plainText st')) as Hend.
    { intros e m1 s1 Hs1.
      destruct (if _ >=? _ then true else e).
      - intros [= _ _ <-]. exact Hs1.
      - intros H. apply IH in H. eapply R_trans; [exact Hs1 | exact H]. }
    destruct (CanCypherAndLegendMakePlain _ _ _ _); [| apply Hend, R_refl].
    destruct (cypherwordIndex =? wordCount words - 1).
    + destruct (IncorporateCypherToPlainMapInLegend _ _ _) as [[[|] m1]|];
        [| apply Hend, R_refl | discriminate].
      destruct (CypherToPlainString m1 (Some initialCyphertext)) as [decoded|];
        [| apply Hend, R_refl].
      apply Hend. apply (save_if_new_answers decoded (count_test st)).
    + destruct (_ <=? 0); [intros [= _ _ <-]; apply R_refl |].
      destruct (DuplicateLegend map) as [nextGenMap|];
        [| intros [= _ _ <-]; apply R_refl].
      destruct (IncorporateCypherToPlainMapInLegend _ _ _) as [[[|] m1]|];
        [| apply Hend, R_refl | discriminate].
      destruct (deeper m1 _ _) as [[[e1 m2] s3]|] eqn:Hd; [| discriminate].
      apply Hend. apply Hdeeper in Hd. exact Hd.
Qed.

Lemma DoWordBlockAttack_depth_answers fuel cypherwordIndex map maxSec st ok map' st' :
  DoWordBlockAttack_depth words initialCyphertext wall_clock fuel
    cypherwordIndex map maxSec st = Some (ok, map', st') ->
  R (plainText st) (plainText st').
Proof.
  revert cypherwordIndex map maxSec st ok map' st'.
  induction fuel as [|fuel IH]; intros idx map maxSec st ok map' st';
    cbn [DoWordBlockAttack_depth]; [discriminate |].
  unfold time. destruct (maxSec <=? 0); [intros [= _ _ <-]; apply R_refl |].
  destruct (word_at words idx) as [w|]; [| discriminate].
  destruct (word_block_loop _ _ _ _ _ _ _ _ _ _ _) as [[[error m1] s1]|] eqn:E;
    [| discriminate].
  intros [= _ _ <-].
  apply word_block_loop_answers in E; [exact E |].
  intros m t s e1 m2 s2 H. eapply IH, H.
Qed.

End Answers.

Lemma is_new_distinct decoded (l : list cstring) :
  is_new_plainText decoded l = true ->
  distinct_answers l -> distinct_answers (l ++ [decoded]).
Proof.
  intros Hnew Hl i j a b Hij Ha Hb.
  apply lookup_snoc_Some in Hb as [[Hj Hb] | [Hj ->]].
  - rewrite lookup_app_l in Ha by lia. exact (Hl i j a b Hij Ha Hb).
  - rewrite lookup_app_l in Ha by lia. intros Hcmp.
    assert (already_found b l) as Hfound
      by (exists a; split; [eapply list_elem_of_lookup_2, Ha | exact Hcmp]).
    apply is_new_plainText_spec in Hfound. congruence.
Qed.

(** X16. The solvers only append to the answers: after the test of a legend
    by the frequency attack, and after a call of the word block attack at
    any depth, the answers found before are still there, in their order, at
    the head of the list. *)
Theorem solvers_only_append (words : list cypherword) (initialCyphertext : cstring)
    (wall_clock : nat -> Z) (map : option legend) (st : solver_state) :
  plainText st `prefix_of`
    plainText (TestFreqAttackLegend words initialCyphertext map st)
  /\ forall cypherwordIndex maxSec ok map' st',
       DoWordBlockAttack words initialCyphertext wall_clock cypherwordIndex map maxSec st
         = Some (ok, map', st') ->
       plainText st `prefix_of` plainText st'.
Proof.
  assert (forall decoded (l : list cstring),
            is_new_plainText decoded l = true -> l `prefix_of` l ++ [decoded]) as Hsave
    by (intros; now apply prefix_app_r).
  split.
  - apply (TestFreqAttackLegend_answers prefix); [reflexivity | exact Hsave].
  - intros idx maxSec ok map' st'.
    apply (DoWordBlockAttack_depth_answers prefix);
      [reflexivity | intros a b c; apply transitivity | exact Hsave].
Qed.

(** X17. The solvers never store the same text twice: if no two answers
    compare equal before the test of a legend by the frequency attack, or
    before a call of the word block attack, none do after it. *)
Theorem solvers_keep_answers_distinct (words : list cypherword)
    (initialCyphertext : cstring) (wall_clock : nat -> Z)
    (map : option legend) (st : solver_state) :
  distinct_answers (plainText st) ->
  distinct_answers (plainText (TestFreqAttackLegend words initialCyphertext map st))
  /\ forall cypherwordIndex maxSec ok map' st',
       DoWordBlockAttack words initialCyphertext wall_clock cypherwordIndex map maxSec st
         = Some (ok, map', st') ->
       distinct_answers (plainText st').
Proof.
  intros Hst.
  pose (R := fun l l' : list cstring => distinct_answers l -> distinct_answers l').
  assert (forall l, R l l) as Hrefl by (intros l H; exact H).
  assert (forall a b c, R a b -> R b c -> R a c) as Htrans
    by (intros a b c Hab Hbc H; apply Hbc, Hab, H).
  assert (forall decoded l, is_new_plainText decoded l = true -> R l (l ++ [decoded]))
    as Hsave by (intros decoded l H Hl; now apply is_new_distinct).
  split.
  - apply (TestFreqAttackLegend_answers R Hrefl Hsave), Hst.
  - intros idx maxSec ok map' st' H.
    unfold DoWordBlockAttack in H.
    apply (DoWordBlockAttack_depth_answers R Hrefl Htrans Hsave) in H. apply H, Hst.
Qed.

Lemma solvers_keep_answers_distinct_witness :
  distinct_answers (plainText found_an_an)
  /\ plainText (TestFreqAttackLegend [word_is_an; word_is_an] (chars "ab ab")
                  (Some (<[0%nat := 97]> (<[1%nat := 110]> hint_c_t))) found_an_an)
     = [chars "an an"]
  /\ plainText (TestFreqAttackLegend [word_is_an; word_is_an] (chars "ab ab")
                  (Some (<[0%nat := 105]> (<[1%nat := 115]> hint_c_t))) found_an_an)
     = [chars "an an"; chars "is is"]
  /\ distinct_answers
       (plainText (TestFreqAttackLegend [word_is_an; word_is_an] (chars "ab ab")
                     (Some (<[0%nat := 105]> (<[1%nat := 115]> hint_c_t))) found_an_an))
  /\ exists ok map' st',
       DoWordBlockAttack [word_is_an; word_is_an] (chars "ab ab") (fun _ => 0) 0
         (Some hint_c_t) 20 found_an_an = Some (ok, map', st')
       /\ plainText st' = [chars "an an"; chars "is is"]
       /\ distinct_answers (plainText st').
Proof.
  assert (distinct_answers (plainText found_an_an)) as H0.
  { intros i [|[|j]] a b Hij Ha Hb; [lia | discriminate Hb | discriminate Hb]. }
  split; [exact H0 |]. split; [reflexivity |]. split; [reflexivity |].
  split.
  - apply (solvers_keep_answers_distinct [word_is_an; word_is_an] (chars "ab ab")
             (fun _ => 0) (Some (<[0%nat := 105]> (<[1%nat := 115]> hint_c_t)))
             found_an_an H0).
  - eexists _, _, _. split; [vm_compute; reflexivity |]. split; [reflexivity |].
    eapply (proj2 (solvers_keep_answers_distinct [word_is_an; word_is_an]
                     (chars "ab ab") (fun _ => 0) (Some hint_c_t) found_an_an H0) 0 20).
    vm_compute. reflexivity.
Defined.

(** ** The answers of the word block attack are answers *)

Lemma extends_refl (m : legend) : extends m m.
Proof. split; auto. Qed.

Lemma extends_trans (m1 m2 m3 : legend) :
  extends m1 m2 -> extends m2 m3 -> extends m1 m3.
Proof.
  intros [L12 H12] [L23 H23]. split; [congruence |].
  intros k v Hk Hv. apply H23; [apply H12 |]; assumption.
Qed.

Lemma legend_ok_length (m : legend) : legend_ok m = true -> length m = 26%nat.
Proof. unfold legend_ok. intros H. apply andb_prop in H as [H _]. now apply Nat.eqb_eq. Qed.

Lemma decodes_at_extends (m m' : legend) c p :
  length m = 26%nat -> extends m m' -> decodes_at m c p -> decodes_at m' c p.
Proof.
  intros Hlen [_ Hext] (q & Hq & Hqp). exists q. split; [| exact Hqp].
  unfold legend_image in *. cbv zeta in *.
  destruct (isalpha c) eqn:Ha; [| exact Hq].
  destruct (lookup_lt_is_Some_2 m (Z.to_nat (tolower c - 97))) as [v Hv];
    [rewrite Hlen; ctype_props |].
  rewrite (list_lookup_total_correct m _ v Hv) in Hq.
  destruct (Z.eqb_spec v 0) as [E | Hv0]; [discriminate |].
  rewrite (list_lookup_total_correct m' _ v (Hext _ _ Hv Hv0)).
  now replace (v =? 0) with false by (symmetry; now apply Z.eqb_neq).
Qed.

(** A legend with more slots assigned still decodes what was decoded. *)
Lemma decrypts_extends (m m' : legend) (w : cypherword) :
  legend_ok m = true -> legend_ok m' = true -> extends m m' ->
  cstring_ok (cyphertext w) = true ->
  decrypts m w -> decrypts m' w.
Proof.
  intros Hm Hm' Hext Hc (p & Hp & Hcan). exists p. split; [exact Hp |].
  revert Hcan. unfold CanCypherAndLegendMakePlain.
  destruct (Nat.eqb_spec (length (cyphertext w)) (length p)) as [Hlen | _];
    [simpl | discriminate].
  rewrite !negb_true_iff.
  rewrite (canmap_loop_complete m _ _ false Hm Hc Hlen),
          (canmap_loop_complete m' _ _ false Hm' Hc Hlen).
  intros [_ H]. split; [reflexivity |].
  eapply Forall2_impl; [exact H |].
  intros c q. apply decodes_at_extends; [now apply legend_ok_length | exact Hext].
Qed.

Lemma is_answer_weaken (words : list cypherword) (initialCyphertext : cstring)
    (index : Z) (m1 m2 : legend) (e : cstring) :
  extends m1 m2 ->
  is_answer words initialCyphertext index m2 e ->
  is_answer words initialCyphertext index m1 e.
Proof.
  intros H12 (m' & Hok & Hext & Hdec & He). exists m'.
  repeat split; try assumption; eapply extends_trans; eauto.
Qed.

Lemma Incorporate_legend (c p : cstring) (m : legend) ok mo :
  IncorporateCypherToPlainMapInLegend (Some c) (Some p) (Some m) = Some (ok, mo) ->
  exists m1, mo = Some m1
    /\ extends m m1
    /\ (legend_ok m = true -> text_ok p = true -> legend_ok m1 = true).
Proof.
  unfold IncorporateCypherToPlainMapInLegend.
  destruct (negb _).
  - intros [= _ <-]. exists m. split; [reflexivity |]. split; [apply extends_refl | auto].
  - destruct (incorporate_loop c p m) as [[ok' m1]|] eqn:E; [| discriminate].
    intros [= _ <-]. exists m1. split; [reflexivity |].
    split; [eapply incorporate_loop_extends, E |].
    intros Hm Hp. eapply incorporate_loop_legend_ok; eauto using text_ok_chars.
Qed.

Lemma Incorporate_decodes (c p : cstring) (m m1 : legend) :
  legend_ok m = true -> cstring_ok c = true -> text_ok p = true ->
  CanCypherAndLegendMakePlain (Some c) (Some m) (Some p) false = true ->
  IncorporateCypherToPlainMapInLegend (Some c) (Some p) (Some m) = Some (true, Some m1) ->
  CanCypherAndLegendMakePlain (Some c) (Some m1) (Some p) true = true.
Proof.
  intros Hm Hc Hp.
  unfold CanCypherAndLegendMakePlain, IncorporateCypherToPlainMapInLegend.
  destruct (Nat.eqb_spec (length c) (length p)) as [Hlen | _]; [simpl | discriminate].
  rewrite !negb_true_iff. intros Hholes.
  destruct (incorporate_loop c p m) as [[ok m2]|] eqn:E; [| discriminate].
  intros [= -> ->].
  exact (proj2 (incorporate_loop_decodes c p m m1 Hm Hc Hp Hlen Hholes E)).
Qed.

Section Soundness.

Variable words : list cypherword.
Variable initialCyphertext : cstring.
Variable wall_clock : nat -> Z.
Hypothesis Hwords : words_ok words = true.

Lemma word_at_ok k w :
  word_at words k = Some w ->
  0 <= k < wordCount words
  /\ cstring_ok (cyphertext w) = true
  /\ forall p, p ∈ possiblePlaintext w -> text_ok p = true.
Proof.
  unfold word_at. destruct ((0 <=? k) && (k <? wordCount words)) eqn:E; [| discriminate].
  apply andb_prop in E as [H1 H2]. apply Z.leb_le in H1. apply Z.ltb_lt in H2.
  intros Hw. split; [lia |].
  unfold words_ok in Hwords. rewrite forallb_forall in Hwords.
  specialize (Hwords w ltac:(apply list_elem_of_In; eapply list_elem_of_lookup_2, Hw)).
  apply andb_prop in Hwords as [Hc Hp]. split; [exact Hc |].
  intros p Hin. rewrite forallb_forall in Hp. now apply Hp, list_elem_of_In.
Qed.

(** What a call is to deliver: the answers grow by answers. *)
Definition delivers (index : Z) (m : legend) (st st' : solver_state) : Prop :=
  exists new,
    plainText st' = plainText st ++ new
    /\ forall e, e ∈ new -> is_answer words initialCyphertext index m e.

Lemma word_block_loop_sound deeper cypherwordIndex w startTime maxSec :
  word_at words cypherwordIndex = Some w ->
  (forall m t s e1 m1 s1, legend_ok m = true ->
     deeper (Some m) t s = Some (e1, m1, s1) -> delivers (cypherwordIndex + 1) m s s1) ->
  forall possibles map st error map' st',
    (forall p, p ∈ possibles -> p ∈ possiblePlaintext w) ->
    legend_ok map = true ->
    word_block_loop words initialCyphertext wall_clock deeper cypherwordIndex
      (cyphertext w) startTime maxSec possibles (Some map) st = Some (error, map', st') ->
    delivers cypherwordIndex map st st'.
Proof.
  intros Hw Hdeeper.
  destruct (word_at_ok _ _ Hw) as (Hidx & Hcw & Hcands).
  induction possibles as [|cand rest IH]; intros map st error map' st' Hin Hmap;
    cbn [word_block_loop].
  - intros [= _ _ <-]. exists []. split; [now rewrite app_nil_r | intros e He; inversion He].
  - unfold time.
    assert (cand ∈ possiblePlaintext w) as Hcand by (apply Hin; left).
    pose proof (Hcands cand Hcand) as Hcand_ok.
    assert (forall e m1 s1,
      legend_ok m1 = true -> extends map m1 -> delivers cypherwordIndex map st s1 ->
      (if (if wall_clock (ticks s1) - startTime >=? maxSec then true else e)
       then Some (true, Some m1, tick s1)
       else word_block_loop words initialCyphertext wall_clock deeper cypherwordIndex
              (cyphertext w) startTime maxSec rest (Some m1) (tick s1))
      = Some (error, map', st') ->
      delivers cypherwordIndex map st st') as Hend.
    { intros e m1 s1 Hm1 Hext (new1 & Hs1 & Hnew1).
      destruct (if _ >=? _ then true else e).
      - intros [= _ _ <-]. exists new1. split; [exact Hs1 | exact Hnew1].
      - intros H. apply IH in H as (new2 & Hs2 & Hnew2);
          [| intros p Hp; apply Hin; now right | exact Hm1].
        exists (new1 ++ new2). split.
        + rewrite Hs2. cbn [tick plainText]. rewrite Hs1. now rewrite app_assoc.
        + intros e' He'. apply elem_of_app in He' as [He' | He']; [now apply Hnew1 |].
          eapply is_answer_weaken; [exact Hext | now apply Hnew2]. }
    assert (delivers cypherwordIndex map st (count_test st)) as Hnone.
    { exists []. split; [now rewrite app_nil_r | intros e He; inversion He]. }
    destruct (CanCypherAndLegendMakePlain _ _ _ _) eqn:Hcan;
      [| apply Hend; [exact Hmap | apply extends_refl | exact Hnone]].
    destruct (Z.eqb_spec cypherwordIndex (wordCount words - 1)) as [Hlast | Hlast].
    + destruct (IncorporateCypherToPlainMapInLegend _ _ _) as [[ok mo]|] eqn:Hinc;
        [| discriminate].
      destruct (Incorporate_legend _ _ _ _ _ Hinc) as (m1 & -> & Hext & Hok).
      specialize (Hok Hmap Hcand_ok).
      destruct ok; [| apply Hend; [exact Hok | exact Hext | exact Hnone]].
      cbn [CypherToPlainString].
      apply Hend; [exact Hok | exact Hext |].
      set (decoded := List.map (CypherToPlainChar (Some m1)) initialCyphertext).
      destruct (is_new_plainText decoded (plainText (count_test st)));
        [| exact Hnone].
      exists [decoded]. split; [reflexivity |].
      intros e He. apply list_elem_of_singleton in He as ->.
      exists m1. split; [exact Hok |]. split; [exact Hext |]. split; [| reflexivity].
      intros k w' Hk Hw'. destruct (word_at_ok _ _ Hw') as (Hk' & _ & _).
      assert (k = cypherwordIndex) as -> by lia.
      assert (w' = w) as -> by congruence.
      exists cand. split; [exact Hcand |].
      exact (Incorporate_decodes (cyphertext w) cand map m1 Hmap Hcw Hcand_ok Hcan Hinc).
    + destruct (_ <=? 0).
      { intros [= _ _ <-]. exact Hnone. }
      cbn [DuplicateLegend].
      assert (SetLegendToLegend (<[0%nat := 97]> (replicate 26 0)) map = map) as ->.
      { pose proof (DuplicateLegend_copy map (legend_ok_length map Hmap)) as Hd.
        cbn [DuplicateLegend] in Hd. congruence. }
      destruct (IncorporateCypherToPlainMapInLegend _ _ _) as [[ok mo]|] eqn:Hinc;
        [| discriminate].
      destruct (Incorporate_legend _ _ _ _ _ Hinc) as (m1 & -> & Hext & Hok).
      specialize (Hok Hmap Hcand_ok).
      destruct ok; [| apply Hend; [exact Hmap | apply extends_refl | exact Hnone]].
      destruct (deeper (Some m1) _ _) as [[[e1 m2] s3]|] eqn:Hd; [| discriminate].
      apply Hend; [exact Hmap | apply extends_refl |].
      apply (Hdeeper m1 _ _ _ _ _ Hok) in Hd as (new & Hs3 & Hnew).
      exists new. split; [exact Hs3 |].
      intros e He. destruct (Hnew e He) as (m3 & Hok3 & Hext3 & Hdec3 & He3).
      exists m3. split; [exact Hok3 |].
      split; [eapply extends_trans; eauto |]. split; [| exact He3].
      intros k w' Hk Hw'.
      destruct (Z.eq_dec k cypherwordIndex) as [-> | Hne].
      * assert (w' = w) as -> by congruence.
        apply (decrypts_extends m1 m3); try assumption.
        exists cand. split; [exact Hcand |].
        exact (Incorporate_decodes (cyphertext w) cand map m1 Hmap Hcw Hcand_ok Hcan Hinc).
      * apply (Hdec3 k w'); [lia | exact Hw'].
Qed.

Lemma DoWordBlockAttack_depth_sound fuel cypherwordIndex map maxSec st ok map' st' :
  legend_ok map = true ->
  DoWordBlockAttack_depth words initialCyphertext wall_clock fuel
    cypherwordIndex (Some map) maxSec st = Some (ok, map', st') ->
  delivers cypherwordIndex map st st'.
Proof.
  revert cypherwordIndex map maxSec st ok map' st'.
  induction fuel as [|fuel IH]; intros idx map maxSec st ok map' st' Hmap;
    cbn [DoWordBlockAttack_depth]; [discriminate |].
  unfold time.
  assert (delivers idx map st (tick st)) as Hnone.
  { exists []. split; [now rewrite app_nil_r | intros e He; inversion He]. }
  destruct (maxSec <=? 0); [intros [= _ _ <-]; exact Hnone |].
  destruct (word_at words idx) as [w|] eqn:Hw; [| discriminate].
  destruct (word_block_loop _ _ _ _ _ _ _ _ _ _ _) as [[[error m1] s1]|] eqn:E;
    [| discriminate].
  intros [= _ _ <-].
  refine (word_block_loop_sound _ idx w _ maxSec Hw _ _ _ _ _ _ _ (fun p Hp => Hp) Hmap E).
  intros m t s e1 m2 s2 Hm H. exact (IH _ _ _ _ _ _ _ Hm H).
Qed.

End Soundness.

(** X18. The word block attack is sound. For cypherwords whose candidates
    are strings of characters and a 26-slot legend, every answer a call
    adds is the decoding of the whole cyphertext by a legend that extends
    the caller's legend and completely decodes every cypherword, from the
    one the call starts at to the last, to one of its candidates. *)
Theorem DoWordBlockAttack_sound (words : list cypherword) (initialCyphertext : cstring)
    (wall_clock : nat -> Z) (cypherwordIndex : Z) (map : legend) (maxSec : Z)
    (st st' : solver_state) ok map' :
  words_ok words = true -> legend_ok map = true ->
  DoWordBlockAttack words initialCyphertext wall_clock cypherwordIndex (Some map) maxSec st
    = Some (ok, map', st') ->
  exists new,
    plainText st' = plainText st ++ new
    /\ forall e, e ∈ new -> is_answer words initialCyphertext cypherwordIndex map e.
Proof.
  intros Hwords Hmap H. unfold DoWordBlockAttack in H.
  exact (DoWordBlockAttack_depth_sound words initialCyphertext wall_clock Hwords
           _ _ _ _ _ _ _ _ Hmap H).
Qed.

Lemma DoWordBlockAttack_sound_witness :
  words_ok [word_ab; word_ab] = true /\ legend_ok hint_c_t = true
  /\ exists ok map' st',
       DoWordBlockAttack [word_ab; word_ab] (chars "ab ab") (fun _ => 0) 0
         (Some hint_c_t) 20 no_answers = Some (ok, map', st')
       /\ plainText st' = [chars "an an"]
       /\ exists new,
            plainText st' = plainText no_answers ++ new
            /\ forall e, e ∈ new ->
                 is_answer [word_ab; word_ab] (chars "ab ab") 0 hint_c_t e.
Proof.
  split; [reflexivity |]. split; [reflexivity |].
  eexists _, _, _. split; [vm_compute; reflexivity |]. split; [reflexivity |].
  eapply (DoWordBlockAttack_sound [word_ab; word_ab] (chars "ab ab") (fun _ => 0) 0
            hint_c_t 20 no_answers); [reflexivity | reflexivity |].
  vm_compute. reflexivity.
Defined.

(** ** The encrypting legend *)

Lemma swap_slots_lookup (m : legend) (a b k : nat) :
  (a < length m)%nat -> (b < length m)%nat ->
  swap_slots m a b !! k
  = m !! (if decide (k = a) then b else if decide (k = b) then a else k).
Proof.
  intros Ha Hb. unfold swap_slots.
  destruct (lookup_lt_is_Some_2 m a Ha) as [x Hx].
  destruct (lookup_lt_is_Some_2 m b Hb) as [y Hy].
  rewrite (list_lookup_total_correct m a x Hx), (list_lookup_total_correct m b y Hy).
  destruct (decide (k = a)) as [-> | Hka].
  - rewrite list_lookup_insert_eq by (now rewrite length_insert). now symmetry.
  - rewrite list_lookup_insert_ne by congruence.
    destruct (decide (k = b)) as [-> | Hkb].
    + rewrite list_lookup_insert_eq by exact Hb. now symmetry.
    + now rewrite list_lookup_insert_ne by congruence.
Qed.

Lemma swap_slots_length (m : legend) (a b : nat) :
  length (swap_slots m a b) = length m.
Proof. unfold swap_slots. now rewrite !length_insert. Qed.

(** Swapping two slots of a full bijection leaves a full bijection. *)
Lemma swap_slots_bijective (m : legend) (a b : nat) :
  (a < 26)%nat -> (b < 26)%nat ->
  legend_bijective m -> legend_bijective (swap_slots m a b).
Proof.
  intros Ha Hb (Hlen & Hnd & Hlow).
  split; [now rewrite swap_slots_length |]. split.
  - apply NoDup_alt. intros i j x Hi Hj.
    rewrite swap_slots_lookup in Hi, Hj by lia.
    pose proof (proj1 (NoDup_alt m) Hnd _ _ _ Hi Hj) as E.
    repeat case_decide; congruence.
  - apply Forall_lookup. intros i x Hi.
    rewrite swap_slots_lookup in Hi by lia.
    exact (proj1 (Forall_lookup _ m) Hlow _ _ Hi).
Qed.

Lemma one_to_one_legend_alphabet : one_to_one_legend = Some alphabet.
Proof. reflexivity. Qed.

Lemma alphabet_bijective : legend_bijective alphabet.
Proof.
  split; [reflexivity |]. split.
  - refine (bool_decide_unpack _ _). vm_compute. exact I.
  - refine (bool_decide_unpack _ _). vm_compute. exact I.
Qed.

Section EncryptProperties.

Variable rnd : nat -> nat.

Lemma scramble_bijective count n (m : legend) :
  legend_bijective m -> legend_bijective (fst (scramble rnd count n m)).
Proof.
  revert n m. induction count as [|count IH]; intros n m Hm; cbn [scramble]; [exact Hm |].
  apply IH. apply swap_slots_bijective; [| | exact Hm]; apply Nat.mod_upper_bound; lia.
Qed.

Lemma unfix_slots_spec count i n (m : legend) :
  (i + count = 26)%nat ->
  legend_bijective m -> no_own_letter_before i m ->
  legend_bijective (fst (unfix_slots rnd count i n m))
  /\ no_own_letter_before 26 (fst (unfix_slots rnd count i n m)).
Proof.
  revert i n m. induction count as [|count IH]; intros i n m Hi Hm Hfix;
    cbn [unfix_slots].
  - replace i with 26%nat in Hfix by lia. split; assumption.
  - pose proof Hm as (Hlen & Hnd & _).
    destruct (lookup_lt_is_Some_2 m i) as [x Hx]; [lia |].
    rewrite (list_lookup_total_correct m i x Hx).
    destruct (Z.eqb_spec x (97 + Z.of_nat i)) as [-> | Hne].
    + set (ib := if (i =? _)%nat then _ else _).
      assert (ib < 26)%nat as Hib
        by (unfold ib; destruct (_ =? _)%nat; apply Nat.mod_upper_bound; lia).
      assert (ib <> i) as Hneq.
      { unfold ib. destruct (Nat.eqb_spec i ((i + rnd n mod 26) mod 26)) as [E | E];
          [| congruence].
        destruct (Nat.eq_dec i 25%nat) as [E25 | H25].
        - rewrite E25. cbn. lia.
        - rewrite Nat.mod_small by lia. lia. }
      apply IH; [lia | apply swap_slots_bijective; [lia | exact Hib | exact Hm] |].
      intros k Hk. rewrite swap_slots_lookup by lia.
      destruct (decide (k = i)) as [-> | Hki].
      * intros Hib'. apply Hneq.
        exact (proj1 (NoDup_alt m) Hnd _ _ _ Hib' Hx).
      * destruct (decide (k = ib)) as [-> | Hkib].
        -- rewrite Hx. intros [= E]. lia.
        -- apply Hfix. lia.
    + apply IH; [lia | exact Hm |].
      intros k Hk. destruct (Nat.eq_dec k i) as [-> | Hki].
      * rewrite Hx. congruence.
      * apply Hfix. lia.
Qed.

Lemma EncryptPlaintext_run (text : cstring) (n : nat) :
  exists m,
    EncryptPlaintext rnd (Some text) n
      = Some (List.map (PlainToCypherChar (Some m)) text, m)
    /\ legend_bijective m /\ no_own_letter_before 26 m.
Proof.
  unfold EncryptPlaintext. rewrite one_to_one_legend_alphabet.
  pose proof (scramble_bijective 500 n alphabet alphabet_bijective) as H1.
  destruct (scramble rnd 500 n alphabet) as [m1 n1]. cbn [fst] in H1.
  destruct (unfix_slots_spec 26 0 n1 m1 eq_refl H1) as [H2 H3];
    [intros k Hk; lia |].
  destruct (unfix_slots rnd 26 0 n1 m1) as [m2 n2]. cbn [fst] in H2, H3.
  exists m2. split; [reflexivity |]. split; assumption.
Qed.

Lemma PlainToCypherChar_nonalpha (m : legend) c :
  isalpha c = false -> PlainToCypherChar (Some m) c = c.
Proof.
  intros Ha. unfold PlainToCypherChar.
  replace (isupper c) with false by ctype.
  now replace (islower c) with false by ctype.
Qed.

Lemma PlainToCypherChar_other_letter (m : legend) c :
  legend_bijective m -> no_own_letter_before 26 m -> isalpha c = true ->
  PlainToCypherChar (Some m) c <> c
  /\ isupper (PlainToCypherChar (Some m) c) = isupper c
  /\ islower (PlainToCypherChar (Some m) c) = islower c.
Proof.
  intros Hm Hfix Ha. pose proof Hm as (Hlen & _ & _).
  assert (islower (tolower c) = true) as Hlow by now rewrite islower_tolower.
  destruct (back_search_finds m 0 (tolower c) (legend_bijective_onto m _ Hm Hlow))
    as (k & Hs & Hk).
  assert (k < 26)%nat as Hk26 by (rewrite <- Hlen; eapply lookup_lt_Some, Hk).
  pose proof (Hfix k Hk26) as Hown.
  unfold PlainToCypherChar. destruct (isupper c) eqn:Hup.
  - rewrite Hlow, Hs.
    replace (to_char (0 + Z.of_nat k + 97 + (65 - 97))) with (Z.of_nat k + 65)
      by (rewrite to_char_id; ctype).
    split; [| split; ctype].
    intros E. apply Hown. rewrite Hk. f_equal. unfold tolower. rewrite Hup. lia.
  - replace (tolower c) with c in * by (unfold tolower; now rewrite Hup).
    rewrite Hlow, Hs.
    replace (to_char (0 + Z.of_nat k + 97 + 0)) with (Z.of_nat k + 97)
      by (rewrite to_char_id; ctype).
    split; [| split; ctype].
    intros E. apply Hown. rewrite Hk. f_equal. lia.
Qed.

(** X19. Whatever the random numbers are, the legend [EncryptPlaintext]
    generates is a full bijection of the lower-case alphabet in which no
    letter stands for itself, and decrypting the string it prints with that
    legend gives the plaintext back. *)
Theorem EncryptPlaintext_legend (text : cstring) (n : nat) :
  exists encrypted encryptingLegend,
    EncryptPlaintext rnd (Some text) n = Some (encrypted, encryptingLegend)
    /\ legend_bijective encryptingLegend
    /\ no_own_letter_before 26 encryptingLegend
    /\ CypherToPlainString (Some encryptingLegend) (Some encrypted) = Some text.
Proof.
  destruct (EncryptPlaintext_run text n) as (m & Henc & Hm & Hfix).
  eexists _, m. split; [exact Henc |]. split; [exact Hm |]. split; [exact Hfix |].
  cbn [CypherToPlainString]. f_equal. rewrite List.map_map. clear Henc.
  induction text as [|c text IH]; [reflexivity |].
  cbn [List.map]. f_equal; [| exact IH].
  destruct (isalpha c) eqn:Ha; [now apply legend_round_trip_char |].
  rewrite PlainToCypherChar_nonalpha by exact Ha.
  now apply CypherToPlainChar_nonalpha.
Qed.

(** X20. In the string [EncryptPlaintext] prints no letter of the plaintext
    is left as it was: every letter is replaced by a different letter of the
    same case, and every other character is kept. *)
Theorem EncryptPlaintext_changes_letters (text : cstring) (n : nat) :
  exists encrypted encryptingLegend,
    EncryptPlaintext rnd (Some text) n = Some (encrypted, encryptingLegend)
    /\ Forall2 (fun c e =>
                  if isalpha c
                  then e <> c /\ isupper e = isupper c /\ islower e = islower c
                  else e = c)
               text encrypted.
Proof.
  destruct (EncryptPlaintext_run text n) as (m & Henc & Hm & Hfix).
  eexists _, m. split; [exact Henc |]. clear Henc.
  induction text as [|c text IH]; [constructor |].
  cbn [List.map]. constructor; [| exact IH].
  destruct (isalpha c) eqn:Ha.
  - now apply PlainToCypherChar_other_letter.
  - now apply PlainToCypherChar_nonalpha.
Qed.

End EncryptProperties.

(** ** The frequency counts *)

Lemma legend_allows_holes (m : legend) (cs ps : cstring) (mismatch : bool) :
  forallb (fun c => negb (isupper c)) cs = true ->
  length cs = length ps ->
  canmap_loop m false cs ps mismatch
  = mismatch || negb (legend_allows (Some m) cs ps).
Proof.
  revert ps mismatch. induction cs as [|c cs IH]; intros [|p ps] mismatch Hcs Hlen;
    try discriminate; cbn [canmap_loop legend_allows].
  - now rewrite orb_false_r.
  - cbn [forallb] in Hcs. apply andb_prop in Hcs as [Hc Hcs].
    apply negb_true_iff in Hc.
    replace (tolower c) with c by (unfold tolower; now rewrite Hc).
    rewrite andb_false_r, IH by (simpl in Hlen; auto with lia).
    set (ptc := CypherToPlainChar (Some m) c).
    now destruct (ptc =? 0), (tolower ptc =? tolower p), mismatch.
Qed.

(** X21. For a cyphertext without upper-case letters and a candidate of the
    same length, the test that [GenerateCharacterCountsWithLegend] makes
    before counting a candidate agrees with [CanCypherAndLegendMakePlain]
    with holes allowed. *)
Theorem legend_allows_is_CanCypherAndLegendMakePlain (m : legend) (c p : cstring) :
  forallb (fun x => negb (isupper x)) c = true ->
  length c = length p ->
  legend_allows (Some m) c p
  = CanCypherAndLegendMakePlain (Some c) (Some m) (Some p) false.
Proof.
  intros Hc Hlen. unfold CanCypherAndLegendMakePlain.
  rewrite Hlen, Nat.eqb_refl. cbn [negb].
  rewrite (legend_allows_holes m c p false Hc Hlen). cbn [orb].
  now rewrite negb_involutive.
Qed.

Lemma legend_allows_is_CanCypherAndLegendMakePlain_witness :
  forallb (fun x => negb (isupper x)) (chars "cab") = true
  /\ length (chars "cab") = length (chars "tin")
  /\ legend_allows (Some hint_c_t) (chars "cab") (chars "tin")
     = CanCypherAndLegendMakePlain (Some (chars "cab")) (Some hint_c_t)
         (Some (chars "tin")) false.
Proof.
  split; [reflexivity |]. split; [reflexivity |].
  apply (legend_allows_is_CanCypherAndLegendMakePlain hint_c_t (chars "cab") (chars "tin"));
    reflexivity.
Defined.

(** X22. An upper-case cypher letter whose slot is unassigned makes the
    counting test fail: every candidate of ASCII characters is left out of
    the counts, although [CanCypherAndLegendMakePlain] would treat the
    position as a hole. *)
Theorem legend_allows_upper_unassigned (m : legend) (c p : cstring) (i : nat) ci pi :
  c !! i = Some ci -> p !! i = Some pi ->
  isupper ci = true -> m !!! Z.to_nat (tolower ci - 97) = 0 -> 0 <= pi ->
  legend_allows (Some m) c p = false.
Proof.
  revert p i. induction c as [|c0 c IH]; intros [|p0 p] i Hc Hp Hup Hslot Hpi;
    try discriminate.
  cbn [legend_allows].
  destruct (negb (CypherToPlainChar (Some m) c0 =? 0)
            && negb (tolower (CypherToPlainChar (Some m) c0) =? tolower p0)) eqn:E;
    [reflexivity |].
  destruct i as [|i]; simpl in Hc, Hp.
  - inversion Hc; inversion Hp; subst c0 p0. exfalso.
    rewrite CypherToPlainChar_upper in E by exact Hup.
    unfold tolower in Hslot. rewrite Hup in Hslot. rewrite Hslot in E.
    change (to_char (0 + (65 - 97))) with (-32) in E.
    change (tolower (-32)) with (-32) in E.
    assert ((-32 =? tolower pi) = false) as Hne by (apply Z.eqb_neq; ctype_props).
    rewrite Hne in E. discriminate E.
  - eapply IH; eauto.
Qed.

Lemma legend_allows_upper_unassigned_witness :
  chars "Ab" !! 0%nat = Some 65 /\ chars "it" !! 0%nat = Some 105
  /\ isupper 65 = true /\ hint_c_t !!! Z.to_nat (tolower 65 - 97) = 0 /\ 0 <= 105
  /\ legend_allows (Some hint_c_t) (chars "Ab") (chars "it") = false
  /\ CanCypherAndLegendMakePlain (Some (chars "Ab")) (Some hint_c_t)
       (Some (chars "it")) false = true.
Proof.
  do 4 (split; [reflexivity |]). split; [lia |]. split; [| reflexivity].
  apply (legend_allows_upper_unassigned hint_c_t (chars "Ab") (chars "it") 0 65 105);
    try reflexivity. lia.
Defined.

Lemma total_insert (bins : list Z) (k : nat) v :
  bins !! k = Some v -> total (<[k := v + 1]> bins) = total bins + 1.
Proof.
  unfold total. revert k.
  induction bins as [|x bins IH]; intros [|k] Hk; try discriminate.
  - inversion Hk; subst x. cbn. lia.
  - cbn in Hk.
    change (x + fold_right Z.add 0 (<[k := v + 1]> bins)
            = x + fold_right Z.add 0 bins + 1).
    rewrite (IH k Hk). lia.
Qed.

Lemma bump_Some (bins bins' : list Z) k :
  bump bins k = Some bins' ->
  exists v, 0 <= k < 26 /\ bins !! Z.to_nat k = Some v
            /\ bins' = <[Z.to_nat k := v + 1]> bins.
Proof.
  unfold bump. destruct (slot bins k) as [v|] eqn:Hs; [| discriminate].
  apply slot_Some in Hs as [Hk Hv]. intros [= <-]. now exists v.
Qed.

Lemma bump_cross_Some (rows rows' : list (list Z)) i j :
  bump_cross rows i j = Some rows' ->
  exists row v, 0 <= i < 26 /\ 0 <= j < 26
    /\ rows !! Z.to_nat i = Some row /\ row !! Z.to_nat j = Some v
    /\ rows' = <[Z.to_nat i := <[Z.to_nat j := v + 1]> row]> rows.
Proof.
  unfold bump_cross. destruct ((0 <=? i) && (i <? 26)) eqn:E; [| discriminate].
  apply andb_prop in E as [H1 H2]. apply Z.leb_le in H1. apply Z.ltb_lt in H2.
  destruct (rows !! Z.to_nat i) as [row|] eqn:Hrow; [| discriminate].
  destruct (bump row j) as [row'|] eqn:Hb; [| discriminate].
  apply bump_Some in Hb as (v & Hj & Hv & ->). intros [= <-].
  exists row, v. repeat split; auto; lia.
Qed.

Lemma cleared_counts_consistent : counts_consistent cleared_counts.
Proof.
  unfold counts_consistent, cleared_counts. cbn [crossMatch plaintextCount cyphertextCount].
  split; [reflexivity |]. split; [reflexivity |]. split; [reflexivity |].
  split; [| reflexivity].
  intros i row Hrow. apply lookup_replicate in Hrow as [-> Hi].
  split; [reflexivity |]. now rewrite lookup_replicate_2.
Qed.

Lemma tally_consistent (cs ps : cstring) (data data' : characterFrequencyData) :
  tally cs ps data = Some data' ->
  counts_consistent data -> counts_consistent data'.
Proof.
  revert ps data. induction cs as [|c cs IH]; intros [|p ps] data; cbn [tally];
    try (intros [= <-]; trivial; fail).
  destruct (isalpha c); [| apply IH].
  destruct (bump (plaintextCount data) _) as [pt|] eqn:Hpt; [| discriminate].
  destruct (bump (cyphertextCount data) _) as [ct|] eqn:Hct; [| discriminate].
  destruct (bump_cross (crossMatch data) _ _) as [cm|] eqn:Hcm; [| discriminate].
  intros H Hdata. eapply IH; [exact H |]. clear H IH.
  destruct Hdata as (Lcm & Lct & Lpt & Hrows & Htot).
  apply bump_Some in Hpt as (vp & Hkp & Hvp & ->).
  apply bump_Some in Hct as (vc & Hkc & Hvc & ->).
  apply bump_cross_Some in Hcm as (row & v & _ & _ & Hrow & Hv & ->).
  unfold counts_consistent. cbn [crossMatch plaintextCount cyphertextCount].
  rewrite !length_insert.
  split; [exact Lcm |]. split; [exact Lct |]. split; [exact Lpt |]. split.
  - intros i row' Hi.
    destruct (decide (i = Z.to_nat (tolower c - 97))) as [-> | Hne].
    + rewrite list_lookup_insert_eq in Hi by (eapply lookup_lt_Some, Hrow).
      inversion Hi; subst row'. rewrite length_insert.
      destruct (Hrows _ _ Hrow) as [Lrow Hsum]. split; [exact Lrow |].
      rewrite list_lookup_insert_eq by (eapply lookup_lt_Some, Hvc).
      rewrite (total_insert row _ v Hv). congruence.
    + rewrite list_lookup_insert_ne in Hi by congruence.
      rewrite list_lookup_insert_ne by congruence. now apply Hrows.
  - rewrite (total_insert _ _ vp Hvp), (total_insert _ _ vc Hvc). lia.
Qed.

Lemma tally_possibles_consistent map (c : cstring) (possibles : list cstring)
    (data data' : characterFrequencyData) :
  tally_possibles map c possibles data = Some data' ->
  counts_consistent data -> counts_consistent data'.
Proof.
  revert data. induction possibles as [|p rest IH]; intros data; cbn [tally_possibles].
  - now intros [= <-].
  - destruct (legend_allows map c p); [| apply IH].
    destruct (tally c p data) as [data1|] eqn:E; [| discriminate].
    intros H Hdata. eapply IH; [exact H |]. eapply tally_consistent; eauto.
Qed.

Lemma tally_words_consistent map (ws : list cypherword)
    (data data' : characterFrequencyData) :
  tally_words map ws data = Some data' ->
  counts_consistent data -> counts_consistent data'.
Proof.
  revert data. induction ws as [|w rest IH]; intros data; cbn [tally_words].
  - now intros [= <-].
  - destruct (tally_possibles map _ _ data) as [data1|] eqn:E; [| discriminate].
    intros H Hdata. eapply IH; [exact H |]. eapply tally_possibles_consistent; eauto.
Qed.

(** With a letter for every letter, every increment falls inside the bins. *)
Lemma tally_defined (cs ps : cstring) (data : characterFrequencyData) :
  letters_for_letters cs ps = true -> counts_consistent data ->
  exists data', tally cs ps data = Some data' /\ counts_consistent data'.
Proof.
  revert ps data. induction cs as [|c cs IH]; intros [|p ps] data Hl Hdata;
    cbn [letters_for_letters] in Hl; try discriminate.
  - exists data. split; [reflexivity | exact Hdata].
  - apply andb_prop in Hl as [Hcp Hl]. cbn [tally].
    destruct (isalpha c) eqn:Ha; [| now apply IH].
    cbn [negb orb] in Hcp.
    assert (0 <= tolower c - 97 < 26) as Hkc by (clear - Ha; ctype_props).
    assert (0 <= tolower p - 97 < 26) as Hkp by (clear - Hcp; ctype_props).
    pose proof Hdata as (Lcm & Lct & Lpt & Hrows & _).
    destruct (lookup_lt_is_Some_2 (plaintextCount data) (Z.to_nat (tolower p - 97)))
      as [vp Hvp]; [lia |].
    destruct (lookup_lt_is_Some_2 (cyphertextCount data) (Z.to_nat (tolower c - 97)))
      as [vc Hvc]; [lia |].
    destruct (lookup_lt_is_Some_2 (crossMatch data) (Z.to_nat (tolower c - 97)))
      as [row Hrow]; [lia |].
    destruct (Hrows _ _ Hrow) as [Lrow _].
    destruct (lookup_lt_is_Some_2 row (Z.to_nat (tolower p - 97))) as [v Hv]; [lia |].
    assert (bump (plaintextCount data) (tolower p - 97)
            = Some (<[Z.to_nat (tolower p - 97) := vp + 1]> (plaintextCount data))) as Ept
      by (unfold bump; now rewrite (slot_lookup _ _ vp Hkp Hvp)).
    assert (bump (cyphertextCount data) (tolower c - 97)
            = Some (<[Z.to_nat (tolower c - 97) := vc + 1]> (cyphertextCount data))) as Ect
      by (unfold bump; now rewrite (slot_lookup _ _ vc Hkc Hvc)).
    assert (bump_cross (crossMatch data) (tolower c - 97) (tolower p - 97)
            = Some (<[Z.to_nat (tolower c - 97) :=
                       <[Z.to_nat (tolower p - 97) := v + 1]> row]> (crossMatch data)))
      as Ecm.
    { unfold bump_cross, bump.
      replace ((0 <=? tolower c - 97) && (tolower c - 97 <? 26)) with true
        by (symmetry; apply andb_true_intro; split;
            [apply Z.leb_le | apply Z.ltb_lt]; lia).
      now rewrite Hrow, (slot_lookup _ _ v Hkp Hv). }
    rewrite Ept, Ect, Ecm. apply IH; [exact Hl |].
    apply (tally_consistent [c] [p] data); [| exact Hdata].
    cbn [tally]. now rewrite Ha, Ept, Ect, Ecm.
Qed.

Lemma tally_possibles_defined map (c : cstring) (possibles : list cstring)
    (data : characterFrequencyData) :
  forallb (letters_for_letters c) possibles = true -> counts_consistent data ->
  exists data', tally_possibles map c possibles data = Some data'
                /\ counts_consistent data'.
Proof.
  revert data. induction possibles as [|p rest IH]; intros data Hl Hdata;
    cbn [tally_possibles].
  - exists data. split; [reflexivity | exact Hdata].
  - cbn [forallb] in Hl. apply andb_prop in Hl as [Hp Hl].
    destruct (legend_allows map c p); [| now apply IH].
    destruct (tally_defined c p data Hp Hdata) as (data1 & -> & Hdata1).
    now apply IH.
Qed.

Lemma tally_words_defined map (ws : list cypherword) (data : characterFrequencyData) :
  forallb (fun w => forallb (letters_for_letters (cyphertext w)) (possiblePlaintext w)) ws
    = true ->
  counts_consistent data ->
  exists data', tally_words map ws data = Some data' /\ counts_consistent data'.
Proof.
  revert data. induction ws as [|w rest IH]; intros data Hl Hdata; cbn [tally_words].
  - exists data. split; [reflexivity | exact Hdata].
  - cbn [forallb] in Hl. apply andb_prop in Hl as [Hw Hl].
    destruct (tally_possibles_defined map _ _ data Hw Hdata) as (data1 & -> & Hdata1).
    now apply IH.
Qed.

(** X23. When there is a cypherword and every candidate has the length of
    its cyphertext and holds a letter wherever the cyphertext holds one,
    [GenerateCharacterCountsWithLegend] returns frequency data, every
    increment falling inside the bins, and the data are consistent: there
    are 26 rows of 26 cross-match bins, every row adds up to the count of
    its cypher letter, and as many plaintext characters are counted as
    cyphertext characters. *)
Theorem GenerateCharacterCounts_consistent (words : list cypherword)
    (map : option legend) :
  words <> [] ->
  forallb (fun w => forallb (letters_for_letters (cyphertext w)) (possiblePlaintext w))
          words = true ->
  exists data,
    GenerateCharacterCountsWithLegend words map = Some (Some data)
    /\ counts_consistent data.
Proof.
  intros Hne Hl. unfold GenerateCharacterCountsWithLegend.
  destruct words as [|w ws]; [contradiction |].
  destruct (tally_words_defined map (w :: ws) cleared_counts Hl cleared_counts_consistent)
    as (data & -> & Hdata).
  now exists data.
Qed.

Lemma GenerateCharacterCounts_consistent_witness :
  [word_ab] <> []
  /\ forallb (fun w => forallb (letters_for_letters (cyphertext w)) (possiblePlaintext w))
             [word_ab] = true
  /\ exists data,
       GenerateCharacterCountsWithLegend [word_ab] (Some hint_c_t) = Some (Some data)
       /\ cyphertextCount data !! 0%nat = Some 2
       /\ counts_consistent data.
Proof.
  split; [discriminate |]. split; [reflexivity |].
  destruct (GenerateCharacterCounts_consistent [word_ab] (Some hint_c_t))
    as (data & E & Hdata); [discriminate | reflexivity |].
  exists data. split; [exact E |]. split; [| exact Hdata].
  vm_compute in E. inversion E. reflexivity.
Defined.

(** ** The cypherwords made from the cyphertext *)

Lemma skip_separators_head (text : cstring) c rest :
  skip_separators text = c :: rest -> (isspace c || ispunct c) = false.
Proof.
  induction text as [|x text IH]; cbn [skip_separators]; [discriminate |].
  destruct (isspace x || ispunct x) eqn:E; [exact IH |].
  intros [= <- _]. exact E.
Qed.

Lemma skip_separators_fixed (text : cstring) c rest :
  text = c :: rest -> (isspace c || ispunct c) = false -> skip_separators text = text.
Proof. intros -> H. cbn [skip_separators]. now rewrite H. Qed.

Lemma take_while_spec (P : Z -> bool) (text : cstring) :
  forallb P (fst (take_while P text)) = true
  /\ text = fst (take_while P text) ++ snd (take_while P text).
Proof.
  induction text as [|c text [IH1 IH2]]; cbn [take_while]; [split; reflexivity |].
  destruct (P c) eqn:E; [| split; reflexivity].
  destruct (take_while P text) as [word rest]. cbn [fst snd] in *.
  split; [cbn [forallb]; now rewrite E | cbn; now f_equal].
Qed.

Lemma take_while_head (P : Z -> bool) (text : cstring) c word rest :
  take_while P text = (c :: word, rest) -> exists tail, text = c :: tail /\ P c = true.
Proof.
  destruct text as [|x text]; cbn [take_while]; [discriminate |].
  destruct (P x) eqn:E; [| discriminate].
  destruct (take_while P text) as [word' rest']. intros [= <- _ _]. eauto.
Qed.

Lemma apostrophe_is_punct c : (c =? 39) = true -> ispunct c = true.
Proof. intros H. apply Z.eqb_eq in H. subst c. reflexivity. Qed.

(** The loop only appends, and what it appends are fresh cypherwords. *)
Lemma create_words_fresh (fuel : nat) (text : cstring) (wordCount w : Z)
    (words ws : list cypherword) ok :
  create_words fuel text wordCount w words = Some (ok, ws) ->
  exists more, ws = words ++ more /\ Forall fresh_cypherword more.
Proof.
  revert text w words. induction fuel as [|fuel IH]; intros [|c0 text] w words;
    cbn [create_words]; try discriminate;
    try (intros [= _ <-]; exists []; split; [now rewrite app_nil_r | constructor]).
  destruct (take_while _ (skip_separators (c0 :: text))) as [[|c word] rest] eqn:E;
    [apply IH |].
  destruct (w <? wordCount); [| discriminate]. cbn [CreateCypherword].
  intros H. apply IH in H as (more & -> & Hmore).
  exists ({| cyphertext := c :: word; possiblePlaintext := [] |} :: more).
  split; [now rewrite <- app_assoc |]. constructor; [| exact Hmore].
  split; [reflexivity |]. cbn [cyphertext].
  pose proof (take_while_spec (fun c => isalpha c || (c =? 39))
                (skip_separators (c0 :: text))) as [Hall _].
  rewrite E in Hall. cbn [fst] in Hall. split; [| exact Hall].
  exists c, word. split; [reflexivity |].
  apply take_while_head in E as (tail & Hskip & Hc).
  apply skip_separators_head in Hskip.
  destruct (isalpha c); [reflexivity |].
  cbn [orb] in Hc. apply apostrophe_is_punct in Hc.
  rewrite Hc, orb_true_r in Hskip. discriminate.
Qed.

(** A text without a letter counts no word. *)
Lemma count_words_no_letter (fuel : nat) (text : cstring) (n N : Z) :
  forallb (fun c => negb (isalpha c)) text = true ->
  count_words fuel text n = Some N -> N = n.
Proof.
  revert text n. induction fuel as [|fuel IH]; intros [|c0 text] n Hno;
    cbn [count_words]; try discriminate; try (now intros [= <-]).
  pose proof (take_while_spec (fun c => isalpha c || ispunct c)
                (skip_separators (c0 :: text))) as [_ Happ].
  destruct (take_while _ (skip_separators (c0 :: text))) as [[|c token] rest] eqn:E.
  - cbn [fst snd] in Happ. cbn [app] in Happ.
    assert (forallb (fun c => negb (isalpha c)) rest = true) as Hrest.
    { rewrite <- Happ. clear -Hno. induction (c0 :: text) as [|x l IHl]; [reflexivity |].
      cbn [forallb] in Hno. apply andb_prop in Hno as [Hx Hl].
      cbn [skip_separators]. destruct (isspace x || ispunct x); [now apply IHl |].
      cbn [forallb]. now rewrite Hx, Hl. }
    now apply IH.
  - exfalso. apply take_while_head in E as (tail & Hskip & Hc).
    pose proof (skip_separators_head _ _ _ Hskip) as Hsep.
    assert (isalpha c = true) as Ha.
    { destruct (isalpha c); [reflexivity |]. cbn [orb] in Hc.
      rewrite Hc, orb_true_r in Hsep. discriminate. }
    assert (forallb (fun c => negb (isalpha c)) (skip_separators (c0 :: text)) = true) as H.
    { clear -Hno. induction (c0 :: text) as [|x l IHl]; [reflexivity |].
      cbn [forallb] in Hno. apply andb_prop in Hno as [Hx Hl].
      cbn [skip_separators]. destruct (isspace x || ispunct x); [now apply IHl |].
      cbn [forallb]. now rewrite Hx, Hl. }
    rewrite Hskip in H. cbn [forallb] in H. now rewrite Ha in H.
Qed.

(** A text with a letter does not leave the array empty. *)
Lemma create_words_letter (fuel : nat) (text : cstring) (wordCount : Z)
    (ws : list cypherword) ok :
  existsb isalpha text = true ->
  create_words fuel text wordCount 0 [] = Some (ok, ws) -> ws <> [].
Proof.
  assert (forall l, existsb isalpha l = true -> existsb isalpha (skip_separators l) = true)
    as Hskip_letter.
  { induction l as [|x l IHl]; [discriminate |]. intros H.
    cbn [skip_separators]. destruct (isspace x || ispunct x) eqn:E; [| exact H].
    apply IHl. cbn [existsb] in H. apply orb_prop in H as [Hx | Hl]; [| exact Hl].
    exfalso. revert E Hx. unfold isspace. intros E Hx.
    apply orb_prop in E as [E | E]; ctype_props. }
  revert text. induction fuel as [|fuel IH]; intros [|c0 text] Hletter;
    cbn [create_words]; try discriminate.
  pose proof (take_while_spec (fun c => isalpha c || (c =? 39))
                (skip_separators (c0 :: text))) as [_ Happ].
  pose proof (Hskip_letter _ Hletter) as Hl.
  destruct (take_while _ (skip_separators (c0 :: text))) as [[|c word] rest] eqn:E.
  - cbn [fst snd app] in Happ. rewrite Happ in Hl. now apply IH.
  - destruct (0 <? wordCount); [| discriminate]. cbn [CreateCypherword].
    intros H. apply create_words_fresh in H as (more & -> & _).
    now destruct more.
Qed.

(** X24. When [CreateCypherwordsFromCyphertext] succeeds there is at least
    one cypherword, and every cypherword has no candidate yet and a
    cyphertext of letters and apostrophes that starts with a letter. *)
Theorem CreateCypherwords_fresh (text : cstring) (old ws : list cypherword) :
  CreateCypherwordsFromCyphertext (Some text) old = Some (true, ws) ->
  ws <> [] /\ Forall fresh_cypherword ws.
Proof.
  unfold CreateCypherwordsFromCyphertext.
  destruct (negb _); [discriminate |].
  destruct (count_words (length text) text 0) as [wordCount|] eqn:Hcount; [| discriminate].
  destruct (Z.eqb_spec wordCount 0) as [-> | Hne]; [discriminate |].
  intros H. split.
  - eapply create_words_letter; [| exact H].
    destruct (existsb isalpha text) eqn:E; [reflexivity |]. exfalso. apply Hne.
    eapply count_words_no_letter; [| exact Hcount].
    apply forallb_forall. intros x Hx. apply negb_true_iff.
    destruct (isalpha x) eqn:Ex; [| reflexivity].
    assert (existsb isalpha text = true) as E'; [| congruence].
    apply existsb_exists. now exists x.
  - apply create_words_fresh in H as (more & -> & Hmore). exact Hmore.
Qed.

Lemma CreateCypherwords_fresh_witness :
  CreateCypherwordsFromCyphertext (Some (chars "Don't panic, Ab!")) []
  = Some (true, [ {| cyphertext := chars "Don't"; possiblePlaintext := [] |};
                  {| cyphertext := chars "panic"; possiblePlaintext := [] |};
                  {| cyphertext := chars "Ab"; possiblePlaintext := [] |} ])
  /\ Forall fresh_cypherword
       [ {| cyphertext := chars "Don't"; possiblePlaintext := [] |};
         {| cyphertext := chars "panic"; possiblePlaintext := [] |};
         {| cyphertext := chars "Ab"; possiblePlaintext := [] |} ].
Proof.
  split; [reflexivity |].
  apply (CreateCypherwords_fresh (chars "Don't panic, Ab!") [] _ eq_refl).
Defined.

Lemma plain_quip_skip (text : cstring) :
  plain_quip text = true -> plain_quip (skip_separators text) = true.
Proof.
  unfold plain_quip. induction text as [|c text IH]; [reflexivity |].
  intros H. cbn [skip_separators]. destruct (isspace c || ispunct c); [| exact H].
  cbn [forallb] in H. apply andb_prop in H as [_ H]. now apply IH.
Qed.

Lemma skip_separators_length (text : cstring) :
  (length (skip_separators text) <= length text)%nat.
Proof.
  induction text as [|c text IH]; [reflexivity |].
  cbn [skip_separators]. destruct (isspace c || ispunct c); cbn [length]; lia.
Qed.

(** On a text of letters, white space and apostrophes the two loops take
    the same tokens. *)
Lemma take_while_plain_quip (text : cstring) :
  plain_quip text = true ->
  take_while (fun c => isalpha c || ispunct c) text
  = take_while (fun c => isalpha c || (c =? 39)) text.
Proof.
  unfold plain_quip. induction text as [|c text IH]; [reflexivity |].
  intros H. cbn [forallb] in H. apply andb_prop in H as [Hc H].
  cbn [take_while]. rewrite (IH H).
  replace (isalpha c || ispunct c) with (isalpha c || (c =? 39)); [reflexivity |].
  destruct (isalpha c); [reflexivity |]. cbn [orb].
  destruct (Z.eqb_spec c 39) as [-> | Hne]; [reflexivity |].
  rewrite orb_false_r in Hc. symmetry.
  revert Hc. unfold isspace. intros Hc. apply orb_prop in Hc as [Hc | Hc]; ctype_props.
Qed.

Lemma plain_quip_rest (P : Z -> bool) (text : cstring) :
  plain_quip text = true -> plain_quip (snd (take_while P text)) = true.
Proof.
  unfold plain_quip. induction text as [|c text IH]; [reflexivity |].
  intros H. cbn [take_while]. destruct (P c); [| exact H].
  cbn [forallb] in H. apply andb_prop in H as [_ H].
  specialize (IH H). now destruct (take_while P text).
Qed.

(** One iteration on a text of letters, white space and apostrophes: the
    token is empty only at the end of the text, and the rest is shorter. *)
Lemma plain_quip_progress (c0 : Z) (text : cstring) token rest :
  plain_quip (c0 :: text) = true ->
  take_while (fun c => isalpha c || (c =? 39)) (skip_separators (c0 :: text))
    = (token, rest) ->
  (length rest <= length text)%nat /\ (token = [] -> rest = []).
Proof.
  intros Hq E.
  pose proof (take_while_spec (fun c => isalpha c || (c =? 39))
                (skip_separators (c0 :: text))) as [_ Happ].
  rewrite E in Happ. cbn [fst snd] in Happ.
  pose proof (skip_separators_length (c0 :: text)) as Hlen.
  rewrite Happ, length_app in Hlen. cbn [length] in Hlen.
  destruct token as [|c token].
  - cbn [app] in Happ. destruct rest as [|r rest']; [split; [cbn; lia | reflexivity] |].
    exfalso. pose proof (skip_separators_head _ _ _ Happ) as Hsep.
    rewrite Happ in E. cbn [take_while] in E.
    destruct (isalpha r || (r =? 39)) eqn:Er;
      [destruct (take_while _ rest'); discriminate E |].
    apply plain_quip_skip in Hq. rewrite Happ in Hq.
    unfold plain_quip in Hq. cbn [forallb] in Hq. apply andb_prop in Hq as [Hr _].
    apply orb_false_elim in Er as [Er1 Er2]. apply orb_false_elim in Hsep as [Hs1 Hs2].
    rewrite Hs1, Er1, Er2 in Hr. discriminate Hr.
  - split; [cbn [length] in Hlen; lia | discriminate].
Qed.

(** On such a text the loop that makes the cypherwords goes through the
    same iterations as the counting loop. *)
Lemma create_words_counted (fuel : nat) (text : cstring) (n : Z) :
  plain_quip text = true -> (length text <= fuel)%nat ->
  exists N more,
    count_words fuel text n = Some N
    /\ Z.of_nat (length more) = N - n
    /\ forall wordCount w words, N - n <= wordCount - w ->
         create_words fuel text wordCount w words = Some (true, words ++ more).
Proof.
  revert text n. induction fuel as [|fuel IH]; intros [|c0 text] n Hq Hfuel;
    cbn [count_words create_words]; cbn [length] in Hfuel; try lia.
  - exists n, []. split; [reflexivity |]. split; [cbn; lia |].
    intros. now rewrite app_nil_r.
  - exists n, []. split; [reflexivity |]. split; [cbn; lia |].
    intros. now rewrite app_nil_r.
  - rewrite (take_while_plain_quip _ (plain_quip_skip _ Hq)).
    pose proof (plain_quip_rest (fun c => isalpha c || (c =? 39)) _
                  (plain_quip_skip _ Hq)) as Hrest.
    destruct (take_while _ (skip_separators (c0 :: text))) as [token rest] eqn:E.
    cbn [snd] in Hrest.
    destruct (plain_quip_progress c0 text token rest Hq E) as [Hlen _].
    destruct token as [|c token].
    + destruct (IH rest n Hrest ltac:(lia)) as (N & more & Hc & Hn & Hcreate).
      exists N, more. split; [exact Hc |]. split; [exact Hn | exact Hcreate].
    + destruct (IH rest (n + 1) Hrest ltac:(lia)) as (N & more & Hc & Hn & Hcreate).
      exists N, ({| cyphertext := c :: token; possiblePlaintext := [] |} :: more).
      split; [exact Hc |]. split; [cbn [length]; lia |].
      intros wordCount w words Hroom.
      replace (w <? wordCount) with true by (symmetry; apply Z.ltb_lt; lia).
      cbn [CreateCypherword]. rewrite Hcreate by lia. now rewrite <- app_assoc.
Qed.

(** X25. On a cyphertext of letters, white space and apostrophes with at
    least one letter, [CreateCypherwordsFromCyphertext] succeeds and fills
    the array it has allocated: the number of cypherwords made is the
    number of words counted. *)
Theorem CreateCypherwords_plain_quip (text : cstring) (old : list cypherword) :
  plain_quip text = true -> existsb isalpha text = true ->
  exists ws,
    CreateCypherwordsFromCyphertext (Some text) old = Some (true, ws)
    /\ count_words (length text) text 0 = Some (Z.of_nat (length ws)).
Proof.
  intros Hq Hletter. unfold CreateCypherwordsFromCyphertext.
  assert (forallb (fun c => isspace c || isalpha c || ispunct c) text = true) as ->.
  { unfold plain_quip in Hq. rewrite forallb_forall in *. intros x Hx.
    specialize (Hq x Hx). apply orb_prop in Hq as [Hq | Hq]; [now rewrite Hq |].
    apply apostrophe_is_punct in Hq. now rewrite Hq, orb_true_r. }
  cbn [negb].
  destruct (create_words_counted (length text) text 0 Hq (Nat.le_refl _))
    as (N & more & Hcount & HN & Hcreate).
  rewrite Hcount. specialize (Hcreate N 0 [] ltac:(lia)). cbn [app] in Hcreate.
  assert (more <> []) as Hmore by (eapply create_words_letter; eauto).
  destruct (Z.eqb_spec N 0) as [-> | _].
  - destruct more; [contradiction | cbn [length] in HN; lia].
  - exists more. split; [exact Hcreate |]. f_equal. lia.
Qed.

Lemma CreateCypherwords_plain_quip_witness :
  plain_quip (chars "don't panic") = true
  /\ existsb isalpha (chars "don't panic") = true
  /\ exists ws,
       CreateCypherwordsFromCyphertext (Some (chars "don't panic")) [] = Some (true, ws)
       /\ count_words (length (chars "don't panic")) (chars "don't panic") 0
          = Some (Z.of_nat (length ws)).
Proof.
  split; [reflexivity |]. split; [reflexivity |].
  apply (CreateCypherwords_plain_quip (chars "don't panic") []); reflexivity.
Defined.

Lemma take_while_all (P : Z -> bool) (u rest : cstring) :
  forallb P u = true ->
  match rest with [] => True | c :: _ => P c = false end ->
  take_while P (u ++ rest) = (u, rest).
Proof.
  intros Hu Hrest. induction u as [|x u IH]; cbn [app].
  - destruct rest as [|c rest]; [reflexivity |]. cbn [take_while]. now rewrite Hrest.
  - cbn [forallb] in Hu. apply andb_prop in Hu as [Hx Hu].
    cbn [take_while]. now rewrite Hx, (IH Hu).
Qed.

Lemma take_while_whole (P : Z -> bool) (u : cstring) :
  forallb P u = true -> take_while P u = (u, []).
Proof.
  intros Hu. rewrite <- (app_nil_r u) at 1. now apply take_while_all.
Qed.

(** X26. A cyphertext made of two words of letters joined by a punctuation
    character other than the apostrophe (a hyphen, say) is counted as one
    word and split into two: the counting loop gives an array of one entry,
    the loop that makes the cypherwords makes two of them (as it does when
    the array has room for two), and so [CreateCypherwordsFromCyphertext]
    writes the second cypherword past the end of the array it has
    allocated. *)
Theorem CreateCypherwords_joined_words (u v : cstring) (joint : Z)
    (old : list cypherword) :
  u <> [] -> v <> [] ->
  forallb isalpha u = true -> forallb isalpha v = true ->
  ispunct joint = true -> joint <> 39 ->
  count_words (length (u ++ joint :: v)) (u ++ joint :: v) 0 = Some 1
  /\ create_words (length (u ++ joint :: v)) (u ++ joint :: v) 2 0 []
     = Some (true, [ {| cyphertext := u; possiblePlaintext := [] |};
                     {| cyphertext := v; possiblePlaintext := [] |} ])
  /\ CreateCypherwordsFromCyphertext (Some (u ++ joint :: v)) old = None.
Proof.
  intros Hu Hv Hau Hav Hj Hj39.
  destruct u as [|u0 u]; [contradiction |]. destruct v as [|v0 v]; [contradiction |].
  pose proof Hau as Hau'. pose proof Hav as Hav'.
  cbn [forallb] in Hau', Hav'.
  apply andb_prop in Hau' as [Hu0 _]. apply andb_prop in Hav' as [Hv0 _].
  assert (forall c, isalpha c = true -> (isspace c || ispunct c) = false) as Hnosep.
  { intros c Hc. apply orb_false_intro; [unfold isspace; apply orb_false_intro |];
      ctype_props. }
  assert (isalpha joint = false) as Hja by ctype_props.
  assert (forallb (fun c => isspace c || isalpha c || ispunct c)
            ((u0 :: u) ++ joint :: v0 :: v) = true) as Hlegal.
  { rewrite forallb_app. apply andb_true_intro. split.
    - rewrite forallb_forall in *. intros x Hx. now rewrite (Hau x Hx), orb_true_r.
    - cbn [forallb]. rewrite Hj, orb_true_r. cbn [andb].
      change (forallb (fun c => isspace c || isalpha c || ispunct c) (v0 :: v) = true).
      rewrite forallb_forall in *. intros x Hx. now rewrite (Hav x Hx), orb_true_r. }
  assert (skip_separators ((u0 :: u) ++ joint :: v0 :: v)
          = (u0 :: u) ++ joint :: v0 :: v) as Hskip1
    by (cbn [app skip_separators]; now rewrite (Hnosep u0 Hu0)).
  assert (skip_separators (joint :: v0 :: v) = v0 :: v) as Hskip2
    by (cbn [skip_separators]; now rewrite Hj, orb_true_r, (Hnosep v0 Hv0)).
  assert (exists fuel, length ((u0 :: u) ++ joint :: v0 :: v) = S (S fuel))
    as [fuel Hfuel].
  { rewrite length_app. cbn [length]. exists (length u + S (length v))%nat. lia. }
  (* the counting loop sees one token *)
  assert (count_words (S (S fuel)) ((u0 :: u) ++ joint :: v0 :: v) 0 = Some 1) as Hcount.
  { cbn [app count_words]. change (u0 :: u ++ joint :: v0 :: v)
      with ((u0 :: u) ++ joint :: v0 :: v). rewrite Hskip1.
    rewrite take_while_whole; [reflexivity |].
    rewrite forallb_app. apply andb_true_intro. split.
    - rewrite forallb_forall in *. intros x Hx. now rewrite (Hau x Hx).
    - cbn [forallb]. rewrite Hj, orb_true_r. cbn [andb].
      change (forallb (fun c => isalpha c || ispunct c) (v0 :: v) = true).
      rewrite forallb_forall in *. intros x Hx. now rewrite (Hav x Hx). }
  (* the creating loop stops the first word at the joint, and makes a
     second word of what follows *)
  assert (forall wordCount,
            create_words (S (S fuel)) ((u0 :: u) ++ joint :: v0 :: v) wordCount 0 []
            = if 0 <? wordCount
              then if 1 <? wordCount
                   then Some (true, [ {| cyphertext := u0 :: u; possiblePlaintext := [] |};
                                      {| cyphertext := v0 :: v; possiblePlaintext := [] |} ])
                   else None
              else None) as Hcreate.
  { intros wordCount. cbn [app create_words].
    change (u0 :: u ++ joint :: v0 :: v) with ((u0 :: u) ++ joint :: v0 :: v).
    rewrite Hskip1.
    rewrite take_while_all;
      [| rewrite forallb_forall in *; intros x Hx; now rewrite (Hau x Hx)
       | rewrite Hja; cbn [orb]; now apply Z.eqb_neq].
    destruct (0 <? wordCount); [| reflexivity].
    cbn [CreateCypherword]. rewrite Hskip2.
    rewrite take_while_whole;
      [| rewrite forallb_forall in *; intros x Hx; now rewrite (Hav x Hx)].
    change (0 + 1) with 1.
    destruct (1 <? wordCount); [| reflexivity].
    cbn [CreateCypherword app]. now destruct fuel. }
  rewrite Hfuel. split; [exact Hcount |]. split; [exact (Hcreate 2) |].
  unfold CreateCypherwordsFromCyphertext.
  rewrite Hlegal, Hfuel, Hcount. cbn [negb Z.eqb]. exact (Hcreate 1).
Qed.

Lemma CreateCypherwords_joined_words_witness :
  chars "well" <> [] /\ chars "known" <> []
  /\ forallb isalpha (chars "well") = true /\ forallb isalpha (chars "known") = true
  /\ ispunct 45 = true /\ 45 <> 39
  /\ count_words 10 (chars "well-known") 0 = Some 1
  /\ create_words 10 (chars "well-known") 2 0 []
     = Some (true, [ {| cyphertext := chars "well"; possiblePlaintext := [] |};
                     {| cyphertext := chars "known"; possiblePlaintext := [] |} ])
  /\ CreateCypherwordsFromCyphertext (Some (chars "well-known")) [] = None.
Proof.
  split; [discriminate |]. split; [discriminate |].
  split; [reflexivity |]. split; [reflexivity |].
  split; [reflexivity |]. split; [lia |].
  apply (CreateCypherwords_joined_words (chars "well") (chars "known") 45 []);
    try reflexivity; discriminate.
Defined.

(** ** The ranking of the frequency attack *)

Lemma exchange_pass_spec (x : Z * Z) (later : list (Z * Z)) :
  (x :: later) ≡ₚ (fst (exchange_pass x later) :: snd (exchange_pass x later))
  /\ snd x <= snd (fst (exchange_pass x later))
  /\ Forall (fun y => snd y <= snd (fst (exchange_pass x later)))
            (snd (exchange_pass x later)).
Proof.
  revert x. induction later as [|y rest IH]; intros x; cbn [exchange_pass].
  - cbn. split; [reflexivity |]. split; [lia | constructor].
  - destruct (Z.ltb_spec (snd x) (snd y)) as [Hlt | Hge].
    + destruct (IH y) as (Hp & Hy & Hall).
      destruct (exchange_pass y rest) as [x' rest']. cbn [fst snd] in *.
      split; [| split; [lia | constructor; [lia | exact Hall]]].
      etransitivity; [apply perm_skip, Hp | apply perm_swap].
    + destruct (IH x) as (Hp & Hx & Hall).
      destruct (exchange_pass x rest) as [x' rest']. cbn [fst snd] in *.
      split; [| split; [lia | constructor; [lia | exact Hall]]].
      etransitivity; [apply perm_swap |].
      etransitivity; [apply perm_skip, Hp | apply perm_swap].
Qed.

Lemma most_hits_first_cons (x : Z * Z) (l : list (Z * Z)) :
  Forall (fun y => snd y <= snd x) l -> most_hits_first l -> most_hits_first (x :: l).
Proof.
  intros Hall Hl [|i] [|j] a b Hij; cbn; try lia.
  - intros [= <-] Hb. rewrite Forall_lookup in Hall. exact (Hall _ _ Hb).
  - apply Hl. lia.
Qed.

Lemma exchange_sort_spec (n : nat) (row : list (Z * Z)) :
  (length row <= n)%nat ->
  exchange_sort n row ≡ₚ row /\ most_hits_first (exchange_sort n row).
Proof.
  revert row. induction n as [|n IH]; intros [|x later] Hn; cbn [length] in Hn;
    try lia; cbn [exchange_sort];
    try (split; [reflexivity | intros i j a b _ Ha; discriminate Ha]).
  destruct (exchange_pass_spec x later) as (Hp & _ & Hall).
  destruct (exchange_pass x later) as [x' later']. cbn [fst snd] in *.
  assert (length later' = length later) as Hlen.
  { apply Permutation_length in Hp. cbn [length] in Hp. lia. }
  destruct (IH later' ltac:(lia)) as [Hp' Hsorted].
  split; [now rewrite Hp', Hp |].
  apply most_hits_first_cons; [| exact Hsorted].
  now rewrite Hp'.
Qed.

(** The number of entries with a hit, as [copy_line] counts them. *)
Lemma copy_line_count (i : Z) (line : list Z) :
  snd (copy_line i line)
  = Z.of_nat (length (filter (fun e : Z * Z => 0 < snd e) (fst (copy_line i line))))
  /\ length (fst (copy_line i line)) = length line
  /\ forall k e, fst (copy_line i line) !! k = Some e ->
       fst e = i + Z.of_nat k + 97 /\ line !! k = Some (snd e).
Proof.
  revert i. induction line as [|hits rest IH]; intros i; cbn [copy_line].
  - cbn. split; [reflexivity |]. split; [reflexivity |]. intros k e [=].
  - destruct (IH (i + 1)) as (Hc & Hl & He).
    destruct (copy_line (i + 1) rest) as [entries count]. cbn [fst snd] in *.
    split; [| split; [cbn [length]; now rewrite Hl |]].
    + rewrite filter_cons. cbn [snd].
      destruct (Z.ltb_spec 0 hits) as [Hpos | Hneg].
      * rewrite decide_True by exact Hpos. cbn [length]. lia.
      * rewrite decide_False by lia. exact Hc.
    + intros [|k] e; cbn.
      * intros [= <-]. cbn. split; [lia | reflexivity].
      * intros Hk. destruct (He k e Hk) as [H1 H2]. split; [lia | exact H2].
Qed.

Lemma no_hit_filter (l : list (Z * Z)) :
  (forall y, y ∈ l -> snd y <= 0) -> filter (fun e : Z * Z => 0 < snd e) l = [].
Proof.
  induction l as [|x l IH]; intros H; [reflexivity |].
  rewrite filter_cons_False by (pose proof (H x ltac:(left)); lia).
  apply IH. intros y Hy. apply H. now right.
Qed.

(** In a list ordered by hits the entries with a hit come first. *)
Lemma most_hits_first_prefix (l : list (Z * Z)) :
  most_hits_first l ->
  forall k e, l !! k = Some e ->
    ((k < length (filter (fun e : Z * Z => (0 < snd e)%Z) l))%nat <-> 0 < snd e).
Proof.
  induction l as [|x l IH]; intros Hl k e Hk; [discriminate |].
  assert (most_hits_first l) as Hl'
    by (intros i j a b Hij Ha Hb; apply (Hl (S i) (S j) a b); [lia | exact Ha | exact Hb]).
  rewrite filter_cons. destruct (decide (0 < snd x)) as [Hpos | Hneg].
  - cbn [length]. destruct k as [|k]; cbn in Hk.
    + inversion Hk; subst e. split; [intros _; exact Hpos | lia].
    + rewrite <- (IH Hl' k e Hk). lia.
  - assert (filter (fun e : Z * Z => 0 < snd e) l = []) as ->.
    { apply no_hit_filter. intros y Hy. apply list_elem_of_lookup_1 in Hy as [i Hy].
      pose proof (Hl 0%nat (S i) x y ltac:(lia) eq_refl Hy). lia. }
    cbn [length]. split; [lia |]. intros He. exfalso. destruct k as [|k]; cbn in Hk.
    + inversion Hk; subst e. contradiction.
    + pose proof (Hl 0%nat (S k) x e ltac:(lia) eq_refl Hk). lia.
Qed.

(** X27. For a line of 26 hit counts, none negative, the table that
    [DoFrequencyAttack] builds holds each plaintext letter once with its
    count, and the letters with a hit, and only they, are its first
    [possibleCharCount] entries, those with more hits before those with
    fewer. *)
Theorem rank_line_spec (line : list Z) :
  length line = 26%nat -> Forall (fun hits => 0 <= hits) line ->
  exists ranked count,
    rank_line line = (ranked, count)
    /\ ranked ≡ₚ fst (copy_line 0 line)
    /\ (forall k e, fst (copy_line 0 line) !! k = Some e ->
          fst e = 97 + Z.of_nat k /\ line !! k = Some (snd e))
    /\ most_hits_first ranked
    /\ forall k e, ranked !! k = Some e -> (Z.of_nat k < count <-> 0 < snd e).
Proof.
  intros Hlen Hnonneg. unfold rank_line.
  destruct (copy_line_count 0 line) as (Hcount & Hl & Hentries).
  destruct (copy_line 0 line) as [entries count]. cbn [fst snd] in *.
  assert (forall k e, entries !! k = Some e ->
            fst e = 97 + Z.of_nat k /\ line !! k = Some (snd e)) as Hentries'.
  { intros k e Hk. destruct (Hentries k e Hk) as [H1 H2]. split; [lia | exact H2]. }
  destruct (Z.ltb_spec 0 count) as [Hpos | Hzero].
  - destruct (exchange_sort_spec 26 entries ltac:(lia)) as [Hp Hsorted].
    eexists _, _. split; [reflexivity |]. split; [exact Hp |].
    split; [exact Hentries' |]. split; [exact Hsorted |].
    intros k e Hk. rewrite <- (most_hits_first_prefix _ Hsorted k e Hk).
    rewrite Hcount, Hp. lia.
  - assert (filter (fun e : Z * Z => 0 < snd e) entries = []) as Hnone.
    { destruct (filter _ entries); [reflexivity | cbn [length] in Hcount; lia]. }
    assert (forall k e, entries !! k = Some e -> snd e = 0) as Hall0.
    { intros k e Hk.
      assert (~ 0 < snd e) as Hn.
      { intros Hpos. assert (e ∈ filter (fun e : Z * Z => 0 < snd e) entries) as Hin
          by (apply list_elem_of_filter; split; [exact Hpos | eapply list_elem_of_lookup_2, Hk]).
        rewrite Hnone in Hin. inversion Hin. }
      destruct (Hentries' k e Hk) as [_ Hline].
      rewrite Forall_lookup in Hnonneg. pose proof (Hnonneg _ _ Hline). lia. }
    eexists _, _. split; [reflexivity |]. split; [reflexivity |].
    split; [exact Hentries' |]. split.
    + intros i j a b _ Ha Hb. rewrite (Hall0 _ _ Ha), (Hall0 _ _ Hb). lia.
    + intros k e Hk. rewrite (Hall0 _ _ Hk). lia.
Qed.

Lemma rank_line_spec_witness :
  length hits_e_t = 26%nat
  /\ Forall (fun hits => 0 <= hits) hits_e_t
  /\ exists ranked count,
       rank_line hits_e_t = (ranked, count)
       /\ count = 2
       /\ ranked !! 0%nat = Some (116, 5) /\ ranked !! 1%nat = Some (101, 2)
       /\ most_hits_first ranked.
Proof.
  assert (Forall (fun hits => 0 <= hits) hits_e_t)
    as Hnonneg by (refine (bool_decide_unpack _ _); vm_compute; exact I).
  split; [reflexivity |]. split; [exact Hnonneg |].
  destruct (rank_line_spec hits_e_t eq_refl Hnonneg)
    as (ranked & count & Hr & _ & _ & Hs & _).
  exists ranked, count. split; [exact Hr |].
  vm_compute in Hr. inversion Hr; subst ranked count.
  repeat split. exact Hs.
Defined.

(** ** A slot that holds an upper-case letter *)

Lemma tolower_alpha_slot c :
  isalpha c = true -> ispunct (tolower c) = false /\ 0 <= tolower c - 97 < 26.
Proof. intros H. split; ctype_props. Qed.

Lemma isupper_nonzero v : isupper v = true -> v <> 0.
Proof. intros H. ctype_props. Qed.

Lemma incorporate_loop_upper_slot (cs ps : cstring) (m m' : legend) (i : nat) ci v :
  cs !! i = Some ci -> isalpha ci = true ->
  m !! Z.to_nat (tolower ci - 97) = Some v -> isupper v = true ->
  length cs = length ps ->
  incorporate_loop cs ps m <> Some (true, m').
Proof.
  revert ps m i. induction cs as [|c cs IH]; intros [|p ps] m i Hi Ha Hv Hup Hlen;
    try discriminate.
  cbn [incorporate_loop].
  destruct (ispunct (tolower c) && negb (ispunct (tolower p))
            || negb (ispunct (tolower c)) && ispunct (tolower p)) eqn:E1; [discriminate |].
  pose proof (isupper_nonzero v Hup) as Hv0.
  destruct i as [|i]; cbn in Hi.
  - inversion Hi; subst c.
    destruct (tolower_alpha_slot ci Ha) as [Hnp Hk].
    rewrite Hnp. cbn [andb].
    rewrite (slot_lookup m _ v Hk Hv).
    replace (v =? 0) with false by (symmetry; now apply Z.eqb_neq).
    cbn [negb].
    replace (v =? tolower p) with false; [discriminate |].
    symmetry. apply Z.eqb_neq. intros ->.
    rewrite tolower_not_upper in Hup. discriminate.
  - simpl in Hlen.
    destruct (ispunct (tolower c) && ispunct (tolower p));
      [eapply IH; eauto with lia |].
    destruct (slot m (tolower c - 97)) as [v0|] eqn:Hs; [| discriminate].
    apply slot_Some in Hs as [_ Hs].
    destruct (Z.eqb_spec v0 0) as [-> | Hne]; cbn [negb].
    + destruct (existsb _ m); [discriminate |].
      eapply IH; eauto with lia.
      rewrite list_lookup_insert_ne; [exact Hv | congruence].
    + destruct (Z.eqb_spec v0 (tolower p)) as [-> | _]; cbn [negb]; [| discriminate].
      rewrite list_insert_id by exact Hs. eapply IH; eauto with lia.
Qed.

(** X28. The legend is compared with the lower-case plaintext: when the
    slot of a letter of the cyphertext holds an upper-case letter (as after
    a hint given with an upper-case plain letter), no incorporation of that
    cyphertext succeeds, whatever the plaintext. *)
Theorem Incorporate_upper_slot (c p : cstring) (m : legend) (i : nat) ci v mo :
  c !! i = Some ci -> isalpha ci = true ->
  m !! Z.to_nat (tolower ci - 97) = Some v -> isupper v = true ->
  IncorporateCypherToPlainMapInLegend (Some c) (Some p) (Some m) <> Some (true, mo).
Proof.
  intros Hi Ha Hv Hup. unfold IncorporateCypherToPlainMapInLegend.
  destruct (Nat.eqb_spec (length c) (length p)) as [Hlen | _]; [cbn [negb] | discriminate].
  destruct (incorporate_loop c p m) as [[ok m1]|] eqn:E; [| discriminate].
  destruct ok; [| discriminate].
  exfalso. exact (incorporate_loop_upper_slot c p m m1 i ci v Hi Ha Hv Hup Hlen E).
Qed.

Lemma Incorporate_upper_slot_witness :
  chars "ab" !! 0%nat = Some 97 /\ isalpha 97 = true
  /\ <[0%nat := 73]> hint_c_t !! Z.to_nat (tolower 97 - 97) = Some 73
  /\ isupper 73 = true
  /\ CanCypherAndLegendMakePlain (Some (chars "ab")) (Some (<[0%nat := 73]> hint_c_t))
       (Some (chars "in")) false = true
  /\ IncorporateCypherToPlainMapInLegend (Some (chars "ab")) (Some (chars "in"))
       (Some (<[0%nat := 73]> hint_c_t))
     <> Some (true, Some (<[0%nat := 73]> hint_c_t)).
Proof.
  do 5 (split; [reflexivity |]).
  apply (Incorporate_upper_slot (chars "ab") (chars "in") (<[0%nat := 73]> hint_c_t)
           0 97 73); reflexivity.
Defined.
